(** * PowerRAFT client: policy replay, energization probabilities and
      branch-direction inference

    A shallow embedding of the JavaScript client classes [Graph]
    (_setState, emptyState, setState), [InteractivePolicy] (the
    interactive cursor and its probability queries) and [LinearPolicy]
    (the precomputed best-case path), together with the properties the
    specification states about them.

    Conventions of the embedding.
    - A JavaScript number used as an index or key is a [Z] (state indices,
      action keys) or a [nat] (array positions produced by loops).
    - A JavaScript number used as a probability is an element of an
      arbitrary carrier [R] with the operations the code applies to it
      (class [Num]); nothing is assumed about these operations unless a
      theorem says so.  Instances are given for IEEE binary64 floats (the
      numbers JavaScript computes with) and for exact rationals.  The
      order facts of class [NumOrder] are proved of binary64 with its
      rounding, from the specification of the primitive floats; the
      classes [NumOrderMono] and [NumExact] hold of exact arithmetic
      only, and the theorems under them say so.
    - [undefined] is [None]; reading a property of [undefined] or
      iterating it throws [TypeError].
    - A method that mutates [this] and the graph is a function from the
      store to a completion and the store it leaves behind, so that what a
      throwing call has already mutated stays visible.
    - [Graph.setState] is embedded up to and including its final marking
      pass.  The method ends with calculateCumulativePfs() when the
      settings ask for the cumulative colouring, rerender(), and
      showNodeInfo() when the panel shows a node.  These statements read
      the settings, the panel and the policy view on display, none of
      which is part of the store here, and write only [node.cpf] and the
      drawing; they can throw, and through cumulativePfs they can fail to
      return.  A [Normal] completion of [Graph.setState], and of the
      cursor methods that end with it, therefore says that the call has
      reached that redraw without throwing, not that it returns; what
      the theorems say a call leaves in the store does not depend on the
      redraw.

    Besides these the development embeds the remaining methods of the two
    cursors (getNextState, isEnergized, update, getActivationList,
    currentSuccessProbability), the baseline [TrivialPolicy] with the
    function that builds it, and the editing operation removeElement of
    [Graph], and proves further properties of all of them in its last
    part. *)

From Stdlib Require Import ZArith QArith Qcanon Lqa List Lia Bool PrimFloat.
From Stdlib Require SpecFloat FloatOps FloatAxioms.
From stdpp Require Import base option list gmap strings pretty.

Set Default Proof Using "Type".

(** ** Numbers *)

Class Num (R : Type) : Type := {
  zero : R;
  one : R;
  add : R -> R -> R;
  sub : R -> R -> R;
  mul : R -> R -> R;
  (** the value arithmetic yields when an operand is [undefined] *)
  nan : R
}.

(** IEEE binary64, the carrier of JavaScript numbers. *)
#[global] Instance float_Num : Num float := {
  zero := 0%float;
  one := 1%float;
  add := PrimFloat.add;
  sub := PrimFloat.sub;
  mul := PrimFloat.mul;
  nan := PrimFloat.nan
}.

(** Exact rationals extended with a not-a-number element. *)
Inductive qnum : Type :=
| QFin (q : Q)
| QNaN.

Definition qnum_lift (f : Q -> Q -> Q) (x y : qnum) : qnum :=
  match x, y with
  | QFin a, QFin b => QFin (f a b)
  | _, _ => QNaN
  end.

#[global] Instance qnum_Num : Num qnum := {
  zero := QFin 0;
  one := QFin 1;
  add := qnum_lift Qplus;
  sub := qnum_lift Qminus;
  mul := qnum_lift Qmult;
  nan := QNaN
}.

(** The order facts the monotonicity argument uses.  [le] is meant as
    "both operands are numbers and the left one is at most the right one",
    so it is reflexive only on numbers.  The facts about addition and
    multiplication are restricted to probabilities, numbers between zero
    and one: so restricted they hold of binary64 with its rounding, where
    neither an overflow to infinity nor a not-a-number can arise, as well
    as of exact arithmetic. *)
Class NumOrder (R : Type) `{Num R} : Type := {
  le : R -> R -> Prop;
  le_refl_l : forall x y, le x y -> le x x;
  le_refl_r : forall x y, le x y -> le y y;
  le_trans : forall x y z, le x y -> le y z -> le x z;
  le_zero_one : le zero one;
  le_add_r : forall x p, le zero x -> le zero p -> le p one -> le x (add x p);
  le_mul_unit : forall p q,
    le zero p -> le p one -> le zero q -> le q one ->
    le zero (mul p q) /\ le (mul p q) one;
  add_zero_one : add zero one = one
}.

(** The order of binary64 numbers, [x <= y] of JavaScript: false when an
    operand is not a number. *)
Definition float_le (x y : float) : Prop := PrimFloat.leb x y = true.

(** Zero and one as the specification of the primitive floats has them,
    and the number its rounding builds from a rounded mantissa and an
    exponent. *)
Definition sf_zero : SpecFloat.spec_float := SpecFloat.S754_zero false.
Definition sf_one : SpecFloat.spec_float :=
  SpecFloat.S754_finite false 4503599627370496 (-52).

Definition finish (sx : bool) (m3 e3 : Z) : SpecFloat.spec_float :=
  match m3 with
  | Z0 => SpecFloat.S754_zero sx
  | Zpos p =>
    if (e3 <=? FloatOps.emax - FloatOps.prec)%Z
    then SpecFloat.S754_finite sx p e3
    else SpecFloat.S754_infinity sx
  | Zneg _ => SpecFloat.S754_nan
  end.

Definition qnum_le (x y : qnum) : Prop :=
  match x, y with
  | QFin a, QFin b => (a <= b)%Q
  | _, _ => False
  end.

(** The order facts of exact arithmetic the bounds on the recursive
    query use besides those of [NumOrder]: adding a number that is at
    least zero does not decrease, a product of numbers that are at least
    zero is at least zero, addition and multiplication by a number that
    is at least zero are monotone, and multiplying by one does not
    increase.  Rounded arithmetic with infinities does not have them. *)
Class NumOrderMono (R : Type) `{NumOrder R} : Type := {
  le_add_nonneg : forall x p, le x x -> le zero p -> le x (add x p);
  le_mul_nonneg : forall p q, le zero p -> le zero q -> le zero (mul p q);
  le_add_mono : forall a b c d, le a b -> le c d -> le (add a c) (add b d);
  le_mul_mono_l : forall p x y, le zero p -> le x y -> le (mul p x) (mul p y);
  le_mul_one_r : forall p, le p p -> le (mul p one) p
}.

(** The laws of exact arithmetic the agreement of the two probability
    queries rests on.  [number] tells the numbers from the not-a-number
    value, which is absorbing and so does not multiply with zero to
    zero. *)
Class NumExact (R : Type) `{Num R} : Type := {
  number : R -> Prop;
  number_one : number one;
  number_mul : forall x y, number x -> number y -> number (mul x y);
  num_add_comm : forall x y, add x y = add y x;
  num_add_assoc : forall x y z, add x (add y z) = add (add x y) z;
  num_add_zero_r : forall x, add x zero = x;
  num_mul_zero_r : forall p, number p -> mul p zero = zero;
  num_mul_one_r : forall p, mul p one = p;
  num_mul_one_l : forall x, mul one x = x;
  num_mul_assoc : forall p q x, mul (mul p q) x = mul p (mul q x);
  num_mul_add_distr_l : forall p x y, mul p (add x y) = add (mul p x) (mul p y)
}.

(** Canonical rationals extended with a not-a-number element. *)
Inductive qcnum : Type :=
| QcFin (q : Qc)
| QcNaN.

Definition qcnum_lift (f : Qc -> Qc -> Qc) (x y : qcnum) : qcnum :=
  match x, y with
  | QcFin a, QcFin b => QcFin (f a b)
  | _, _ => QcNaN
  end.

#[global] Instance qcnum_Num : Num qcnum := {
  zero := QcFin 0%Qc;
  one := QcFin 1%Qc;
  add := qcnum_lift Qcplus;
  sub := qcnum_lift Qcminus;
  mul := qcnum_lift Qcmult;
  nan := QcNaN
}.

(** ** Completions and the store-passing monad *)

Inductive JsError : Type :=
| TypeError
| Error (message : string).

Inductive completion (A : Type) : Type :=
| Normal (a : A)
| Throw (e : JsError).
Arguments Normal {A} a.
Arguments Throw {A} e.

Definition M (S A : Type) : Type := S -> completion A * S.

Definition ret {S A} (a : A) : M S A := fun s => (Normal a, s).

Definition bind {S A B} (m : M S A) (k : A -> M S B) : M S B :=
  fun s =>
    match m s with
    | (Normal a, s') => k a s'
    | (Throw e, s') => (Throw e, s')
    end.

Definition throw {S A} (e : JsError) : M S A := fun s => (Throw e, s).

Definition get {S} : M S S := fun s => (Normal s, s).

Definition modify {S} (f : S -> S) : M S unit := fun s => (Normal tt, f s).

(** [x = undefined ? throw TypeError : x] *)
Definition defined {S A} (o : option A) : M S A :=
  match o with
  | Some a => ret a
  | None => throw TypeError
  end.

Declare Scope js_scope.
Delimit Scope js_scope with js.
Notation "'let!' x ':=' c1 'in' c2" := (bind c1 (fun x => c2))
  (at level 10, x name, c1 at level 100, c2 at level 200) : js_scope.
Notation "'do!' c1 'in' c2" := (bind c1 (fun _ => c2))
  (at level 10, c1 at level 100, c2 at level 200) : js_scope.

(** Status symbols of a state: ["D"] damaged, ["U"] unknown, anything else
    (["TG1"], ...) energized.  A snapshot is one symbol per node. *)
Definition Snapshot : Type := list string.

Definition isD (s : option string) : bool := bool_decide (s = Some "D").
Definition isU (s : option string) : bool := bool_decide (s = Some "U").

(** [this.states[i]] for a numeric index [i]. *)
Definition lookupZ {A} (l : list A) (i : Z) : option A :=
  if (i <? 0)%Z then None else l !! Z.to_nat i.

(** [obj[k]] where the key itself may be [undefined]. *)
Definition getU {A} (m : gmap Z A) (k : option Z) : option A :=
  k ≫= (m !!.).

(** ** The network graph (class Graph) *)

Module Graph.
Section WithNum.
Context {R : Type}.

(** [status]: -1 damaged, 0 unknown, 1 energized, 2 energized by the step
    on display.  [pf]: the node's failure probability. *)
Record Node : Type := mkNode { status : Z; pf : R }.

(** [bnodes] is the two-element array [branch.nodes]; reversing it turns
    the branch around.  [energized]: 0 no, 1 yes, 2 by the last step. *)
Record Branch : Type := mkBranch { bnodes : nat * nat; energized : Z }.

Record Graph : Type := mkGraph { nodes : list Node; branches : list Branch }.

Definition set_status (v : Z) (n : Node) : Node := mkNode v (pf n).
Definition set_energized (v : Z) (b : Branch) : Branch := mkBranch (bnodes b) v.
Definition reverse (b : Branch) : Branch :=
  mkBranch (snd (bnodes b), fst (bnodes b)) (energized b).
Definition set_nodes (ns : list Node) (g : Graph) : Graph := mkGraph ns (branches g).
Definition set_branches (bs : list Branch) (g : Graph) : Graph := mkGraph (nodes g) bs.

(** [this.nodes[i].branches] as render() builds it: the branches with an
    end at [i], in the order of [this.branches], a branch from [i] to [i]
    twice.  Each element is a reference to the branch object, here its
    position in [this.branches] paired with its current contents. *)
Definition incident (g : Graph) (i : nat) : list (nat * Branch) :=
  flat_map
    (fun kb : nat * Branch =>
       (if fst (bnodes (snd kb)) =? i then [kb] else []) ++
       (if snd (bnodes (snd kb)) =? i then [kb] else []))
    (imap pair (branches g)).

Definition length_message (n : nat) : string :=
  "State length is not equal to nodes.length " +:+ pretty n.

(** The body of the switch in _setState. *)
Definition mark (n : Node) (sym : string) : Node :=
  if bool_decide (sym = "D") then set_status (-1) n
  else if bool_decide (sym = "U") then set_status 0 n
  else if (status n >? 0)%Z then set_status 1 n
  else set_status 2 n.

(** _setState(state), for a [state] that is an array.  The loop runs over
    the positions of [state], which are those of [this.nodes] once the
    lengths agree. *)
Definition _setState (state : Snapshot) : M Graph unit :=
  fun g =>
    if bool_decide (length state ≠ length (nodes g))
    then (Throw (Error (length_message (length (nodes g)))), g)
    else (Normal tt, set_nodes (zip_with mark (nodes g) state) g).

Definition emptyState (g : Graph) : Graph :=
  mkGraph (map (set_status 0) (nodes g)) (map (set_energized 0) (branches g)).

(** One entry of [diffs] in setState. *)
Record Diff : Type := mkDiff { i : nat; potentials : list nat }.

Definition other_end (b : Branch) (i : nat) : nat :=
  if fst (bnodes b) =? i then snd (bnodes b) else fst (bnodes b).

(** The neighbours of node [i] whose symbol in [lastState] is the one [i]
    has in [s]. *)
Definition potentials_of (g : Graph) (lastState s : Snapshot) (i : nat) : list nat :=
  flat_map
    (fun kb : nat * Branch =>
       let other := other_end (snd kb) i in
       if bool_decide (lastState !! other = s !! i) then [other] else [])
    (incident g i).

Definition diffs_of (g : Graph) (lastState s : Snapshot) : list Diff :=
  flat_map
    (fun i =>
       if bool_decide (lastState !! i ≠ s !! i) && negb (isD (s !! i))
       then
         let ps := potentials_of g lastState s i in
         if (0 <? length ps) then [mkDiff i ps] else []
       else [])
    (seq 0 (length s)).

(** The scan for [mindiff]: the first entry with the fewest potentials. *)
Fixpoint scan_min (rest : list Diff) (i mindiff minlen : nat) : nat :=
  match rest with
  | [] => mindiff
  | d :: rest' =>
    if length (potentials d) <? minlen
    then scan_min rest' (S i) i (length (potentials d))
    else scan_min rest' (S i) mindiff minlen
  end.

(** The inner for loop of the while: the first branch of [target] that
    joins it to [source] is pointed from [source] to [target], energized
    and recorded; the loop then breaks. *)
Fixpoint assign (bs : list (nat * Branch)) (target : nat) (source : option nat)
    (g : Graph) (last : list nat) : Graph * list nat :=
  match bs with
  | [] => (g, last)
  | (k, b) :: bs' =>
    if (fst (bnodes b) =? target) && bool_decide (Some (snd (bnodes b)) = source)
    then (set_branches (<[k := set_energized 1 (reverse b)]> (branches g)) g, last ++ [k])
    else if bool_decide (Some (fst (bnodes b)) = source) && (snd (bnodes b) =? target)
    then (set_branches (<[k := set_energized 1 b]> (branches g)) g, last ++ [k])
    else assign bs' target source g last
  end.

(** The while loop over [diffs]; every round removes one entry, so
    [length diffs] rounds empty the list. *)
Fixpoint resolve (rounds : nat) (diffs : list Diff) (g : Graph) (last : list nat)
    : Graph * list nat :=
  match rounds, diffs with
  | S rounds', d0 :: rest =>
    let m := scan_min rest 1 0 (length (potentials d0)) in
    let d := nth m diffs d0 in
    let '(g', last') := assign (incident g (i d)) (i d) (potentials d !! 0) g last in
    resolve rounds' (delete m diffs) g' last'
  | _, _ => (g, last)
  end.

(** The for loop over [hist] in setState.  [lastState = None] is the
    initial [null]; [last = None] is the uninitialised
    [lastEnergizedBranches].  An [undefined] snapshot makes _setState
    throw on [state.length]. *)
Fixpoint replay (hist : list (option Snapshot)) (lastState : option Snapshot)
    (last : option (list nat)) : M Graph (option (list nat)) :=
  match hist with
  | [] => ret last
  | s :: hist' =>
    (let! cur := defined s in
     do! _setState cur in
     match lastState with
     | None => replay hist' (Some cur) last
     | Some prev =>
       let! g := get in
       let ds := diffs_of g prev cur in
       let '(g', last') := resolve (length ds) ds g [] in
       do! modify (fun _ => g') in
       replay hist' (Some cur) (Some last')
     end)%js
  end.

Definition mark_active (last : list nat) (g : Graph) : Graph :=
  set_branches
    (foldl (fun bs k => alter (set_energized 2) k bs) (branches g) last) g.

(** setState(hist), up to and including the final marking pass.  The
    redraw that ends the method in the source (calculateCumulativePfs
    under the cumulative colouring, rerender, showNodeInfo) is not part of
    this definition: it writes no status, failure probability, branch end
    or flag, and whether it returns depends on the settings, the panel
    and the policy view.  [Normal] here means that the redraw has been
    reached. *)
Definition setState (hist : list (option Snapshot)) : M Graph unit :=
  (do! modify emptyState in
   let! last := replay hist None None in
   let! bs := defined last in
   modify (mark_active bs))%js.

End WithNum.
End Graph.

(** ** The policy cursors (classes InteractivePolicy and LinearPolicy) *)

Module Policy.
Section WithNum.
Context {R : Type} `{Num R}.

(** An outcome is the array [[nextStateIndex, probability]]; an action is
    the array of its outcomes. *)
Definition Outcome : Type := Z * R.
Abbreviation Action := (list Outcome).

Definition ACTION_OFFSET : Z := 0.

(** What the server sends and the constructor copies onto [this]. *)
Record PolicyData : Type := mkPolicyData {
  states : list Snapshot;
  transitions : gmap Z (gmap Z Action);
  policy : gmap Z Z
}.

(** An element of [previousStates] and of [fullHistory]. *)
Record HistoryEntry : Type := mkEntry {
  h_state : option Z;
  h_actionNum : option Z;
  h_next : option nat
}.

(** The fields of the cursor object.  [ended] is [this.end]; [steps],
    [fullHistory] and [index] are the fields LinearPolicy adds. *)
Record Cursor : Type := mkCursor {
  data : PolicyData;
  state : option Z;
  actions : option (gmap Z Action);
  actionNum : option Z;
  action : option Action;
  next : option nat;
  ended : bool;
  previousStates : list (option HistoryEntry);
  steps : list Z;
  fullHistory : list (option HistoryEntry);
  index : nat
}.

Definition set_data v (c : Cursor) : Cursor :=
  mkCursor v (state c) (actions c) (actionNum c) (action c) (next c) (ended c)
    (previousStates c) (steps c) (fullHistory c) (index c).
Definition set_state v (c : Cursor) : Cursor :=
  mkCursor (data c) v (actions c) (actionNum c) (action c) (next c) (ended c)
    (previousStates c) (steps c) (fullHistory c) (index c).
Definition set_actions v (c : Cursor) : Cursor :=
  mkCursor (data c) (state c) v (actionNum c) (action c) (next c) (ended c)
    (previousStates c) (steps c) (fullHistory c) (index c).
Definition set_actionNum v (c : Cursor) : Cursor :=
  mkCursor (data c) (state c) (actions c) v (action c) (next c) (ended c)
    (previousStates c) (steps c) (fullHistory c) (index c).
Definition set_action v (c : Cursor) : Cursor :=
  mkCursor (data c) (state c) (actions c) (actionNum c) v (next c) (ended c)
    (previousStates c) (steps c) (fullHistory c) (index c).
Definition set_next v (c : Cursor) : Cursor :=
  mkCursor (data c) (state c) (actions c) (actionNum c) (action c) v (ended c)
    (previousStates c) (steps c) (fullHistory c) (index c).
Definition set_ended v (c : Cursor) : Cursor :=
  mkCursor (data c) (state c) (actions c) (actionNum c) (action c) (next c) v
    (previousStates c) (steps c) (fullHistory c) (index c).
Definition set_previousStates v (c : Cursor) : Cursor :=
  mkCursor (data c) (state c) (actions c) (actionNum c) (action c) (next c) (ended c)
    v (steps c) (fullHistory c) (index c).
Definition set_steps v (c : Cursor) : Cursor :=
  mkCursor (data c) (state c) (actions c) (actionNum c) (action c) (next c) (ended c)
    (previousStates c) v (fullHistory c) (index c).
Definition set_fullHistory v (c : Cursor) : Cursor :=
  mkCursor (data c) (state c) (actions c) (actionNum c) (action c) (next c) (ended c)
    (previousStates c) (steps c) v (index c).
Definition set_index v (c : Cursor) : Cursor :=
  mkCursor (data c) (state c) (actions c) (actionNum c) (action c) (next c) (ended c)
    (previousStates c) (steps c) (fullHistory c) v.

(** The store of a method call: the cursor and the graph it draws on. *)
Definition World : Type := Cursor * Graph.Graph (R := R).

Definition this : M World Cursor := fun w => (Normal (fst w), w).
Definition assign (f : Cursor -> Cursor) : M World unit :=
  fun w => (Normal tt, (f (fst w), snd w)).

(** [this.graph.setState(hist)] *)
Definition graph_setState (hist : list (option Snapshot)) : M World unit :=
  fun w =>
    let '(r, g') := Graph.setState hist (snd w) in (r, (fst w, g')).

(** [this.states[k]] for a key that may be [undefined]. *)
Definition stateAt (d : PolicyData) (k : option Z) : option Snapshot :=
  k ≫= lookupZ (states d).

(** [this.previousStates.map(s => this.states[s.state])]; an [undefined]
    element of the history makes [s.state] throw. *)
Definition history_snapshots (c : Cursor) : option (list (option Snapshot)) :=
  mapM (fun e : option HistoryEntry =>
          (fun h => stateAt (data c) (h_state h)) <$> e)
       (previousStates c).

(** The target of outcome [i] of the selected action,
    [this.action[i][0] + ACTION_OFFSET]; [None] where the source throws. *)
Definition target_of (c : Cursor) (i : option nat) : option Z :=
  act ← action c; k ← i; o ← act !! k; Some (fst o + ACTION_OFFSET)%Z.

Definition setNext (i : nat) : M World unit :=
  (do! assign (set_next (Some i)) in
   let! c := this in
   let! t := defined (target_of c (next c)) in
   let nextState := stateAt (data c) (Some t) in
   let! hist := defined (history_snapshots c) in
   graph_setState (hist ++ [stateAt (data c) (state c); nextState]))%js.

(** The value the source assigns to [this.end]. *)
Definition end_of (act : option Action) (st : option Z) : bool :=
  match act with
  | Some a =>
    (length a =? 1) &&
    bool_decide ((fun o : Outcome => (fst o + ACTION_OFFSET)%Z) <$> a !! 0 = st)
  | None => true
  end.

(** setAction(actionNum, next); [nxt = None] is [next === null]. *)
Definition setAction (a : option Z) (nxt : option nat) : M World unit :=
  (do! assign (set_actionNum a) in
   let! c := this in
   let! acts := defined (actions c) in
   do! assign (set_action (getU acts a)) in
   do! assign (set_ended (end_of (getU acts a) (state c))) in
   let! c := this in
   match nxt, ended c with
   | Some i, false => setNext i
   | _, _ =>
     let! hist := defined (history_snapshots c) in
     let cur := stateAt (data c) (state c) in
     graph_setState (hist ++ [cur] ++ (if ended c then [cur] else []))
   end)%js.

(** setState(state, next = 0) *)
Definition setState (st : option Z) (nxt : option nat) : M World unit :=
  (do! assign (set_state st) in
   do! assign (fun c => set_actions (getU (transitions (data c)) (state c)) c) in
   let! c := this in
   setAction (getU (policy (data c)) (state c)) nxt)%js.

(** setStateAndAction(state, action, next = 0) *)
Definition setStateAndAction (st : option Z) (a : option Z) (nxt : option nat)
    : M World unit :=
  (do! assign (set_state st) in
   do! assign (fun c => set_actions (getU (transitions (data c)) (state c)) c) in
   setAction a nxt)%js.

(** nextState(): the advance of the specification. *)
Definition nextState : M World unit :=
  (do! assign (fun c =>
         set_previousStates
           (previousStates c ++ [Some (mkEntry (state c) (actionNum c) (next c))]) c) in
   let! c := this in
   let! t := defined (target_of c (next c)) in
   setState (Some t) (Some 0))%js.

(** [Array.prototype.pop]: the last element and the rest. *)
Definition pop {A} (l : list A) : option (A * list A) :=
  match rev l with
  | [] => None
  | x :: r => Some (x, rev r)
  end.

Definition no_previous_state : string := "There's no previous state".

(** previousState(): the rewind of the specification.  A popped entry
    whose [next] is [undefined] takes the parameter default 0. *)
Definition previousState : M World unit :=
  (let! c := this in
   match pop (previousStates c) with
   | None => throw (Error no_previous_state)
   | Some (prev, rest) =>
     do! assign (set_previousStates rest) in
     match prev with
     | None => throw (Error no_previous_state)
     | Some e =>
       setStateAndAction (h_state e) (h_actionNum e)
         (Some (default 0 (h_next e)))
     end
   end)%js.

Definition nextStateAvailable (c : Cursor) : bool := negb (ended c).

(** getCurrentState() and getNextState() *)
Definition getCurrentState (c : Cursor) : option Snapshot :=
  stateAt (data c) (state c).

Definition getNextState (c : Cursor) : completion (option Snapshot) :=
  match target_of c (next c) with
  | None => Throw TypeError
  | Some t => Normal (stateAt (data c) (Some t))
  end.

(** update(policy, next = 0): [Object.assign] copies the three tables of
    the new policy onto the cursor; [this.actions] is not among them. *)
Definition update (d : PolicyData) (nxt : option nat) : M World unit :=
  (do! assign (set_data d) in
   let! c := this in
   setAction (getU (policy (data c)) (state c)) nxt)%js.

(** The object before the constructor's call of setState. *)
Definition blank (d : PolicyData) : Cursor :=
  mkCursor d None None None None None false [] [] [] 0.

(** new InteractivePolicy(graph, policy) *)
Definition new_InteractivePolicy (d : PolicyData) (g : Graph.Graph)
    : completion unit * World :=
  setState (Some 0%Z) (Some 0) (blank d, g).

(** *** The probability queries *)

(** A computation that may not terminate is run with a bound on its
    recursion depth or on its loop rounds; [None] means the bound was
    reached. *)
Definition Run (A : Type) : Type := option (completion A).

(** The status symbol [this.states[state][nodeIndex]]; the outer [None] is
    the TypeError of indexing [undefined]. *)
Definition symbol (d : PolicyData) (st : Z) (nodeIndex : nat)
    : option (option string) :=
  (fun snap : Snapshot => snap !! nodeIndex) <$> lookupZ (states d) st.

(** [xs.reduce((a, b) => a + b, 0)] *)
Definition sum (xs : list R) : R := foldl add zero xs.

(** [action.map(f)] for a callback that may throw: the first throw wins. *)
Fixpoint map_completion {A B} (f : A -> completion B) (l : list A)
    : completion (list B) :=
  match l with
  | [] => Normal []
  | a :: l' =>
    match f a with
    | Throw e => Throw e
    | Normal b =>
      match map_completion f l' with
      | Throw e => Throw e
      | Normal bs => Normal (b :: bs)
      end
    end
  end.

(** _energizationProbability(state, nodeIndex, depth) *)
Fixpoint _energizationProbability (d : PolicyData) (st : Z) (nodeIndex : nat)
    (depth : nat) : completion R :=
  match symbol d st nodeIndex with
  | None => Throw TypeError
  | Some s =>
    match depth with
    | 0 => Normal (if isD s || isU s then zero else one)
    | S depth' =>
      if isD s then Normal zero
      else if negb (isU s) then Normal one
      else
        match transitions d !! st with
        | None => Throw TypeError
        | Some acts =>
          match getU acts (policy d !! st) with
          | None => Normal zero
          | Some act =>
            if (length act =? 1) &&
               bool_decide ((fun a : Outcome => (fst a - 1)%Z) <$> act !! 0 = Some st)
            then Normal zero
            else
              match
                map_completion
                  (fun a : Outcome =>
                     if (fst a - 1 =? st)%Z then Normal zero
                     else
                       match _energizationProbability d (fst a - 1)%Z nodeIndex depth' with
                       | Normal x => Normal (mul (snd a) x)
                       | Throw e => Throw e
                       end)
                  act
              with
              | Normal xs => Normal (sum xs)
              | Throw e => Throw e
              end
          end
        end
    end
  end.

(** energizationProbability(nodeIndex, depth) *)
Definition energizationProbability (c : Cursor) (nodeIndex depth : nat)
    : completion R :=
  match state c with
  | Some st => _energizationProbability (data c) st nodeIndex depth
  | None => Throw TypeError
  end.

(** isEnergized(nodeIndex) *)
Definition isEnergized (c : Cursor) (nodeIndex : nat) : completion bool :=
  match state c ≫= (fun st => symbol (data c) st nodeIndex) with
  | None => Throw TypeError
  | Some s => Normal (negb (isD s) && negb (isU s))
  end.

(** An element of the work queue of _energizationProbabilities. *)
Record Item : Type := mkItem { q_state : Z; q_p : R; q_depth : nat }.

(** [results[i]], [undefined] for a hole or past the end. *)
Definition read (results : list (option R)) (i : nat) : option R :=
  mjoin (results !! i).

(** [results[i] = v]; writing past the end leaves holes. *)
Definition write (results : list (option R)) (i : nat) (v : option R)
    : list (option R) :=
  if i <? length results then <[i := v]> results
  else results ++ replicate (i - length results) None ++ [v].

(** [x + p] where [x] may be [undefined]. *)
Definition addU (x : option R) (p : R) : R :=
  match x with
  | Some v => add v p
  | None => nan
  end.

(** [results[depth] = results[depth-1]] when [results[depth]] is
    [undefined]; [results[-1]] is [undefined]. *)
Definition seed (results : list (option R)) (depth : nat) : list (option R) :=
  match read results depth with
  | Some _ => results
  | None =>
    write results depth
      (match depth with 0 => None | S k => read results k end)
  end.

(** The outcomes of [action] pushed on the queue by the for-of loop. *)
Definition children (st : Z) (p : R) (depth : nat) (act : Action) : list Item :=
  flat_map
    (fun a : Outcome =>
       if (fst a - 1 =? st)%Z then []
       else [mkItem (fst a - 1)%Z (mul p (snd a)) (S depth)])
    act.

(** One round of the while loop of _energizationProbabilities on the
    dequeued [it]: the queue and the results it leaves. *)
Definition profile_step (d : PolicyData) (nodeIndex : nat) (it : Item)
    (queue : list Item) (results : list (option R))
    : completion (list Item * list (option R)) :=
  let results1 := seed results (q_depth it) in
  match symbol d (q_state it) nodeIndex with
  | None => Throw TypeError
  | Some s =>
    if isD s then Normal (queue, results1)
    else if negb (isU s) then
      Normal (queue,
              write results1 (q_depth it)
                (Some (addU (read results1 (q_depth it)) (q_p it))))
    else
      match transitions d !! q_state it with
      | None => Throw TypeError
      | Some acts =>
        match getU acts (policy d !! q_state it) with
        | None => Normal (queue, results1)
        | Some act =>
          Normal (queue ++ children (q_state it) (q_p it) (q_depth it) act,
                  results1)
        end
      end
  end.

(** The while loop of _energizationProbabilities, at most [rounds]
    rounds of it. *)
Fixpoint profile_loop (d : PolicyData) (nodeIndex : nat) (rounds : nat)
    (queue : list Item) (results : list (option R)) : Run (list (option R)) :=
  match queue with
  | [] => Some (Normal results)
  | it :: queue' =>
    match rounds with
    | 0 => None
    | S rounds' =>
      match profile_step d nodeIndex it queue' results with
      | Throw e => Some (Throw e)
      | Normal (queue1, results1) => profile_loop d nodeIndex rounds' queue1 results1
      end
    end
  end.

(** _energizationProbabilities(state0, nodeIndex) *)
Definition _energizationProbabilities (d : PolicyData) (rounds : nat)
    (state0 : Z) (nodeIndex : nat) : Run (list (option R)) :=
  profile_loop d nodeIndex rounds [mkItem state0 one 0] [Some zero].

(** energizationProbabilities(nodeIndex) *)
Definition energizationProbabilities (c : Cursor) (rounds : nat)
    (nodeIndex : nat) : Run (list (option R)) :=
  match state c with
  | Some st => _energizationProbabilities (data c) rounds st nodeIndex
  | None => Some (Throw TypeError)
  end.

(** [xs.map((x, i) => f(x, ys[i]))] *)
Definition map2U {A B C} (f : A -> option B -> C) (xs : list A) (ys : list B)
    : list C :=
  imap (fun i x => f x (ys !! i)) xs.

(** [x * y] and [x + y] where [y] may be [undefined]. *)
Definition mulU (x : R) (y : option R) : R :=
  match y with Some v => mul x v | None => nan end.
Definition plusU (x : R) (y : option R) : R :=
  match y with Some v => add x v | None => nan end.

(** The first map of _allEnergizationProb; [None] is [null]. *)
Definition known (snap : Snapshot) : list (option R) :=
  map (fun s : string =>
         if bool_decide (s = "D") then Some zero
         else if bool_decide (s ≠ "U") then Some one
         else None)
      snap.

(** [vec.map(s => s == null ? 0 : s)] *)
Definition settled (vec : list (option R)) : list R := map (default zero) vec.

(** [action.map(f)] for a callback that may throw or not return. *)
Fixpoint map_run {A B} (f : A -> Run B) (l : list A) : Run (list B) :=
  match l with
  | [] => Some (Normal [])
  | a :: l' =>
    match f a with
    | None => None
    | Some (Throw e) => Some (Throw e)
    | Some (Normal b) =>
      match map_run f l' with
      | None => None
      | Some (Throw e) => Some (Throw e)
      | Some (Normal bs) => Some (Normal (b :: bs))
      end
    end
  end.

(** _allEnergizationProb(state), recursion at most [depth] calls deep.
    The statement [if(a[0]-1 == state) vec.map(() => 0);] computes an
    array and drops it, so it leaves no trace here. *)
Fixpoint _allEnergizationProb (d : PolicyData) (depth : nat) (st : Z)
    : Run (list R) :=
  match depth with
  | 0 => None
  | S depth' =>
    match lookupZ (states d) st with
    | None => Some (Throw TypeError)
    | Some snap =>
      let vec := known snap in
      match transitions d !! st with
      | None => Some (Throw TypeError)
      | Some acts =>
        match getU acts (policy d !! st) with
        | None => Some (Normal (settled vec))
        | Some act =>
          if (length act =? 1) &&
             bool_decide ((fun a : Outcome => (fst a - 1)%Z) <$> act !! 0 = Some st)
          then Some (Normal (settled vec))
          else
            match
              map_run
                (fun a : Outcome =>
                   let mulv :=
                     map (fun s : option R =>
                            match s with None => snd a | Some x => mul (snd a) x end)
                         vec in
                   match _allEnergizationProb d depth' (fst a - 1)%Z with
                   | None => None
                   | Some (Throw e) => Some (Throw e)
                   | Some (Normal r) => Some (Normal (map2U mulU r mulv))
                   end)
                act
            with
            | None => None
            | Some (Throw e) => Some (Throw e)
            | Some (Normal vs) =>
              Some (Normal (foldl (map2U plusU) (map (fun _ => zero) vec) vs))
            end
        end
      end
    end
  end.

(** allEnergizationProb() and cumulativePfs() *)
Definition allEnergizationProb (c : Cursor) (depth : nat) : Run (list R) :=
  match state c with
  | Some st => _allEnergizationProb (data c) depth st
  | None => Some (Throw TypeError)
  end.

Definition cumulativePfs (c : Cursor) (depth : nat) : Run (list R) :=
  match allEnergizationProb c depth with
  | Some (Normal v) => Some (Normal (map (sub one) v))
  | r => r
  end.

(** *** The linear cursor (class LinearPolicy) *)

(** The while loop of getStepsFromPolicy, at most [rounds] rounds of it;
    it returns the final [current]. *)
Fixpoint steps_loop (rounds : nat) (current : Z) (c : Cursor)
    : option (completion Z * Cursor) :=
  if negb (current <? Z.of_nat (length (states (data c))))%Z
  then Some (Normal current, c)
  else
    match rounds with
    | 0 => None
    | S rounds' =>
      match transitions (data c) !! current with
      | None => Some (Throw TypeError, c)
      | Some acts =>
        let actNum := policy (data c) !! current in
        match getU acts actNum ≫= (fun act : Action => act !! 0) with
        | None => Some (Throw TypeError, c)
        | Some o =>
          let nxt := (fst o + ACTION_OFFSET)%Z in
          if (nxt =? current)%Z then Some (Normal current, c)
          else
            let c1 :=
              set_fullHistory
                (fullHistory c ++ [Some (mkEntry (Some current) actNum (Some 0))]) c in
            match lookupZ (states (data c)) nxt with
            | None => Some (Normal current, c1)
            | Some _ => steps_loop rounds' nxt (set_steps (steps c1 ++ [nxt]) c1)
            end
        end
      end
    end.

(** getStepsFromPolicy() *)
Definition getStepsFromPolicy (rounds : nat) (c : Cursor)
    : option (completion unit * Cursor) :=
  match steps_loop rounds 0 (set_fullHistory [] (set_steps [0%Z] c)) with
  | None => None
  | Some (Throw e, c') => Some (Throw e, c')
  | Some (Normal current, c') =>
    let c1 := set_steps (steps c' ++ [current]) c' in
    Some (Normal tt,
          set_fullHistory
            (fullHistory c1 ++ [mjoin (last (fullHistory c1))]) c1)
  end.

(** goTo(index) *)
Definition goTo (idx : nat) : M World unit :=
  (do! assign (set_index idx) in
   match idx with
   | 0 =>
     do! assign (set_previousStates []) in
     let! c := this in
     setState (steps c !! 0) None
   | S k =>
     do! assign (fun c => set_previousStates (take k (fullHistory c)) c) in
     let! c := this in
     setState (steps c !! k) (Some 0)
   end)%js.

(** The for loop of successProbability from position [i0] on, [p] being
    the product so far.  [node.status] is read only once the symbol is
    known to be an energized one. *)
Fixpoint success_loop (g : Graph.Graph (R := R)) (rest : Snapshot) (i0 : nat) (p : R)
    : completion R :=
  match rest with
  | [] => Normal p
  | status :: rest' =>
    if bool_decide (status ≠ "D") && bool_decide (status ≠ "U")
    then
      match Graph.nodes g !! i0 with
      | None => Throw TypeError
      | Some node =>
        if (Graph.status node =? 0)%Z
        then success_loop g rest' (S i0) (mul p (sub one (Graph.pf node)))
        else success_loop g rest' (S i0) p
      end
    else success_loop g rest' (S i0) p
  end.

(** successProbability(index) *)
Definition successProbability (c : Cursor) (g : Graph.Graph) (idx : nat)
    : completion R :=
  match stateAt (data c) (steps c !! idx) with
  | None => Throw TypeError
  | Some step => success_loop g step 0 one
  end.

(** The inner for loop of getActivationList: the nodes that are unknown
    in [lastStep] and no longer so in [step].  An element is the
    reference [this.graph.nodes[j]], here the position with the node's
    contents, [None] where there is no such node.  [lastStep = None] is
    an [undefined] state, which the first round of the loop indexes. *)
Definition energizedNodes (g : Graph.Graph (R := R)) (lastStep : option Snapshot)
    (step : Snapshot) : completion (list (option (nat * Graph.Node (R := R)))) :=
  match lastStep with
  | None => match step with [] => Normal [] | _ => Throw TypeError end
  | Some ls =>
    Normal
      (flat_map
         (fun j =>
            if bool_decide (ls !! j = Some "U") && negb (bool_decide (step !! j = Some "U"))
            then [(fun n => (j, n)) <$> Graph.nodes g !! j]
            else [])
         (seq 0 (length step)))
  end.

(** The outer for loop of getActivationList over [steps[1..]]. *)
Fixpoint activation_loop (d : PolicyData) (g : Graph.Graph (R := R))
    (lastStep : option Snapshot) (rest : list Z)
    : completion (list (option (list (option (nat * Graph.Node (R := R)))))) :=
  match rest with
  | [] => Normal []
  | s :: rest' =>
    match lookupZ (states d) s with
    | None => Throw TypeError
    | Some step =>
      match energizedNodes g lastStep step with
      | Throw e => Throw e
      | Normal ns =>
        match activation_loop d g (Some step) rest' with
        | Throw e => Throw e
        | Normal out => Normal (Some ns :: out)
        end
      end
    end
  end.

(** getActivationList(); the first entry is [null]. *)
Definition getActivationList (c : Cursor) (g : Graph.Graph (R := R))
    : completion (list (option (list (option (nat * Graph.Node (R := R)))))) :=
  match
    activation_loop (data c) g (stateAt (data c) (steps c !! 0)) (drop 1 (steps c))
  with
  | Throw e => Throw e
  | Normal out => Normal (None :: out)
  end.

(** currentSuccessProbability(); [Normal None] is [null]. *)
Definition currentSuccessProbability (c : Cursor) : completion (option R) :=
  if (index c =? 0) ||
     (Z.of_nat (index c) =? Z.of_nat (length (steps c)) - 1)%Z
  then Normal None
  else
    match action c ≫= (fun act : Action => act !! 0) with
    | None => Throw TypeError
    | Some o => Normal (Some (snd o))
    end.

(** new LinearPolicy(graph, policy): the constructor of the base class,
    then updateSteps(), that is getStepsFromPolicy() and goTo(0). *)
Definition new_LinearPolicy (rounds : nat) (d : PolicyData) (g : Graph.Graph)
    : option (completion unit * World) :=
  match new_InteractivePolicy d g with
  | (Throw e, w) => Some (Throw e, w)
  | (Normal _, (c, g1)) =>
    match getStepsFromPolicy rounds c with
    | None => None
    | Some (Throw e, c1) => Some (Throw e, (c1, g1))
    | Some (Normal _, c1) => Some (goTo 0 (c1, g1))
    end
  end.

(** *** The quantities as the specification words them *)

(** The product, in node order, of the survival factors [1 - pf] of the
    nodes that [selected] picks among the pairs of a symbol of [step] and
    the node at its position. *)
Definition survival_product (g : Graph.Graph (R := R)) (step : Snapshot)
    (selected : string -> Graph.Node (R := R) -> bool) : R :=
  foldl (fun p (sn : string * Graph.Node) => mul p (sub one (Graph.pf (snd sn))))
    one
    (List.filter (fun sn : string * Graph.Node => selected (fst sn) (snd sn))
       (zip step (Graph.nodes g))).

(** "the nodes whose status symbol is Unknown in the state at step i" *)
Definition unknown_in_step (sym : string) (_ : Graph.Node (R := R)) : bool :=
  bool_decide (sym = "U").

(** The nodes successProbability takes a factor from: energized in the
    state at the step, unknown in the graph as it stands. *)
Definition energized_in_step_unknown_in_graph (sym : string)
    (node : Graph.Node (R := R)) : bool :=
  bool_decide (sym <> "D") && bool_decide (sym <> "U") &&
  (Graph.status node =? 0)%Z.

(** "its action is a sole self-loop" *)
Definition sole_self_loop (act : Action) (s : Z) : bool :=
  match act with
  | [(t, _)] => (t =? s)%Z
  | _ => false
  end.

(** The depth-bounded energization probability as the specification
    defines it, an outcome [[k, p]] leading to state [k] as it does for
    the cursor. *)
Fixpoint P_spec (d : PolicyData) (s : Z) (n : nat) (depth : nat) : R :=
  let sym := stateAt d (Some s) ≫= (fun snap : Snapshot => snap !! n) in
  match depth with
  | 0 => if isD sym || isU sym then zero else one
  | S depth' =>
    if isD sym then zero
    else if negb (isU sym) then one
    else
      match transitions d !! s ≫= (fun acts => getU acts (policy d !! s)) with
      | None => zero
      | Some act =>
        if sole_self_loop act s then zero
        else
          sum (map (fun o : Outcome =>
                      if (fst o =? s)%Z then zero
                      else mul (snd o) (P_spec d (fst o) n depth'))
                   act)
      end
  end.

(** The table as the probability queries read it: every outcome [[k, p]]
    taken to lead to state [k - 1]. *)
Definition one_based (d : PolicyData) : PolicyData :=
  mkPolicyData (states d)
    ((fun acts : gmap Z Action =>
        map (fun o : Outcome => ((fst o - 1)%Z, snd o)) <$> acts)
       <$> transitions d)
    (policy d).

End WithNum.

Abbreviation Action := (list Outcome).

End Policy.

(** ** The baseline policy (class TrivialPolicy) *)

Module Trivial.
Section WithNum.
Context {R : Type}.

(** [steps[i].nodes] is an array of node objects of the graph, each named
    here by its position in [this.graph.nodes]; [steps[0]] is [null]. *)
Record TrivialPolicy : Type := mkTrivial {
  steps : list (option (list nat));
  index : nat
}.

Definition World : Type := TrivialPolicy * Graph.Graph (R := R).

(** [grph.nodes.filter(node => node.status == 0)] *)
Definition unknown (g : Graph.Graph (R := R)) : list nat :=
  filter (fun j => Graph.status <$> Graph.nodes g !! j = Some 0%Z)
    (seq 0 (length (Graph.nodes g))).

(** The while loop of trivialPolicy.  [rolls] holds the successive values
    of [Math.ceil(Math.random()*3)]; [None] when they run out before the
    nodes do. *)
Fixpoint chunks (rolls : list nat) (nodesToActivate : list nat)
    : option (list (list nat)) :=
  match nodesToActivate with
  | [] => Some []
  | _ :: _ =>
    match rolls with
    | [] => None
    | r :: rolls' =>
      let nextNodes := Nat.min (length nodesToActivate) r in
      match chunks rolls' (drop nextNodes nodesToActivate) with
      | None => None
      | Some cs => Some (take nextNodes nodesToActivate :: cs)
      end
    end
  end.

(** trivialPolicy(grph) *)
Definition trivialPolicy (rolls : list nat) (g : Graph.Graph (R := R))
    : option TrivialPolicy :=
  match chunks rolls (unknown g) with
  | None => None
  | Some cs => Some (mkTrivial (None :: (Some <$> cs)) 0)
  end.

(** [nodes.forEach(node => node.status = v)] *)
Definition set_all (v : Z) (ns : list nat) (g : Graph.Graph (R := R))
    : Graph.Graph (R := R) :=
  Graph.set_nodes
    (foldl (fun l j => alter (Graph.set_status v) j l) (Graph.nodes g) ns) g.

(** The for loop of goTo from position [i] on; [steps[i].nodes] throws on
    a [null] step. *)
Fixpoint goTo_loop (idx i : nat) (rest : list (option (list nat)))
    (g : Graph.Graph (R := R)) : completion unit * Graph.Graph (R := R) :=
  match rest with
  | [] => (Normal tt, g)
  | None :: _ => (Throw TypeError, g)
  | Some ns :: rest' =>
    goTo_loop idx (S i) rest' (set_all (if i <=? idx then 1%Z else 0%Z) ns g)
  end.

(** goTo(index) *)
Definition goTo (idx : nat) : M World unit :=
  fun w =>
    let '(r, g') := goTo_loop idx 1 (drop 1 (steps (fst w))) (snd w) in
    (r, (mkTrivial (steps (fst w)) idx, g')).

End WithNum.
End Trivial.

(** ** Editing the network (Graph.addBranch, Graph.removeElement) *)

Module Editor.
Section WithObjects.
(** The node objects and the resource objects. *)
Context {N S : Type}.

(** A branch as addBranch creates it: the positions of its two nodes in
    [this.nodes], either of them -1 when indexOf did not find the node. *)
Record Branch : Type := mkBranch { bnodes : Z * Z; status : Z }.

(** An external branch as addExternalBranch creates it; [source = None]
    is [null]. *)
Record ExternalBranch : Type := mkExternal {
  source : option Z;
  node : Z;
  xstatus : Z
}.

Record Graph : Type := mkGraph {
  nodes : list N;
  resources : list S;
  branches : list Branch;
  externalBranches : list ExternalBranch
}.

(** [victim.type], with the position at which indexOf finds
    [victim.data] in the array of that type, -1 when it is not there. *)
Inductive Victim : Type :=
| node_at (i : Z)
| resource_at (i : Z)
| branch_at (i : Z)
| externalBranch_at (i : Z)
| other.

(** [l.splice(i, 1)]: a negative [i] counts from the end. *)
Definition splice1 {A} (i : Z) (l : list A) : list A :=
  let len := Z.of_nat (length l) in
  let start := if (i <? 0)%Z then Z.max (len + i) 0 else Z.min i len in
  delete (Z.to_nat start) l.

(** addBranch(source, target), the two nodes given by their positions *)
Definition addBranch (i0 i1 : Z) (g : Graph) : Graph :=
  mkGraph (nodes g) (resources g) (branches g ++ [mkBranch (i0, i1) 0])
    (externalBranches g).

(** [n > i ? n-1 : n] *)
Definition shift (i n : Z) : Z := if (n >? i)%Z then (n - 1)%Z else n.

(** The two forEach bodies on [b.source] in the case "resource";
    [null > i] compares 0 with [i], and [null--] leaves -1. *)
Definition shift_source (i : Z) (b : ExternalBranch) : ExternalBranch :=
  match source b with
  | Some s =>
    if (s =? i)%Z
    then mkExternal None (node b) (if (xstatus b =? 1)%Z then 0%Z else xstatus b)
    else if (s >? i)%Z then mkExternal (Some (s - 1)%Z) (node b) (xstatus b)
    else b
  | None =>
    if (0 >? i)%Z then mkExternal (Some (-1)%Z) (node b) (xstatus b) else b
  end.

(** removeElement(victim); the result is the returned boolean and the
    graph the call leaves.  In the case "resource" the loop over
    [this.branches] reads a field [source] that branches do not have and
    changes nothing. *)
Definition removeElement (victim : Victim) (g : Graph) : bool * Graph :=
  match victim with
  | node_at i =>
    (true,
     mkGraph
       (splice1 i (nodes g))
       (resources g)
       (map (fun b => mkBranch (shift i (fst (bnodes b)), shift i (snd (bnodes b)))
                        (status b))
          (List.filter
             (fun b => negb ((fst (bnodes b) =? i)%Z || (snd (bnodes b) =? i)%Z))
             (branches g)))
       (map (fun b => if (node b >? i)%Z
                      then mkExternal (source b) (node b - 1)%Z (xstatus b)
                      else b)
          (List.filter (fun b => negb (node b =? i)%Z) (externalBranches g))))
  | resource_at i =>
    (true,
     mkGraph
       (nodes g)
       (splice1 i (resources g))
       (branches g)
       (map (shift_source i)
          (List.filter (fun b => negb (bool_decide (source b = Some i)))
             (externalBranches g))))
  | branch_at i =>
    (true,
     mkGraph (nodes g) (resources g) (splice1 i (branches g)) (externalBranches g))
  | externalBranch_at i =>
    (true,
     mkGraph (nodes g) (resources g) (branches g) (splice1 i (externalBranches g)))
  | other => (false, g)
  end.

End WithObjects.
End Editor.

(** * Predicates of the statements *)

Section Predicates.
Context {R : Type} `{NumOrder R}.
Implicit Types (c : Policy.Cursor (R := R)) (g : Graph.Graph (R := R)).
Implicit Types (d : Policy.PolicyData (R := R)) (rs : list R).

Import Policy.

(** A snapshot that is an array of [n] symbols. *)
Definition fits (n : nat) (s : option Snapshot) : Prop :=
  exists st, s = Some st /\ length st = n.

(** A snapshot that is an array of some other length than [n]. *)
Definition misfits (n : nat) (s : option Snapshot) : Prop :=
  exists st, s = Some st /\ length st <> n.

(** The fields a call of setAction, setNext or setState never writes. *)
Definition same_frame c c' : Prop :=
  data c' = data c /\ previousStates c' = previousStates c /\
  steps c' = steps c /\ fullHistory c' = fullHistory c /\ index c' = index c.

(** The condition of the specification for the ended flag: the action is
    absent, or it has exactly one outcome and that outcome leads back to
    the current state. *)
Definition ends_here (act : option (list (Outcome (R := R)))) (st : option Z) : Prop :=
  act = None \/ exists t p, act = Some [(t, p)] /\ Some t = st.

(** What setState and setAction establish between the fields. *)
Definition coherent c : Prop :=
  actions c = getU (transitions (data c)) (state c) /\
  action c = actions c ≫= (fun acts => getU acts (actionNum c)) /\
  ended c = end_of (action c) (state c).

(** Entry [j] of the history is the record of leaving [steps[j]] by the
    first outcome. *)
Definition aligned (stps : list Z) (fh : list (option (HistoryEntry))) : Prop :=
  forall j, j < length fh ->
    exists sj a, stps !! j = Some sj /\
                 fh !! j = Some (Some (mkEntry (Some sj) a (Some 0))).

(** Where node [n] is unknown the state has a table of actions, and its
    policy action has at most [B] outcomes, each leading back to the state
    or to an existing state of smaller rank (outcome [[k, p]] being read
    as state [k - 1], as the loop reads it). *)
Definition descends d (n : nat) (rank : Z -> nat) (B : nat) : Prop :=
  forall st, symbol d st n = Some (Some "U") ->
    exists acts : gmap Z Action, transitions d !! st = Some acts /\
      forall act : Action, getU acts (policy d !! st) = Some act ->
        length act <= B /\
        Forall
          (fun a : Outcome =>
             (fst a - 1)%Z = st \/
             (is_Some (lookupZ (states d) (fst a - 1)) /\
              rank (fst a - 1)%Z < rank st))
          act.

(** The rounds an item can still cause. *)
Definition weight (rank : Z -> nat) (B : nat) (it : Item (R := R)) : nat :=
  S B ^ rank (q_state it).

Definition queue_weight (rank : Z -> nat) (B : nat) (queue : list (Item (R := R)))
    : nat :=
  foldr (fun it acc => weight rank B it + acc) 0 queue.

(** Every entry is at least the entry before it. *)
Definition nondecreasing rs : Prop :=
  forall k x y, rs !! k = Some x -> rs !! S k = Some y -> le x y.

(** Every outcome probability of the transition table is a number that
    is at least zero. *)
Definition nonneg_policy d : Prop :=
  map_Forall
    (fun _ acts =>
       map_Forall
         (fun _ (act : Action) => Forall (fun o : Outcome => le zero (snd o)) act)
         acts)
    (transitions d).

(** Every outcome probability of the transition table is a probability,
    a number between zero and one. *)
Definition unit_policy d : Prop :=
  map_Forall
    (fun _ acts =>
       map_Forall
         (fun _ (act : Action) =>
            Forall (fun o : Outcome => le zero (snd o) /\ le (snd o) one) act)
         acts)
    (transitions d).

(** The invariant of the while loop once the first round is over: the
    queue holds the rest of the level being accumulated, then the items of
    the next level, each with a probability between zero and one; the
    results so far are at least zero and nondecreasing. *)
Record profile_inv (queue : list Item) rs : Prop := {
  inv_split :
    exists q1 q2, queue = q1 ++ q2 /\
      Forall (fun it => S (q_depth it) = length rs) q1 /\
      Forall (fun it => q_depth it = length rs) q2;
  inv_length : 1 <= length rs;
  inv_depth : Forall (fun it => 1 <= q_depth it) queue;
  inv_p : Forall (fun it => le zero (q_p it) /\ le (q_p it) one) queue;
  inv_mono : nondecreasing rs;
  inv_num : Forall (fun x => le zero x) rs
}.

End Predicates.

(** * Predicates of the further properties *)

(** The status a node has after two successive calls of _setState, on a
    snapshot in which its symbol is [sp] and then on one in which it is
    [sc]. *)
Definition final_status (sp sc : string) : Z :=
  if bool_decide (sc = "D") then (-1)%Z
  else if bool_decide (sc = "U") then 0%Z
  else if bool_decide (sp = "D") || bool_decide (sp = "U") then 2%Z
  else 1%Z.

(** The same line between the same two nodes, possibly turned around. *)
Definition same_line (b b' : Graph.Branch) : Prop :=
  Graph.bnodes b' = Graph.bnodes b \/
  Graph.bnodes b' = (snd (Graph.bnodes b), fst (Graph.bnodes b)).

(** [prev] and [cur] are successive snapshots of [hist]. *)
Definition adjacent (hist : list (option Snapshot)) (prev cur : Snapshot) : Prop :=
  exists l1 l2, hist = l1 ++ Some prev :: Some cur :: l2.

(** [prev] and [cur] are the last two snapshots of [hist]. *)
Definition last_two (hist : list (option Snapshot)) (prev cur : Snapshot) : Prop :=
  exists l1, hist = l1 ++ [Some prev; Some cur].

(** Between [prev] and [cur] node [tgt] changed to a symbol other than
    "D", the symbol node [src] had in [prev]. *)
Definition justified (prev cur : Snapshot) (src tgt : nat) : Prop :=
  is_Some (cur !! tgt) /\ cur !! tgt <> Some "D" /\
  prev !! tgt <> cur !! tgt /\ prev !! src = cur !! tgt.

(** Every pair of successive snapshots met when the replay goes on from
    [ls] through [hist] satisfies [Q]. *)
Fixpoint chain (Q : Snapshot -> Snapshot -> Prop) (ls : option Snapshot)
    (hist : list (option Snapshot)) : Prop :=
  match hist with
  | Some s :: rest =>
    match ls with Some p => Q p s | None => True end /\ chain Q (Some s) rest
  | _ => True
  end.

(** [lastState] once the replay has gone through [hist]. *)
Definition state_after (ls : option Snapshot) (hist : list (option Snapshot))
    : option Snapshot :=
  foldl (fun acc s => match s with Some x => Some x | None => acc end) ls hist.

(** The same nodes with the same failure probabilities, and the same
    lines between them. *)
Definition same_network {R} (g g' : Graph.Graph (R := R)) : Prop :=
  length (Graph.nodes g') = length (Graph.nodes g) /\
  Graph.pf <$> Graph.nodes g' = Graph.pf <$> Graph.nodes g /\
  Forall2 same_line (Graph.branches g) (Graph.branches g').

(** The directions some pair of successive snapshots of [hist]
    justifies. *)
Definition justified_in (hist : list (option Snapshot)) (st : nat * nat) : Prop :=
  exists prev cur, adjacent hist prev cur /\ justified prev cur (fst st) (snd st).

(** Every energized line of [g] points in a direction [J] accepts. *)
Definition directed {R} (J : nat * nat -> Prop) (g : Graph.Graph (R := R)) : Prop :=
  forall k b, Graph.branches g !! k = Some b -> Graph.energized b <> 0%Z ->
    J (Graph.bnodes b).

(** Every line recorded in [lastEnergizedBranches] points in a direction
    [J] accepts. *)
Definition recorded {R} (J : nat * nat -> Prop)
    (gl : Graph.Graph (R := R) * list nat) : Prop :=
  Forall (fun k => forall b, Graph.branches (fst gl) !! k = Some b ->
                     J (Graph.bnodes b))
    (snd gl).

(** The first potential of an entry of [diffs] gives a direction [J]
    accepts. *)
Definition diff_ok (J : nat * nat -> Prop) (d : Graph.Diff) : Prop :=
  forall src, Graph.potentials d !! 0 = Some src -> J (src, Graph.i d).

(** The invariant of the replay on nodes and lines: the network stays
    the same and, before the final marking pass, every flag is 0 or 1. *)
Definition wired {R} (g0 g : Graph.Graph (R := R)) : Prop :=
  same_network g0 g /\
  Forall (fun b => Graph.energized b = 0%Z \/ Graph.energized b = 1%Z)
    (Graph.branches g).

Section LinearPredicates.
Context {R : Type} `{Num R}.
Import Policy.

(** The first outcome of the action the policy recommends in state
    [s]. *)
Definition first_outcome (d : PolicyData (R := R)) (s : Z) : option Outcome :=
  transitions d !! s ≫=
    (fun acts : gmap Z Action =>
       getU acts (policy d !! s) ≫= (fun act : Action => act !! 0)).

(** From [s] the first outcomes lead through the states [l], each an
    existing state other than the one before it. *)
Fixpoint best_case (d : PolicyData (R := R)) (s : Z) (l : list Z) : Prop :=
  match l with
  | [] => True
  | t :: l' =>
    (s < Z.of_nat (length (states d)))%Z /\
    (exists o, first_outcome d s = Some o /\ fst o = t) /\
    t <> s /\ is_Some (lookupZ (states d) t) /\
    best_case d t l'
  end.

(** The path stops at [s]: [s] is past the end of the states, or its
    first outcome leads back to [s] or to no state. *)
Definition path_stop (d : PolicyData (R := R)) (s : Z) : Prop :=
  ~ (s < Z.of_nat (length (states d)))%Z \/
  exists o, first_outcome d s = Some o /\
            (fst o = s \/ lookupZ (states d) (fst o) = None).

(** The cursor setState leaves, whether or not it throws. *)
Definition after_setState (st : option Z) (nxt : option nat) (c : Cursor (R := R))
    : Cursor (R := R) :=
  let a := getU (policy (data c)) st in
  let c1 := set_actions (getU (transitions (data c)) st) (set_state st c) in
  match getU (transitions (data c)) st with
  | None => set_actionNum a c1
  | Some acts =>
    let c2 := set_ended (end_of (getU acts a) st)
                (set_action (getU acts a) (set_actionNum a c1)) in
    match nxt, ended c2 with
    | Some i, false => set_next (Some i) c2
    | _, _ => c2
    end
  end.

End LinearPredicates.

Section BoundPredicates.
Context {R : Type} `{NumOrder R}.
Import Policy.

(** The outcome probabilities of every action add up to at most one. *)
Definition substochastic (d : PolicyData (R := R)) : Prop :=
  map_Forall
    (fun _ acts =>
       map_Forall
         (fun _ (act : Action) => le (sum (map snd act)) one)
         acts)
    (transitions d).

End BoundPredicates.

Section ExactPredicates.
Context {R : Type} `{NumExact R}.
Import Policy.

(** Every outcome probability of the transition table is a number. *)
Definition finite_policy (d : PolicyData (R := R)) : Prop :=
  map_Forall
    (fun _ acts =>
       map_Forall
         (fun _ (act : Action) => Forall (fun o : Outcome => number (snd o)) act)
         acts)
    (transitions d).

(** The value of the recursive query, zero where it throws. *)
Definition value_at (d : PolicyData (R := R)) (n : nat) (st : Z) (k : nat) : R :=
  match _energizationProbability d st n k with
  | Normal x => x
  | Throw _ => zero
  end.

(** What a queued item will have added to entry [k] of the results when
    the loop is over. *)
Definition term (d : PolicyData (R := R)) (n k : nat) (it : Item (R := R)) : R :=
  if q_depth it <=? k
  then mul (q_p it) (value_at d n (q_state it) (k - q_depth it))
  else zero.

Definition pending (d : PolicyData (R := R)) (n k : nat)
    (queue : list (Item (R := R))) : R :=
  foldr (fun it acc => add (term d n k it) acc) zero queue.

(** Entry [k] of the results, the last entry when [k] is past the end. *)
Definition entry (rs : list R) (k : nat) : R :=
  default zero (rs !! Nat.min k (length rs - 1)).

(** The queue holds the rest of the level being accumulated, then the
    items of the next level, and every probability in it is a number. *)
Definition levels (queue : list (Item (R := R))) (rs : list R) : Prop :=
  (exists q1 q2, queue = q1 ++ q2 /\
     Forall (fun it => S (q_depth it) = length rs) q1 /\
     Forall (fun it => q_depth it = length rs) q2) /\
  1 <= length rs /\
  Forall (fun it => number (q_p it)) queue.

(** The recursive query returns from the state of the item at every
    depth. *)
Definition returns (d : PolicyData (R := R)) (n : nat) (it : Item (R := R)) : Prop :=
  forall k, exists x, _energizationProbability d (q_state it) n k = Normal x.

(** The summand of an outcome in the recursive query at depth [j + 1]. *)
Definition summand (d : PolicyData (R := R)) (n : nat) (st : Z) (j : nat) (a : Outcome (R := R)) : R :=
  if (fst a - 1 =? st)%Z then zero
  else mul (snd a) (value_at d n (fst a - 1) j).

End ExactPredicates.

Section EditorPredicates.
Context {N S : Type}.

(** Every endpoint of every branch, and the node of every external
    branch, is the position of a node. *)
Definition endpoints_ok (g : Editor.Graph (N := N) (S := S)) : Prop :=
  Forall
    (fun b => (0 <= fst (Editor.bnodes b) < Z.of_nat (length (Editor.nodes g)))%Z /\
              (0 <= snd (Editor.bnodes b) < Z.of_nat (length (Editor.nodes g)))%Z)
    (Editor.branches g) /\
  Forall
    (fun b => (0 <= Editor.node b < Z.of_nat (length (Editor.nodes g)))%Z)
    (Editor.externalBranches g).

(** The node object at position [n], [None] where there is none. *)
Definition node_obj (g : Editor.Graph (N := N) (S := S)) (n : Z) : option N :=
  lookupZ (Editor.nodes g) n.

End EditorPredicates.

(** * Concrete inputs *)

(** A graph of one node, unknown, with failure probability 1/2. *)
Definition graph1 : Graph.Graph (R := float) :=
  Graph.mkGraph [Graph.mkNode 0 0.5%float] [].

(** A graph of two nodes joined by a branch, as a completed setState on
    the history U,U / E,U / E,E leaves it. *)
Definition graph2 : Graph.Graph (R := float) :=
  Graph.mkGraph
    [Graph.mkNode 1 0.5%float; Graph.mkNode 2 0.5%float]
    [Graph.mkBranch (0, 1) 2].

(** One node; state 0 (unknown) leads to state 1 (energized) with
    probability 1/2 and back to itself with probability 1/2; state 1 only
    leads to itself.  State indices count from 0 as the cursor reads
    them. *)
Definition policy_a : Policy.PolicyData (R := float) :=
  Policy.mkPolicyData
    [["U"]; ["TG1"]]
    {[ 0%Z := {[ 0%Z := [(1%Z, 0.5%float); (0%Z, 0.5%float)] ]};
       1%Z := {[ 0%Z := [(1%Z, 1%float)] ]} ]}
    {[ 0%Z := 0%Z; 1%Z := 0%Z ]}.

(** One node; state 0 (unknown) leads to state 1 (energized) for sure;
    state 1 only leads to itself. *)
Definition policy_b : Policy.PolicyData (R := float) :=
  Policy.mkPolicyData
    [["U"]; ["TG1"]]
    {[ 0%Z := {[ 0%Z := [(1%Z, 1%float)] ]};
       1%Z := {[ 0%Z := [(1%Z, 1%float)] ]} ]}
    {[ 0%Z := 0%Z; 1%Z := 0%Z ]}.

(** One node; the only state is unknown and only leads to itself. *)
Definition policy_loop : Policy.PolicyData (R := float) :=
  Policy.mkPolicyData
    [["U"]]
    {[ 0%Z := {[ 0%Z := [(0%Z, 1%float)] ]} ]}
    {[ 0%Z := 0%Z ]}.

(** A table whose state indices count from 1, which is how the
    probability queries read a table: from state 0 (unknown) the action
    leads back to state 0 (outcome [[1, 0.5]]) or on to state 1, where
    the node is energized (outcome [[2, 0.5]]). *)
Definition policy_one_based : Policy.PolicyData (R := float) :=
  Policy.mkPolicyData
    [["U"]; ["TG1"]]
    {[ 0%Z := {[ 0%Z := [(1%Z, 0.5%float); (2%Z, 0.5%float)] ]};
       1%Z := {[ 0%Z := [(2%Z, 1%float)] ]} ]}
    {[ 0%Z := 0%Z; 1%Z := 0%Z ]}.

(** The same over exact rationals, for the bounds of exact
    arithmetic. *)
Definition policy_q : Policy.PolicyData (R := qnum) :=
  Policy.mkPolicyData
    [["U"]; ["TG1"]]
    {[ 0%Z := {[ 0%Z := [(1%Z, QFin (1 # 2)); (2%Z, QFin (1 # 2))] ]};
       1%Z := {[ 0%Z := [(2%Z, QFin 1)] ]} ]}
    {[ 0%Z := 0%Z; 1%Z := 0%Z ]}.

(** The interactive cursor new InteractivePolicy builds on [policy_a] and
    [graph1], and the graph it leaves. *)
Definition cursor_a : Policy.Cursor (R := float) :=
  fst (snd (Policy.new_InteractivePolicy policy_a graph1)).
Definition graph_a : Graph.Graph (R := float) :=
  snd (snd (Policy.new_InteractivePolicy policy_a graph1)).

(** [cursor_a] after getStepsFromPolicy. *)
Definition cursor_a_steps : Policy.Cursor (R := float) :=
  match Policy.getStepsFromPolicy 3 cursor_a with
  | Some (_, c) => c
  | None => cursor_a
  end.

(** The linear cursor new LinearPolicy builds on [policy_loop] and
    [graph1], and the graph it leaves. *)
Definition cursor_loop : Policy.Cursor (R := float) :=
  match Policy.new_LinearPolicy 3 policy_loop graph1 with
  | Some (_, (c, _)) => c
  | None => Policy.blank policy_loop
  end.
Definition graph_loop : Graph.Graph (R := float) :=
  match Policy.new_LinearPolicy 3 policy_loop graph1 with
  | Some (_, (_, g)) => g
  | None => graph1
  end.

(** A cursor on [policy_one_based] at state 0. *)
Definition cursor_one_based : Policy.Cursor (R := float) :=
  Policy.set_state (Some 0%Z) (Policy.blank policy_one_based).

(** Two unknown nodes joined by a line recorded from node 1 to node 0. *)
Definition graph_rev : Graph.Graph (R := float) :=
  Graph.mkGraph
    [Graph.mkNode 0 0.25%float; Graph.mkNode 0 0.5%float]
    [Graph.mkBranch (1, 0) 0].

(** Node 0 is energized; then node 1 is, too. *)
Definition hist_rev : list (option Snapshot) :=
  [Some ["TG1"; "U"]; Some ["TG1"; "TG1"]].

(** One node; state 0 has a table of actions, and the policy recommends
    none of them. *)
Definition policy_none : Policy.PolicyData (R := float) :=
  Policy.mkPolicyData
    [["U"]]
    {[ 0%Z := {[ 0%Z := [(0%Z, 1%float)] ]} ]}
    ∅.

Definition cursor_none : Policy.Cursor (R := float) :=
  fst (snd (Policy.new_InteractivePolicy policy_none graph1)).
Definition graph_none : Graph.Graph (R := float) :=
  snd (snd (Policy.new_InteractivePolicy policy_none graph1)).

(** [cursor_a] after nextState, and the graph the call leaves. *)
Definition cursor_a_next : Policy.Cursor (R := float) :=
  fst (snd (Policy.nextState (cursor_a, graph_a))).
Definition graph_a_next : Graph.Graph (R := float) :=
  snd (snd (Policy.nextState (cursor_a, graph_a))).

(** Two states whose first outcomes lead to each other. *)
Definition policy_cycle : Policy.PolicyData (R := float) :=
  Policy.mkPolicyData
    [["U"]; ["U"]]
    {[ 0%Z := {[ 0%Z := [(1%Z, 1%float)] ]};
       1%Z := {[ 0%Z := [(0%Z, 1%float)] ]} ]}
    {[ 0%Z := 0%Z; 1%Z := 0%Z ]}.

(** One node; state 0 (unknown) leads to state 1, where the node is
    damaged; state 1 only leads to itself. *)
Definition policy_d : Policy.PolicyData (R := float) :=
  Policy.mkPolicyData
    [["U"]; ["D"]]
    {[ 0%Z := {[ 0%Z := [(1%Z, 1%float)] ]};
       1%Z := {[ 0%Z := [(1%Z, 1%float)] ]} ]}
    {[ 0%Z := 0%Z; 1%Z := 0%Z ]}.

(** A cursor on [policy_d] with the steps getStepsFromPolicy computes. *)
Definition cursor_d : Policy.Cursor (R := float) :=
  match Policy.getStepsFromPolicy 3 (Policy.blank policy_d) with
  | Some (_, c) => c
  | None => Policy.blank policy_d
  end.

(** Three nodes, the second of them damaged, no line. *)
Definition graph3 : Graph.Graph (R := float) :=
  Graph.mkGraph
    [Graph.mkNode 0 0.25%float; Graph.mkNode (-1) 0.5%float; Graph.mkNode 0 0.75%float]
    [].

(** Three nodes in a row, joined by two branches. *)
Definition editor3 : Editor.Graph (N := string) (S := string) :=
  Editor.mkGraph ["a"; "b"; "c"] []
    [Editor.mkBranch (0%Z, 1%Z) 0; Editor.mkBranch (1%Z, 2%Z) 0] [].

(** [policy_q] over canonical rationals. *)
Definition policy_qc : Policy.PolicyData (R := qcnum) :=
  Policy.mkPolicyData
    [["U"]; ["TG1"]]
    {[ 0%Z := {[ 0%Z := [(1%Z, QcFin (Q2Qc (1 # 2))); (2%Z, QcFin (Q2Qc (1 # 2)))] ]};
       1%Z := {[ 0%Z := [(2%Z, QcFin 1%Qc)] ]} ]}
    {[ 0%Z := 0%Z; 1%Z := 0%Z ]}.

Definition cursor_qc : Policy.Cursor (R := qcnum) :=
  Policy.set_state (Some 0%Z) (Policy.blank policy_qc).

(** Two nodes.  From state 0 (both unknown) the action leads back to
    state 0 or on to state 1 (node 0 energized), each with probability
    1/2; state 1 leads to state 2 (both energized), which only leads to
    itself. *)
Definition policy_try : Policy.PolicyData (R := float) :=
  Policy.mkPolicyData
    [["U"; "U"]; ["TG1"; "U"]; ["TG1"; "TG1"]]
    {[ 0%Z := {[ 0%Z := [(0%Z, 0.5%float); (1%Z, 0.5%float)] ]};
       1%Z := {[ 0%Z := [(2%Z, 1%float)] ]};
       2%Z := {[ 0%Z := [(2%Z, 1%float)] ]} ]}
    {[ 0%Z := 0%Z; 1%Z := 0%Z; 2%Z := 0%Z ]}.

(** The same states under a policy in which the action of state 0 only
    leads back to state 0. *)
Definition policy_stuck : Policy.PolicyData (R := float) :=
  Policy.mkPolicyData
    [["U"; "U"]; ["TG1"; "U"]; ["TG1"; "TG1"]]
    {[ 0%Z := {[ 0%Z := [(0%Z, 1%float)] ]};
       1%Z := {[ 0%Z := [(2%Z, 1%float)] ]};
       2%Z := {[ 0%Z := [(2%Z, 1%float)] ]} ]}
    {[ 0%Z := 0%Z; 1%Z := 0%Z; 2%Z := 0%Z ]}.

(** The store after [new InteractivePolicy(graph, policy_try)] on
    [graph2] and update(policy_stuck), and the store after a following
    setNext(1). *)
Definition world_updated : Policy.World (R := float) :=
  snd (Policy.update policy_stuck (Some 0)
         (snd (Policy.new_InteractivePolicy policy_try graph2))).
Definition world_chosen : Policy.World (R := float) :=
  snd (Policy.setNext 1 world_updated).

(** One node; state 1, where the node is energized, has no table of
    actions. *)
Definition policy_open : Policy.PolicyData (R := float) :=
  Policy.mkPolicyData
    [["U"]; ["TG1"]]
    {[ 0%Z := {[ 0%Z := [(1%Z, 1%float)] ]} ]}
    {[ 0%Z := 0%Z ]}.

Definition world_open : Policy.World (R := float) :=
  snd (Policy.new_InteractivePolicy policy_open graph1).

(** * Properties *)

(** ** The store-passing monad *)

Lemma bind_normal {S A B} (m : M S A) (k : A -> M S B) s a s' :
  m s = (Normal a, s') -> bind m k s = k a s'.
Proof. unfold bind. intros ->. reflexivity. Qed.

Lemma bind_throw {S A B} (m : M S A) (k : A -> M S B) s e s' :
  m s = (Throw e, s') -> bind m k s = (Throw e, s').
Proof. unfold bind. intros ->. reflexivity. Qed.

(** ** Graph.setState *)

Section GraphProperties.
Context {R : Type}.
Implicit Types (g : Graph.Graph (R := R)) (hist : list (option Snapshot)).

Lemma _setState_mismatch g st :
  length st <> length (Graph.nodes g) ->
  Graph._setState st g =
    (Throw (Error (Graph.length_message (length (Graph.nodes g)))), g).
Proof.
  intros Hne. unfold Graph._setState.
  rewrite bool_decide_eq_true_2; [reflexivity | exact Hne].
Qed.

Lemma _setState_fits g st :
  length st = length (Graph.nodes g) ->
  exists g', Graph._setState st g = (Normal tt, g') /\
             length (Graph.nodes g') = length (Graph.nodes g) /\
             Graph.branches g' = Graph.branches g.
Proof.
  intros Heq. unfold Graph._setState.
  rewrite bool_decide_eq_false_2 by (intros Hne; apply Hne, Heq).
  eexists; split; [reflexivity |]. simpl. split; [| reflexivity].
  rewrite length_zip_with. lia.
Qed.

Lemma assign_nodes bs target source g last :
  Graph.nodes (fst (Graph.assign bs target source g last)) = Graph.nodes g.
Proof.
  induction bs as [| [k b] bs IH]; simpl; [reflexivity |].
  repeat case_match; simpl; auto.
Qed.

Lemma resolve_nodes rounds ds g last :
  Graph.nodes (fst (Graph.resolve rounds ds g last)) = Graph.nodes g.
Proof.
  revert ds g last.
  induction rounds as [| rounds IH]; intros ds g last; simpl; [reflexivity |].
  destruct ds as [| d0 rest]; [reflexivity |].
  match goal with
  | |- context [Graph.assign ?a ?b ?c ?d ?e] =>
    pose proof (assign_nodes a b c d e) as Hn;
    destruct (Graph.assign a b c d e) as [g' last'] eqn:E
  end.
  simpl in Hn. rewrite IH. exact Hn.
Qed.

(** One round of the for loop over [hist], written out. *)
Lemma replay_cons st hist (lastState : option Snapshot) last g :
  Graph.replay (Some st :: hist) lastState last g =
  match Graph._setState st g with
  | (Throw e, g1) => (Throw e, g1)
  | (Normal _, g1) =>
    match lastState with
    | None => Graph.replay hist (Some st) last g1
    | Some prev =>
      Graph.replay hist (Some st)
        (Some (snd (Graph.resolve (length (Graph.diffs_of g1 prev st))
                      (Graph.diffs_of g1 prev st) g1 [])))
        (fst (Graph.resolve (length (Graph.diffs_of g1 prev st))
                (Graph.diffs_of g1 prev st) g1 []))
    end
  end.
Proof.
  cbn [Graph.replay defined]. unfold bind, ret, get, modify.
  destruct (Graph._setState st g) as [[[] | e] g1]; [| reflexivity].
  destruct lastState as [prev |]; [| reflexivity].
  destruct (Graph.resolve _ _ g1 []) as [g2 last2]. reflexivity.
Qed.

(** Replaying well-formed snapshots never throws, keeps the node count,
    and initialises [lastEnergizedBranches] exactly when a second
    snapshot is reached. *)
Lemma replay_fits hist : forall (lastState : option Snapshot) last g,
  Forall (fits (length (Graph.nodes g))) hist ->
  exists last' g',
    Graph.replay hist lastState last g = (Normal last', g') /\
    length (Graph.nodes g') = length (Graph.nodes g) /\
    (hist = [] -> last' = last) /\
    (lastState = None -> length hist < 2 -> last' = last) /\
    (lastState = None -> 2 <= length hist -> is_Some last') /\
    (is_Some lastState -> hist <> [] -> is_Some last').
Proof.
  induction hist as [| s hist IH]; intros lastState last g Hall.
  - exists last, g. simpl. unfold ret. repeat split; auto; try (simpl; lia); congruence.
  - apply Forall_cons in Hall as [(st & -> & Hlen) Hall].
    destruct (_setState_fits g st Hlen) as (g1 & Hset & Hn1 & _).
    rewrite replay_cons, Hset.
    destruct lastState as [prev |].
    + pose proof (resolve_nodes (length (Graph.diffs_of g1 prev st))
                    (Graph.diffs_of g1 prev st) g1 []) as Hn2.
      destruct (Graph.resolve _ _ g1 []) as [g2 last2]. simpl in Hn2. simpl.
      rewrite <- Hn1, <- Hn2 in Hall.
      destruct (IH (Some st) (Some last2) g2 Hall)
        as (last' & g' & Hrep & Hn & Hnil & _ & _ & Hsome).
      exists last', g'. rewrite Hrep. repeat split; try congruence.
      intros _ _. destruct hist as [| s' hist'].
      * rewrite Hnil by reflexivity. eauto.
      * apply Hsome; [eauto | congruence].
    + rewrite <- Hn1 in Hall.
      destruct (IH (Some st) last g1 Hall)
        as (last' & g' & Hrep & Hn & Hnil & _ & _ & Hsome).
      exists last', g'. rewrite Hrep. repeat split; try congruence.
      * intros _ Hlt. apply Hnil. destruct hist; [reflexivity | simpl in Hlt; lia].
      * intros _ Hge. apply Hsome; [eauto |].
        destruct hist; [simpl in Hge; lia | congruence].
      * intros [? ?]; congruence.
Qed.

(** The replay stops at the first snapshot of the wrong length, with the
    graph as the snapshots before it left it. *)
Lemma replay_misfit pre bad post : forall (lastState : option Snapshot) last g,
  Forall (fits (length (Graph.nodes g))) pre ->
  length bad <> length (Graph.nodes g) ->
  exists last' g',
    Graph.replay pre lastState last g = (Normal last', g') /\
    length (Graph.nodes g') = length (Graph.nodes g) /\
    Graph.replay (pre ++ Some bad :: post) lastState last g =
      (Throw (Error (Graph.length_message (length (Graph.nodes g)))), g').
Proof.
  induction pre as [| s pre IH]; intros lastState last g Hall Hbad.
  - exists last, g. split; [reflexivity |]. split; [reflexivity |].
    cbn [app]. rewrite replay_cons, (_setState_mismatch g bad Hbad). reflexivity.
  - apply Forall_cons in Hall as [(st & -> & Hlen) Hall].
    destruct (_setState_fits g st Hlen) as (g1 & Hset & Hn1 & _).
    cbn [app]. rewrite !replay_cons, Hset.
    destruct lastState as [prev |].
    + pose proof (resolve_nodes (length (Graph.diffs_of g1 prev st))
                    (Graph.diffs_of g1 prev st) g1 []) as Hn2.
      destruct (Graph.resolve _ _ g1 []) as [g2 last2]. simpl in Hn2. simpl.
      rewrite <- Hn1, <- Hn2 in Hall, Hbad.
      destruct (IH (Some st) (Some last2) g2 Hall Hbad) as (last' & g' & H1 & H2 & H3).
      exists last', g'. rewrite H1, H3. repeat split; congruence.
    + rewrite <- Hn1 in Hall, Hbad.
      destruct (IH (Some st) last g1 Hall Hbad) as (last' & g' & H1 & H2 & H3).
      exists last', g'. rewrite H1, H3. repeat split; congruence.
Qed.

Lemma emptyState_length g :
  length (Graph.nodes (Graph.emptyState g)) = length (Graph.nodes g).
Proof. unfold Graph.emptyState. simpl. apply length_map. Qed.

(** With two or more snapshots of the right length setState reaches its
    redraw, no step before it throws, and keeps the node count. *)
Lemma setState_completes g hist :
  2 <= length hist ->
  Forall (fits (length (Graph.nodes g))) hist ->
  exists g', Graph.setState hist g = (Normal tt, g') /\
             length (Graph.nodes g') = length (Graph.nodes g).
Proof.
  intros Hge Hall. unfold Graph.setState.
  unfold bind at 1, modify at 1. cbn beta iota.
  rewrite <- emptyState_length in Hall.
  destruct (replay_fits hist None None _ Hall)
    as (last' & g' & Hrep & Hn & _ & _ & Hsome & _).
  rewrite (bind_normal _ _ _ _ _ Hrep).
  destruct (Hsome eq_refl Hge) as [bs ->]. cbn [defined].
  unfold bind, ret, modify. eexists; split; [reflexivity |].
  simpl. rewrite Hn. apply emptyState_length.
Qed.

Lemma first_misfit n hist :
  Forall is_Some hist ->
  Exists (misfits n) hist ->
  exists pre bad post,
    hist = pre ++ Some bad :: post /\ Forall (fits n) pre /\ length bad <> n.
Proof.
  induction hist as [| s hist IH]; intros Hsome Hex.
  - inversion Hex.
  - apply Forall_cons in Hsome as [[st ->] Hsome].
    destruct (decide (length st = n)) as [Heq | Hne].
    + apply Exists_cons in Hex as [(st' & [= <-] & Hne) | Hex]; [contradiction |].
      destruct (IH Hsome Hex) as (pre & bad & post & -> & Hpre & Hbad).
      exists (Some st :: pre), bad, post. split; [reflexivity |].
      split; [| exact Hbad]. constructor; [exists st; auto | exact Hpre].
    + exists [], st, hist. repeat split; auto.
Qed.

(** setState on a history whose first snapshot of the wrong length is
    [bad]. *)
Lemma setState_first_misfit g pre bad post :
  Forall (fits (length (Graph.nodes g))) pre ->
  length bad <> length (Graph.nodes g) ->
  exists last g',
    Graph.replay pre None None (Graph.emptyState g) = (Normal last, g') /\
    Graph._setState bad g' =
      (Throw (Error (Graph.length_message (length (Graph.nodes g)))), g') /\
    Graph.setState (pre ++ Some bad :: post) g =
      (Throw (Error (Graph.length_message (length (Graph.nodes g)))), g').
Proof.
  intros Hpre Hbad.
  rewrite <- (emptyState_length g) in Hpre, Hbad.
  destruct (replay_misfit pre bad post None None _ Hpre Hbad)
    as (last & g' & Hrep & Hn & Hthrow).
  rewrite emptyState_length in Hthrow, Hn, Hbad.
  exists last, g'. repeat split; auto.
  - rewrite <- Hn. apply _setState_mismatch. congruence.
  - unfold Graph.setState. unfold bind at 1, modify at 1. cbn beta iota.
    apply bind_throw. exact Hthrow.
Qed.

(** C9 (amended): when some snapshot of the history has another length
    than the graph has nodes, setState throws the error that states the
    expected length, at the first such snapshot.  The graph it leaves is
    the one emptyState and the replay of the snapshots before that one
    produced; the check of the offending snapshot itself changes
    nothing. *)
Theorem setState_length_mismatch g hist :
  Forall is_Some hist ->
  Exists (misfits (length (Graph.nodes g))) hist ->
  exists pre bad post last g',
    hist = pre ++ Some bad :: post /\
    Forall (fits (length (Graph.nodes g))) pre /\
    length bad <> length (Graph.nodes g) /\
    Graph.replay pre None None (Graph.emptyState g) = (Normal last, g') /\
    Graph._setState bad g' =
      (Throw (Error (Graph.length_message (length (Graph.nodes g)))), g') /\
    Graph.setState hist g =
      (Throw (Error (Graph.length_message (length (Graph.nodes g)))), g').
Proof.
  intros Hsome Hex.
  destruct (first_misfit _ _ Hsome Hex) as (pre & bad & post & -> & Hpre & Hbad).
  destruct (setState_first_misfit g pre bad post Hpre Hbad)
    as (last & g' & H1 & H2 & H3).
  exists pre, bad, post, last, g'. repeat split; auto.
Qed.

(** C10 (amended): a history of fewer than two snapshots never lets
    setState return normally.  When its snapshots (none, or one) have the
    graph's node count in length, the final marking pass iterates the
    uninitialised lastEnergizedBranches and the call throws a
    TypeError. *)
Theorem setState_short_history g hist :
  length hist < 2 ->
  (Forall (fits (length (Graph.nodes g))) hist ->
   exists g', Graph.setState hist g = (Throw TypeError, g')) /\
  (forall g', Graph.setState hist g <> (Normal tt, g')).
Proof.
  intros Hlt.
  assert (Hfit : Forall (fits (length (Graph.nodes g))) hist ->
                 exists g', Graph.setState hist g = (Throw TypeError, g')).
  { intros Hall. unfold Graph.setState.
    unfold bind at 1, modify at 1. cbn beta iota.
    rewrite <- emptyState_length in Hall.
    destruct (replay_fits hist None None _ Hall)
      as (last' & g' & Hrep & _ & _ & Hnone & _ & _).
    rewrite (bind_normal _ _ _ _ _ Hrep), (Hnone eq_refl Hlt).
    exists g'. reflexivity. }
  split; [exact Hfit |].
  intros g' Hret.
  destruct hist as [| s [| s' hist]]; [| | simpl in Hlt; lia].
  - destruct Hfit as [g1 Hg]; [constructor | congruence].
  - destruct s as [st |].
    + destruct (decide (length st = length (Graph.nodes g))) as [Heq | Hne].
      * destruct Hfit as [g1 Hg]; [| congruence].
        constructor; [exists st; auto | constructor].
      * destruct (setState_first_misfit g [] st [] (Forall_nil_2 _) Hne)
          as (? & ? & _ & _ & Hthrow).
        change ([] ++ [Some st]) with [Some st] in Hthrow. congruence.
    + unfold Graph.setState in Hret. revert Hret.
      unfold bind, modify, ret. simpl. discriminate.
Qed.

End GraphProperties.

(** ** The interactive cursor *)

Section CursorProperties.
Context {R : Type} `{Num R}.
Implicit Types (c : Policy.Cursor (R := R)) (g : Graph.Graph (R := R)).
Implicit Types (d : Policy.PolicyData (R := R)).

Import Policy.

Lemma same_frame_refl c : same_frame c c.
Proof. repeat split. Qed.

Lemma graph_setState_cursor hist c g :
  fst (snd (graph_setState hist (c, g))) = c.
Proof.
  unfold graph_setState. simpl. destruct (Graph.setState hist g). reflexivity.
Qed.

(** setNext(i), step by step. *)
Lemma setNext_eq i c g :
  setNext i (c, g) =
  let c1 := set_next (Some i) c in
  match target_of c1 (Some i) with
  | None => (Throw TypeError, (c1, g))
  | Some t =>
    match history_snapshots c1 with
    | None => (Throw TypeError, (c1, g))
    | Some hist =>
      graph_setState
        (hist ++ [stateAt (data c1) (state c1); stateAt (data c1) (Some t)]) (c1, g)
    end
  end.
Proof.
  cbv [setNext bind assign this]. cbn [fst snd].
  change (next (set_next (Some i) c)) with (Some i).
  destruct (target_of _ _) as [t |]; [| reflexivity].
  cbn [defined]. cbv [ret].
  destruct (history_snapshots _) as [hist |]; reflexivity.
Qed.

(** setAction(a, nxt), step by step. *)
Lemma setAction_eq a nxt c g :
  setAction a nxt (c, g) =
  match actions c with
  | None => (Throw TypeError, (set_actionNum a c, g))
  | Some acts =>
    let c1 :=
      set_ended (end_of (getU acts a) (state c))
        (set_action (getU acts a) (set_actionNum a c)) in
    match nxt, ended c1 with
    | Some i, false => setNext i (c1, g)
    | _, _ =>
      match history_snapshots c1 with
      | None => (Throw TypeError, (c1, g))
      | Some hist =>
        graph_setState
          (hist ++ [stateAt (data c1) (state c1)] ++
             (if ended c1 then [stateAt (data c1) (state c1)] else []))
          (c1, g)
      end
    end
  end.
Proof.
  cbv [setAction bind assign this]. cbn [fst snd].
  change (actions (set_actionNum a c)) with (actions c).
  destruct (actions c) as [acts |]; [| reflexivity].
  cbn [defined]. cbv [ret]. cbn [fst snd].
  change (state (set_actionNum a c)) with (state c).
  match goal with |- context [set_ended ?b ?x] => generalize (set_ended b x) end.
  intros c1. destruct nxt as [i |], (ended c1) eqn:E; try reflexivity;
    cbv [bind]; destruct (history_snapshots c1); reflexivity.
Qed.

(** setState(st, nxt) and setStateAndAction(st, a, nxt), step by step. *)
Lemma setState_eq st nxt c g :
  setState st nxt (c, g) =
  let c1 := set_actions (getU (transitions (data c)) st) (set_state st c) in
  setAction (getU (policy (data c)) st) nxt (c1, g).
Proof. reflexivity. Qed.

Lemma setStateAndAction_eq st a nxt c g :
  setStateAndAction st a nxt (c, g) =
  let c1 := set_actions (getU (transitions (data c)) st) (set_state st c) in
  setAction a nxt (c1, g).
Proof. reflexivity. Qed.

(** What setNext leaves in the cursor, whether or not it throws. *)
Lemma setNext_cursor i c g :
  fst (snd (setNext i (c, g))) = set_next (Some i) c.
Proof.
  rewrite setNext_eq. cbv zeta.
  destruct (target_of _ _); [| reflexivity].
  destruct (history_snapshots _); [| reflexivity].
  apply graph_setState_cursor.
Qed.

(** What setAction leaves in the cursor, whether or not it throws, once
    [this.actions] is an object. *)
Lemma setAction_cursor_eq a nxt c g acts :
  actions c = Some acts ->
  fst (snd (setAction a nxt (c, g))) =
  let c1 :=
    set_ended (end_of (getU acts a) (state c))
      (set_action (getU acts a) (set_actionNum a c)) in
  match nxt, ended c1 with
  | Some i, false => set_next (Some i) c1
  | _, _ => c1
  end.
Proof.
  intros Hacts. rewrite setAction_eq, Hacts. cbv zeta.
  set (c1 := set_ended _ _).
  destruct nxt as [i |], (ended c1) eqn:E;
    try apply setNext_cursor;
    (destruct (history_snapshots c1); [apply graph_setState_cursor | reflexivity]).
Qed.

Lemma setAction_cursor a nxt c g acts :
  actions c = Some acts ->
  let c' := fst (snd (setAction a nxt (c, g))) in
  same_frame c c' /\ state c' = state c /\ actions c' = actions c /\
  actionNum c' = a /\ action c' = getU acts a /\
  ended c' = end_of (getU acts a) (state c) /\
  next c' = (if ended c' then next c else from_option Some (next c) nxt).
Proof.
  intros Hacts. cbv zeta. rewrite (setAction_cursor_eq a nxt c g acts Hacts).
  cbv zeta. destruct nxt as [i |];
    destruct (end_of (getU acts a) (state c)) eqn:E;
    cbn; rewrite ?E; repeat split; reflexivity.
Qed.

(** setAction without a table of actions throws before it writes
    [this.end]. *)
Lemma setAction_no_actions a nxt c g :
  actions c = None ->
  setAction a nxt (c, g) = (Throw TypeError, (set_actionNum a c, g)).
Proof. intros Hacts. rewrite setAction_eq, Hacts. reflexivity. Qed.

(** The fields setState writes and those it keeps, whether or not it
    throws. *)
Lemma setState_cursor st nxt c g :
  let c' := fst (snd (setState st nxt (c, g))) in
  same_frame c c' /\ state c' = st /\
  actions c' = getU (transitions (data c)) st.
Proof.
  cbv zeta. rewrite setState_eq. cbv zeta.
  set (c1 := set_actions _ _).
  destruct (actions c1) as [acts |] eqn:E.
  - destruct (setAction_cursor (getU (policy (data c)) st) nxt c1 g acts E)
      as ((?&?&?&?&?) & Hs & Ha & _).
    repeat split; first [assumption | congruence].
  - rewrite (setAction_no_actions _ _ _ _ E). cbn [fst snd].
    repeat split.
Qed.

(** setState on a state that has a table of actions leaves the fields
    coherent, whether or not the redraw throws. *)
Lemma setState_coherent st nxt c g :
  is_Some (transitions (data c) !! st) ->
  coherent (fst (snd (setState (Some st) nxt (c, g)))).
Proof.
  intros [acts Hacts]. rewrite setState_eq. cbv zeta.
  set (c1 := set_actions _ _).
  assert (Hc1 : actions c1 = Some acts) by exact Hacts.
  destruct (setAction_cursor (getU (policy (data c)) (Some st)) nxt c1 g acts Hc1)
    as ((Hd & _) & Hs & Ha & Hn & Hact & He & _).
  unfold coherent. rewrite Ha, Hs, Hd, Hact, He, Hn, Hc1.
  split; [symmetry; exact Hacts |]. split; reflexivity.
Qed.

(** C4: with an empty history previousState throws the error "There's
    no previous state" and leaves the cursor (current state, selected
    action and outcome, ended flag, history) and the graph as they
    were. *)
Theorem previousState_empty_history c g :
  previousStates c = [] ->
  previousState (c, g) = (Throw (Error "There's no previous state"), (c, g)).
Proof.
  intros Hempty. cbv [previousState bind this]. cbn [fst snd].
  rewrite Hempty. reflexivity.
Qed.

Lemma end_of_spec (act : option (list (Outcome (R := R)))) st :
  end_of act st = true <-> ends_here act st.
Proof.
  unfold end_of, ends_here, ACTION_OFFSET. destruct act as [a |].
  - rewrite andb_true_iff, Nat.eqb_eq, bool_decide_eq_true. split.
    + intros [Hlen Hhd]. right.
      destruct a as [| [t p] [| ? ?]]; simpl in Hlen; try discriminate.
      exists t, p. split; [reflexivity |]. simpl in Hhd.
      rewrite Z.add_0_r in Hhd. exact Hhd.
    + intros [Hnone | (t & p & [= ->] & Hst)]; [discriminate |].
      split; [reflexivity |]. simpl. rewrite Z.add_0_r. exact Hst.
  - split; auto.
Qed.

(** C5 (amended): after setState on a state that has a table of
    actions, and after setAction on a cursor that holds a table of
    actions, the ended flag is true exactly when the action looked up in
    the table the cursor holds is absent or is a single outcome leading
    back to the current state; setState reads that table from the
    transitions of the state it is given, setAction takes the one the
    cursor already holds.  This does not depend on the redraw that ends
    the call.  A cursor constructed on a policy whose state 0 has the
    sole action [[0, p]] is ended once the constructor has run, before
    any advance, with an empty history. *)
Theorem ended_flag g :
  (forall c st nxt acts,
     transitions (data c) !! st = Some acts ->
     let c' := fst (snd (setState (Some st) nxt (c, g))) in
     state c' = Some st /\
     (ended c' = true <-> ends_here (getU acts (policy (data c) !! st)) (Some st))) /\
  (forall c a nxt acts,
     actions c = Some acts ->
     let c' := fst (snd (setAction a nxt (c, g))) in
     state c' = state c /\
     (ended c' = true <-> ends_here (getU acts a) (state c))) /\
  (forall d a p,
     transitions d !! 0%Z = Some {[ a := [(0%Z, p)] ]} ->
     let w := new_InteractivePolicy d g in
     ended (fst (snd w)) = true /\
     nextStateAvailable (fst (snd w)) = false /\
     previousStates (fst (snd w)) = []).
Proof.
  split; [| split].
  - intros c st nxt acts Hacts. cbv zeta. rewrite setState_eq. cbv zeta.
    set (c1 := set_actions _ _).
    assert (Hc1 : actions c1 = Some acts) by exact Hacts.
    destruct (setAction_cursor (getU (policy (data c)) (Some st)) nxt c1 g acts Hc1)
      as (_ & Hs & _ & _ & _ & He & _).
    split; [exact Hs |]. rewrite He. apply end_of_spec.
  - intros c a nxt acts Hacts. cbv zeta.
    destruct (setAction_cursor a nxt c g acts Hacts) as (_ & Hs & _ & _ & _ & He & _).
    split; [exact Hs |]. rewrite He. apply end_of_spec.
  - intros d a p Htr. cbv zeta. unfold new_InteractivePolicy.
    rewrite setState_eq. cbv zeta.
    set (c1 := set_actions _ _).
    assert (Hc1 : actions c1 = Some {[ a := [(0%Z, p)] ]}) by exact Htr.
    assert (Hend : end_of (getU {[ a := [(0%Z, p)] ]} (getU (policy d) (Some 0%Z)))
                     (Some 0%Z) = true).
    { apply end_of_spec. unfold getU. simpl.
      destruct (policy d !! 0%Z) as [b |]; simpl; [| left; reflexivity].
      destruct (decide (a = b)) as [-> | Hne].
      - right. exists 0%Z, p. rewrite lookup_singleton_eq. auto.
      - left. apply lookup_singleton_ne. exact Hne. }
    destruct (setAction_cursor (getU (policy d) (Some 0%Z)) (Some 0) c1 g _ Hc1)
      as ((_ & Hp & _) & _ & _ & _ & _ & He & _).
    change (state c1) with (Some 0%Z) in He. change (data (blank d)) with d in *.
    rewrite Hend in He.
    split; [exact He |]. split; [unfold nextStateAvailable; rewrite He; reflexivity |].
    exact Hp.
Qed.

(** *** Advance and rewind *)

Lemma cursor_ext c c' :
  data c = data c' -> state c = state c' -> actions c = actions c' ->
  actionNum c = actionNum c' -> action c = action c' -> next c = next c' ->
  ended c = ended c' -> previousStates c = previousStates c' ->
  steps c = steps c' -> fullHistory c = fullHistory c' -> index c = index c' ->
  c = c'.
Proof. destruct c, c'. cbn. intros. subst. reflexivity. Qed.

Lemma pop_snoc {A} (l : list A) x : pop (l ++ [x]) = Some (x, l).
Proof. unfold pop. rewrite rev_app_distr. simpl. rewrite rev_involutive. reflexivity. Qed.

(** C3 (amended): on a cursor that is not ended, whose table of actions
    and selected action are the ones the policy it holds gives for its
    current state and action key, with a chosen outcome of that action,
    nextState makes the state of the outcome current and pushes the
    record of the triple it leaves; previousState on the store nextState
    leaves then gives back the cursor exactly as it was before the two
    calls: current state, action key, outcome index, history stack and
    every other field.  This does not depend on what the redraw of the
    graph does in either call. *)
Theorem nextState_previousState c g s i o act :
  coherent c ->
  state c = Some s ->
  ended c = false ->
  next c = Some i ->
  action c = Some act ->
  act !! i = Some o ->
  state (fst (snd (nextState (c, g)))) = Some (fst o) /\
  previousStates (fst (snd (nextState (c, g)))) =
    previousStates c ++ [Some (mkEntry (Some s) (actionNum c) (Some i))] /\
  fst (snd (previousState (snd (nextState (c, g))))) = c.
Proof.
  intros (Hacts & Haction & Hended) Hs Hend Hnext Hact Hi.
  (* the selected action sits in the table of the current state *)
  rewrite Hact in Haction. symmetry in Haction.
  destruct (actions c) as [acts |] eqn:Eacts; [| discriminate].
  cbn in Haction. rewrite Hs in Hacts. symmetry in Hacts.
  (* advance *)
  set (e := Some (mkEntry (Some s) (actionNum c) (Some i))).
  set (cp := set_previousStates (previousStates c ++ [e]) c).
  assert (Hnext_eq : nextState (c, g) = setState (Some (fst o)) (Some 0) (cp, g)).
  { cbv [nextState bind assign this]. cbn [fst snd].
    rewrite Hs, Hnext. fold e. fold cp.
    unfold target_of. change (action cp) with (action c). change (next cp) with (next c).
    rewrite Hact, Hnext. cbn [mbind option_bind]. rewrite Hi. cbn [mbind option_bind defined].
    cbv [ret]. unfold ACTION_OFFSET. rewrite Z.add_0_r. reflexivity. }
  rewrite Hnext_eq.
  destruct (setState_cursor (Some (fst o)) (Some 0) cp g)
    as ((Hd & Hp & Hst & Hfh & Hix) & Hs1 & _).
  destruct (setState (Some (fst o)) (Some 0) (cp, g)) as [r1 [c1 g1]].
  cbn [fst snd] in *.
  change (data cp) with (data c) in Hd.
  change (previousStates cp) with (previousStates c ++ [e]) in Hp.
  change (steps cp) with (steps c) in Hst.
  change (fullHistory cp) with (fullHistory c) in Hfh.
  change (index cp) with (index c) in Hix.
  split; [exact Hs1 |]. split; [exact Hp |].
  (* rewind *)
  cbv [previousState bind assign this]. cbn [fst snd].
  rewrite Hp, pop_snoc. cbn [fst snd e default h_state h_actionNum h_next].
  rewrite setStateAndAction_eq. cbv zeta.
  set (cr := set_actions (getU (transitions (data c1)) (Some s))
               (set_state (Some s) (set_previousStates (previousStates c) c1))).
  assert (Hcr : actions cr = Some acts).
  { unfold cr. cbn [actions set_actions]. rewrite Hd. exact Hacts. }
  change (fst (snd (setAction (actionNum c) (Some i) (cr, g1))) = c).
  rewrite (setAction_cursor_eq (actionNum c) (Some i) cr g1 acts Hcr). cbv zeta.
  change (state cr) with (Some s).
  assert (Hend' : end_of (getU acts (actionNum c)) (Some s) = false).
  { rewrite Haction, <- Hact, <- Hs, <- Hended. exact Hend. }
  cbn [ended set_ended]. rewrite Hend'.
  assert (Ht : transitions (data c1) !! s = Some acts) by (rewrite Hd; exact Hacts).
  symmetry. apply cursor_ext; unfold cr; cbn; congruence.
Qed.

End CursorProperties.

(** ** The linear cursor *)

Section LinearProperties.
Context {R : Type} `{Num R}.
Implicit Types (c : Policy.Cursor (R := R)) (g : Graph.Graph (R := R)).
Implicit Types (d : Policy.PolicyData (R := R)).

Import Policy.

Lemma aligned_snoc stps fh current a :
  aligned stps fh ->
  stps !! length fh = Some current ->
  aligned stps (fh ++ [Some (mkEntry (Some current) a (Some 0))]).
Proof.
  intros Hal Hcur j Hj. rewrite length_app in Hj. simpl in Hj.
  destruct (decide (j < length fh)) as [Hlt | Hge].
  - destruct (Hal j Hlt) as (sj & a' & H1 & H2).
    exists sj, a'. split; [exact H1 |]. rewrite lookup_app_l; assumption.
  - assert (j = length fh) as -> by lia.
    exists current, a. split; [exact Hcur |].
    rewrite lookup_app_r by lia. rewrite Nat.sub_diag. reflexivity.
Qed.

Lemma aligned_steps_snoc stps fh x :
  aligned stps fh -> aligned (stps ++ [x]) fh.
Proof.
  intros Hal j Hj. destruct (Hal j Hj) as (sj & a & H1 & H2).
  exists sj, a. split; [| exact H2].
  rewrite lookup_app_l; [exact H1 |]. apply lookup_lt_Some in H1. exact H1.
Qed.

(** The loop of getStepsFromPolicy only appends to [steps], and keeps the
    history aligned with the steps and at most one entry short of them. *)
Lemma steps_loop_aligned rounds : forall current c r c',
  steps_loop rounds current c = Some (r, c') ->
  aligned (steps c) (fullHistory c) ->
  length (steps c) = length (fullHistory c) + 1 ->
  steps c !! length (fullHistory c) = Some current ->
  aligned (steps c') (fullHistory c') /\
  length (steps c') <= length (fullHistory c') + 1 /\
  steps c `prefix_of` steps c'.
Proof.
  induction rounds as [| rounds IH]; intros current c r c' Hrun Hal Hlen Hcur.
  - simpl in Hrun. destruct (negb _); [| discriminate].
    injection Hrun as <- <-. repeat split; [exact Hal | lia | reflexivity].
  - simpl in Hrun. destruct (negb _).
    { injection Hrun as <- <-. repeat split; [exact Hal | lia | reflexivity]. }
    destruct (transitions (data c) !! current) as [acts |].
    2: { injection Hrun as <- <-. repeat split; [exact Hal | lia | reflexivity]. }
    destruct (getU acts (policy (data c) !! current) ≫= _) as [o |].
    2: { injection Hrun as <- <-. repeat split; [exact Hal | lia | reflexivity]. }
    destruct (fst o + ACTION_OFFSET =? current)%Z.
    { injection Hrun as <- <-. repeat split; [exact Hal | lia | reflexivity]. }
    set (entry := Some (mkEntry (Some current) (policy (data c) !! current) (Some 0))) in *.
    set (c1 := set_fullHistory (fullHistory c ++ [entry]) c) in *.
    assert (Hal1 : aligned (steps c1) (fullHistory c1)).
    { apply aligned_snoc; assumption. }
    assert (Hfh1 : length (fullHistory c1) = length (fullHistory c) + 1).
    { unfold c1. cbn. rewrite length_app. reflexivity. }
    change (data c1) with (data c) in Hrun.
    destruct (lookupZ (states (data c)) (fst o + ACTION_OFFSET)).
    + apply IH in Hrun.
      * destruct Hrun as (H1 & H2 & H3). repeat split; [exact H1 | exact H2 |].
        etransitivity; [| exact H3]. cbn. apply prefix_app_r. reflexivity.
      * cbn. apply aligned_steps_snoc. exact Hal1.
      * cbn. rewrite !length_app. simpl. lia.
      * cbn. rewrite length_app. simpl.
        rewrite lookup_app_r by lia.
        replace (length (fullHistory c) + 1 - length (steps c)) with 0 by lia.
        reflexivity.
    + injection Hrun as <- <-. repeat split; [exact Hal1 | | reflexivity].
      rewrite Hfh1. change (steps c1) with (steps c). lia.
Qed.

(** What getStepsFromPolicy leaves in [steps] and [fullHistory]. *)
Lemma getStepsFromPolicy_aligned rounds c0 cs :
  getStepsFromPolicy rounds c0 = Some (Normal tt, cs) ->
  steps cs !! 0 = Some 0%Z /\
  forall j, j + 2 < length (steps cs) ->
    exists sj a, steps cs !! j = Some sj /\
                 fullHistory cs !! j = Some (Some (mkEntry (Some sj) a (Some 0))).
Proof.
  unfold getStepsFromPolicy. intros Hrun.
  destruct (steps_loop rounds 0 _) as [[[current | e] c'] |] eqn:Hloop;
    try discriminate.
  injection Hrun as <-.
  apply steps_loop_aligned in Hloop.
  - destruct Hloop as (Hal & Hlen & [l Hpre]). cbn in Hpre. cbn. split.
    + rewrite Hpre. reflexivity.
    + intros j Hj. rewrite length_app in Hj. simpl in Hj.
      destruct (Hal j) as (sj & a & H1 & H2); [lia |].
      exists sj, a. split.
      * rewrite lookup_app_l; [exact H1 |]. apply lookup_lt_Some in H1. exact H1.
      * rewrite lookup_app_l; [exact H2 |]. apply lookup_lt_Some in H2. exact H2.
  - cbn. intros j Hj. simpl in Hj. lia.
  - reflexivity.
  - reflexivity.
Qed.

(** C7 (amended): on the steps and history that getStepsFromPolicy
    computed, goTo(i) for a valid index [i] sets the index to [i], the
    current state to [steps[i-1]] ([steps[0]] for [i = 0]) and the
    previous-states list to the first [i-1] history entries, which are the
    entries for [steps[0..i-2]] in visitation order (none for [i <= 1]).
    This holds whether or not the redraw throws. *)
Theorem goTo_sets rounds c0 cs c g i :
  getStepsFromPolicy rounds c0 = Some (Normal tt, cs) ->
  steps c = steps cs ->
  fullHistory c = fullHistory cs ->
  i < length (steps c) ->
  let c' := fst (snd (goTo i (c, g))) in
  index c' = i /\
  state c' = steps c !! (i - 1) /\
  previousStates c' = take (i - 1) (fullHistory c) /\
  length (previousStates c') = i - 1 /\
  forall j, j < i - 1 ->
    exists sj a, steps c !! j = Some sj /\
                 previousStates c' !! j = Some (Some (mkEntry (Some sj) a (Some 0))).
Proof.
  intros Hsteps Hst Hfh Hi. cbv zeta.
  destruct (getStepsFromPolicy_aligned _ _ _ Hsteps) as [_ Hal].
  rewrite <- Hst, <- Hfh in Hal.
  assert (Hgo : index (fst (snd (goTo i (c, g)))) = i /\
                state (fst (snd (goTo i (c, g)))) = steps c !! (i - 1) /\
                previousStates (fst (snd (goTo i (c, g)))) =
                  take (i - 1) (fullHistory c)).
  { cbv [goTo bind assign this]. cbn [fst snd].
    destruct i as [| k].
    - cbn [fst snd]. set (c1 := set_previousStates [] (set_index 0 c)).
      change (steps c1) with (steps c).
      destruct (setState_cursor (steps c !! 0) None c1 g)
        as ((_ & Hp & _ & _ & Hx) & Hs & _).
      split; [exact Hx |]. split; [exact Hs |]. exact Hp.
    - cbn [fst snd].
      set (c1 := set_previousStates _ (set_index (S k) c)).
      change (steps c1) with (steps c).
      destruct (setState_cursor (steps c !! k) (Some 0) c1 g)
        as ((_ & Hp & _ & _ & Hx) & Hs & _).
      replace (S k - 1) with k by lia.
      split; [exact Hx |]. split; [exact Hs |]. exact Hp. }
  destruct Hgo as (Hx & Hs & Hp).
  assert (Hlen : i - 1 <= length (fullHistory c)).
  { destruct (decide (i - 1 = 0)) as [-> | Hne]; [lia |].
    destruct (Hal (i - 2)) as (? & ? & _ & Hl); [lia |].
    apply lookup_lt_Some in Hl. lia. }
  split; [exact Hx |]. split; [exact Hs |]. split; [exact Hp |].
  rewrite Hp. split; [rewrite length_take; lia |].
  intros j Hj. destruct (Hal j) as (sj & a & H1 & H2); [lia |].
  exists sj, a. split; [exact H1 |].
  rewrite lookup_take_lt by lia. exact H2.
Qed.

Lemma success_loop_product g rest : forall i0 p,
  i0 + length rest <= length (Graph.nodes g) ->
  success_loop g rest i0 p =
  Normal
    (foldl (fun q (sn : string * Graph.Node) => mul q (sub one (Graph.pf (snd sn))))
       p
       (List.filter
          (fun sn : string * Graph.Node =>
             energized_in_step_unknown_in_graph (fst sn) (snd sn))
          (zip rest (drop i0 (Graph.nodes g))))).
Proof.
  induction rest as [| sym rest IH]; intros i0 p Hlen; [reflexivity |].
  simpl in Hlen.
  destruct (Graph.nodes g !! i0) as [node |] eqn:Hnode.
  2: { apply lookup_ge_None in Hnode. lia. }
  rewrite (drop_S _ _ _ Hnode). cbn [success_loop zip zip_with List.filter fst snd].
  rewrite Hnode. unfold energized_in_step_unknown_in_graph at 1.
  destruct (bool_decide (sym <> "D") && bool_decide (sym <> "U")); cbn [andb].
  - destruct (Graph.status node =? 0)%Z; cbn [foldl fst snd]; apply IH; lia.
  - apply IH. lia.
Qed.

(** C8 (amended): successProbability(i) is the product of the survival
    factors [1 - pf] of exactly the nodes whose symbol in the state at
    step [i] is an energized one (neither "D" nor "U") and whose status
    in the graph, as it stands at the call, is unknown (0); every other
    node contributes no factor. *)
Theorem successProbability_product c g idx step :
  stateAt (data c) (steps c !! idx) = Some step ->
  length step <= length (Graph.nodes g) ->
  successProbability c g idx =
  Normal (survival_product g step energized_in_step_unknown_in_graph).
Proof.
  intros Hstep Hlen. unfold successProbability, survival_product.
  rewrite Hstep. rewrite success_loop_product by (simpl; lia).
  rewrite drop_0. reflexivity.
Qed.

End LinearProperties.

(** ** Termination of the profile loop *)

Section ProfileTermination.
Context {R : Type} `{Num R}.
Implicit Types (d : Policy.PolicyData (R := R)).

Import Policy.

Lemma queue_weight_app rank B (q1 q2 : list (Item (R := R))) :
  queue_weight rank B (q1 ++ q2) = queue_weight rank B q1 + queue_weight rank B q2.
Proof. induction q1 as [| it q1 IH]; simpl; [reflexivity | rewrite IH; lia]. Qed.

Lemma pow_pos B r : 1 <= S B ^ r.
Proof. induction r as [| r IH]; simpl; lia. Qed.

Lemma pow_mono B r r' : r <= r' -> S B ^ r <= S B ^ r'.
Proof. intros Hle. apply Nat.pow_le_mono_r; lia. Qed.

Lemma children_weight d rank B st p depth act :
  Forall
    (fun a : Outcome =>
       (fst a - 1)%Z = st \/
       (is_Some (lookupZ (states d) (fst a - 1)) /\ rank (fst a - 1)%Z < rank st))
    act ->
  length act <= B ->
  queue_weight rank B (children st p depth act) < S B ^ rank st /\
  Forall (fun it => is_Some (lookupZ (states d) (q_state it)))
    (children st p depth act).
Proof.
  intros Hact Hlen.
  assert (Hsum : queue_weight rank B (children st p depth act)
                 <= length act * S B ^ (rank st - 1) /\
                 (rank st = 0 -> children st p depth act = []) /\
                 Forall (fun it => is_Some (lookupZ (states d) (q_state it)))
                   (children st p depth act)).
  { clear Hlen. unfold children.
    induction Hact as [| a act Ha Hact (IH1 & IH2 & IH3)]; simpl.
    - repeat split; [lia | constructor].
    - destruct (fst a - 1 =? st)%Z eqn:E; simpl.
      + repeat split; [lia | exact IH2 | exact IH3].
      + apply Z.eqb_neq in E. destruct Ha as [Ha | [Hex Hlt]]; [contradiction |].
        repeat split.
        * unfold weight at 1. cbn [q_state].
          assert (Hm : S B ^ rank (fst a - 1)%Z <= S B ^ (rank st - 1))
            by (apply pow_mono; lia).
          lia.
        * intros Hz. lia.
        * constructor; [exact Hex | exact IH3]. }
  destruct Hsum as (Hsum & Hzero & Hex). split; [| exact Hex].
  destruct (rank st) as [| r] eqn:Er.
  - rewrite Hzero by reflexivity. simpl. lia.
  - replace (S r - 1) with r in Hsum by lia.
    pose proof (pow_pos B r). cbn [Nat.pow].
    assert (length act * S B ^ r <= B * S B ^ r) by (apply Nat.mul_le_mono_r; lia).
    lia.
Qed.

(** Given rounds to spare for the weight of the queue, the loop empties
    the queue and returns. *)
Lemma profile_loop_returns d n rank B rounds : forall queue results,
  descends d n rank B ->
  Forall (fun it => is_Some (lookupZ (states d) (q_state it))) queue ->
  queue_weight rank B queue <= rounds ->
  exists res, profile_loop d n rounds queue results = Some (Normal res).
Proof.
  induction rounds as [| rounds IH]; intros queue results Hdesc Hex Hw.
  - destruct queue as [| it queue]; [eexists; reflexivity |].
    simpl in Hw. pose proof (pow_pos B (rank (q_state it))). unfold weight in Hw. lia.
  - destruct queue as [| it queue]; [eexists; reflexivity |].
    apply Forall_cons in Hex as [[snap Hsnap] Hex].
    simpl in Hw. pose proof (pow_pos B (rank (q_state it))) as Hpos.
    unfold weight in Hw.
    cbn [profile_loop]. unfold profile_step.
    assert (Hsym : symbol d (q_state it) n = Some (snap !! n)).
    { unfold symbol. rewrite Hsnap. reflexivity. }
    rewrite Hsym.
    destruct (isD (snap !! n)); [apply IH; auto; lia |].
    destruct (isU (snap !! n)) eqn:HU; cbn [negb]; [| apply IH; auto; lia].
    apply bool_decide_eq_true in HU. rewrite HU in Hsym.
    destruct (Hdesc _ Hsym) as (acts & Hacts & Hact). rewrite Hacts.
    destruct (getU acts (policy d !! q_state it)) as [act |]; [| apply IH; auto; lia].
    destruct (Hact act eq_refl) as [Hlen Hall].
    destruct (children_weight d rank B (q_state it) (q_p it) (q_depth it) act Hall Hlen)
      as [Hlt Hcex].
    apply IH; [exact Hdesc | apply Forall_app; split; assumption |].
    rewrite queue_weight_app. lia.
Qed.

(** energizationProbabilities(n) returns an array when the policy
    descends along a rank from the current state. *)
Lemma energizationProbabilities_returns (c : Cursor) n rank B s :
  state c = Some s ->
  is_Some (lookupZ (states (data c)) s) ->
  descends (data c) n rank B ->
  exists results,
    energizationProbabilities c (S B ^ rank s) n = Some (Normal results).
Proof.
  intros Hs Hex Hdesc. unfold energizationProbabilities, _energizationProbabilities.
  rewrite Hs. apply (profile_loop_returns _ _ rank B); [exact Hdesc | |].
  - repeat constructor. exact Hex.
  - simpl. unfold weight. simpl. lia.
Qed.

End ProfileTermination.

(** ** The probability profile *)

Section ProfileProperties.
Context {R : Type} `{NumOrder R}.
Implicit Types (d : Policy.PolicyData (R := R)) (rs : list R).

Import Policy.

Lemma read_fmap rs k : read (Some <$> rs) k = rs !! k.
Proof. unfold read. rewrite list_lookup_fmap. destruct (rs !! k); reflexivity. Qed.

Lemma write_fmap_lt rs k v :
  k < length rs -> write (Some <$> rs) k (Some v) = Some <$> <[k := v]> rs.
Proof.
  intros Hlt. unfold write. rewrite length_fmap.
  destruct (k <? length rs) eqn:E; [| apply Nat.ltb_ge in E; lia].
  rewrite list_fmap_insert. reflexivity.
Qed.

Lemma write_fmap_end rs v :
  write (Some <$> rs) (length rs) (Some v) = Some <$> (rs ++ [v]).
Proof.
  unfold write. rewrite length_fmap, Nat.ltb_irrefl, Nat.sub_diag.
  rewrite fmap_app. reflexivity.
Qed.

Lemma le_zero_zero : le zero zero.
Proof. exact (le_refl_l _ _ le_zero_one). Qed.

Lemma nondecreasing_snoc rs x :
  nondecreasing rs -> last rs = Some x -> le x x -> nondecreasing (rs ++ [x]).
Proof.
  intros Hmono Hlast Hx k a b Ha Hb.
  destruct (decide (S k < length rs)) as [Hlt | Hge].
  - rewrite lookup_app_l in Ha by lia. rewrite lookup_app_l in Hb by lia.
    exact (Hmono k a b Ha Hb).
  - assert (Hk : S k = length rs).
    { apply lookup_lt_Some in Hb. rewrite length_app in Hb. simpl in Hb. lia. }
    rewrite lookup_app_l in Ha by lia.
    rewrite lookup_app_r in Hb by lia.
    rewrite Hk, Nat.sub_diag in Hb. injection Hb as <-.
    rewrite last_lookup in Hlast.
    replace (pred (length rs)) with k in Hlast by lia.
    rewrite Ha in Hlast. injection Hlast as <-. exact Hx.
Qed.

Lemma nondecreasing_raise_last rs k x p :
  nondecreasing rs -> S k = length rs -> rs !! k = Some x ->
  le zero x -> le zero p -> le p one ->
  nondecreasing (<[k := add x p]> rs).
Proof.
  intros Hmono Hk Hx Hxx Hp Hp1 j a b Ha Hb.
  assert (Hj : S j < length rs).
  { apply lookup_lt_Some in Hb. rewrite length_insert in Hb. exact Hb. }
  rewrite list_lookup_insert_ne in Ha by lia.
  destruct (decide (S j = k)) as [<- | Hne].
  - rewrite list_lookup_insert_eq in Hb by lia. injection Hb as <-.
    eapply le_trans; [exact (Hmono j a x Ha Hx) |]. apply le_add_r; assumption.
  - rewrite list_lookup_insert_ne in Hb by lia. exact (Hmono j a b Ha Hb).
Qed.

(** What seeding [results[depth]] does under the invariant. *)
Lemma seed_inv it queue rs :
  profile_inv (it :: queue) rs ->
  exists rs1 qa qb x,
    seed (Some <$> rs) (q_depth it) = Some <$> rs1 /\
    length rs1 = S (q_depth it) /\
    rs1 !! q_depth it = Some x /\
    rs1 !! 0 = rs !! 0 /\
    nondecreasing rs1 /\
    Forall (fun x => le zero x) rs1 /\
    queue = qa ++ qb /\
    Forall (fun it' => S (q_depth it') = length rs1) qa /\
    Forall (fun it' => q_depth it' = length rs1) qb.
Proof.
  intros [(q1 & q2 & Hq & H1 & H2) Hlen Hdepth Hp Hmono Hnum].
  apply Forall_cons in Hdepth as [Hd _].
  destruct q1 as [| it1 q1'].
  - (* the first item of a new level *)
    simpl in Hq. destruct q2 as [| it2 q2']; [discriminate |].
    injection Hq as <- <-. apply Forall_cons in H2 as [Hit H2].
    destruct (last rs) as [x |] eqn:Hlast.
    2: { apply last_None in Hlast. subst rs. simpl in Hlen. lia. }
    assert (Hxx : le zero x).
    { rewrite Forall_forall in Hnum. apply Hnum.
      rewrite last_lookup in Hlast. eapply list_elem_of_lookup_2. exact Hlast. }
    exists (rs ++ [x]), queue, [], x.
    split.
    { unfold seed. rewrite read_fmap, Hit.
      rewrite (lookup_ge_None_2 rs (length rs)) by lia.
      destruct (length rs) as [| k] eqn:Ek; [lia |].
      rewrite read_fmap. rewrite last_lookup, Ek in Hlast. simpl in Hlast.
      rewrite Hlast, <- Ek. apply write_fmap_end. }
    split; [rewrite length_app; simpl; lia |].
    split; [rewrite Hit, lookup_app_r, Nat.sub_diag by lia; reflexivity |].
    split; [rewrite lookup_app_l by lia; reflexivity |].
    split; [apply nondecreasing_snoc; [assumption | assumption | exact (le_refl_r _ _ Hxx)] |].
    split; [apply Forall_app; split; [exact Hnum | repeat constructor; exact Hxx] |].
    split; [rewrite app_nil_r; reflexivity |].
    split; [| constructor].
    eapply Forall_impl; [exact H2 |]. intros it' Hit'. cbn beta in Hit'.
    rewrite length_app. simpl. lia.
  - (* another item of the level being accumulated *)
    injection Hq as <- ->. apply Forall_cons in H1 as [Hit H1].
    destruct (rs !! q_depth it) as [x |] eqn:Hx.
    2: { apply lookup_ge_None in Hx. lia. }
    exists rs, q1', q2, x.
    split; [unfold seed; rewrite read_fmap, Hx; reflexivity |].
    repeat split; auto.
Qed.

Lemma children_depth st p depth act :
  Forall (fun it => q_depth it = S depth) (children st p depth act).
Proof.
  unfold children. induction act as [| a act IH]; simpl; [constructor |].
  destruct (fst a - 1 =? st)%Z; simpl; [exact IH | constructor; [reflexivity | exact IH]].
Qed.

Lemma children_unit st p depth act :
  le zero p -> le p one ->
  Forall (fun o : Outcome => le zero (snd o) /\ le (snd o) one) act ->
  Forall (fun it => le zero (q_p it) /\ le (q_p it) one) (children st p depth act).
Proof.
  intros Hp Hp1 Hact. unfold children.
  induction Hact as [| a act [Ha Ha1] Hact IH]; simpl; [constructor |].
  destruct (fst a - 1 =? st)%Z; simpl; [exact IH |].
  constructor; [apply le_mul_unit; assumption | exact IH].
Qed.

(** One round of the loop keeps the invariant and the first entry. *)
Lemma profile_step_inv d n it queue rs queue' results' :
  unit_policy d ->
  profile_inv (it :: queue) rs ->
  profile_step d n it queue (Some <$> rs) = Normal (queue', results') ->
  exists rs', results' = Some <$> rs' /\ profile_inv queue' rs' /\
              rs' !! 0 = rs !! 0.
Proof.
  intros Hpol Hinv Hstep.
  destruct (seed_inv it queue rs Hinv)
    as (rs1 & qa & qb & x & Hseed & Hlen1 & Hx & Hfirst & Hmono1 & Hnum1 & Hq & Ha & Hb).
  destruct Hinv as [_ _ Hdepth Hp _ _].
  apply Forall_cons in Hdepth as [Hd Hdepth].
  apply Forall_cons in Hp as [[Hpit Hpit1] Hp].
  assert (Hbase : profile_inv queue rs1).
  { constructor; auto; [exists qa, qb; auto | lia]. }
  unfold profile_step in Hstep. rewrite Hseed in Hstep.
  destruct (symbol d (q_state it) n) as [sym |]; [| discriminate].
  destruct (isD sym).
  { injection Hstep as <- <-. exists rs1. auto. }
  destruct (negb (isU sym)).
  { injection Hstep as <- <-.
    rewrite read_fmap, Hx. cbn [addU]. rewrite write_fmap_lt by lia.
    assert (Hxx : le zero x).
    { rewrite Forall_forall in Hnum1. apply Hnum1.
      eapply list_elem_of_lookup_2. exact Hx. }
    exists (<[q_depth it := add x (q_p it)]> rs1).
    split; [reflexivity |]. split.
    - constructor.
      + exists qa, qb. rewrite length_insert. auto.
      + rewrite length_insert. lia.
      + exact Hdepth.
      + exact Hp.
      + apply nondecreasing_raise_last; auto.
      + apply Forall_insert; [exact Hnum1 |].
        exact (le_trans _ _ _ Hxx (le_add_r x (q_p it) Hxx Hpit Hpit1)).
    - rewrite list_lookup_insert_ne by lia. exact Hfirst. }
  destruct (transitions d !! q_state it) as [acts |] eqn:Hacts; [| discriminate].
  destruct (getU acts (policy d !! q_state it)) as [act |] eqn:Hact.
  2: { injection Hstep as <- <-. exists rs1. auto. }
  injection Hstep as <- <-. exists rs1. split; [reflexivity |]. split; [| exact Hfirst].
  assert (Hnn : Forall (fun o : Outcome => le zero (snd o) /\ le (snd o) one) act).
  { unfold getU in Hact. destruct (policy d !! q_state it) as [a |]; [| discriminate].
    exact (Hpol _ _ Hacts _ _ Hact). }
  constructor.
  - exists qa, (qb ++ children (q_state it) (q_p it) (q_depth it) act).
    split; [rewrite Hq, app_assoc; reflexivity |]. split; [exact Ha |].
    apply Forall_app. split; [exact Hb |]. rewrite Hlen1. apply children_depth.
  - lia.
  - apply Forall_app. split; [exact Hdepth |].
    eapply Forall_impl; [apply children_depth |]. intros it' Hit'. cbn beta in Hit'. lia.
  - apply Forall_app. split; [exact Hp |]. apply children_unit; assumption.
  - exact Hmono1.
  - exact Hnum1.
Qed.

(** The loop, from a state that satisfies the invariant. *)
Lemma profile_loop_inv d n rounds : forall queue rs results,
  unit_policy d ->
  profile_inv queue rs ->
  profile_loop d n rounds queue (Some <$> rs) = Some (Normal results) ->
  exists rs', results = Some <$> rs' /\ nondecreasing rs' /\ rs' !! 0 = rs !! 0.
Proof.
  induction rounds as [| rounds IH]; intros queue rs results Hpol Hinv Hrun.
  - destruct queue; [| discriminate]. simpl in Hrun. injection Hrun as <-.
    exists rs. split; [reflexivity |]. split; [apply Hinv | reflexivity].
  - destruct queue as [| it queue].
    { simpl in Hrun. injection Hrun as <-.
      exists rs. split; [reflexivity |]. split; [apply Hinv | reflexivity]. }
    simpl in Hrun.
    destruct (profile_step d n it queue (Some <$> rs)) as [[queue1 results1] | e] eqn:Hstep;
      [| discriminate].
    destruct (profile_step_inv _ _ _ _ _ _ _ Hpol Hinv Hstep) as (rs1 & -> & Hinv1 & Hfirst).
    destruct (IH _ _ _ Hpol Hinv1 Hrun) as (rs' & -> & Hmono & Hfirst').
    exists rs'. split; [reflexivity |]. split; [exact Hmono | congruence].
Qed.

Lemma nondecreasing_single (x : R) : nondecreasing [x].
Proof. intros k a b Ha Hb. destruct k; discriminate. Qed.

Lemma profile_inv_single (x : R) : le zero x -> profile_inv [] [x].
Proof.
  intros Hx. constructor.
  - exists [], []. repeat split; constructor.
  - simpl. lia.
  - constructor.
  - constructor.
  - apply nondecreasing_single.
  - repeat constructor. exact Hx.
Qed.

Lemma profile_of_return (c : Cursor) rounds n results :
  unit_policy (data c) ->
  energizationProbabilities c rounds n = Some (Normal results) ->
  exists s sym rs,
    state c = Some s /\
    symbol (data c) s n = Some sym /\
    results = Some <$> rs /\
    nondecreasing rs /\
    rs !! 0 = Some (if isD sym || isU sym then zero else one).
Proof.
  intros Hpol Hrun. unfold energizationProbabilities in Hrun.
  destruct (state c) as [s |]; [| discriminate].
  unfold _energizationProbabilities in Hrun.
  destruct rounds as [| rounds]; [discriminate |].
  cbn [profile_loop] in Hrun.
  destruct (profile_step (data c) n (mkItem s one 0) [] [Some zero])
    as [[queue1 results1] | e] eqn:Hstep; [| discriminate].
  unfold profile_step in Hstep. cbn [q_depth q_state q_p] in Hstep.
  change (seed [Some zero] 0) with [Some zero] in Hstep.
  destruct (symbol (data c) s n) as [sym |] eqn:Hsym; [| discriminate].
  exists s, sym. 
  pose proof (profile_inv_single zero le_zero_zero) as Hzero.
  destruct (isD sym) eqn:HD.
  { injection Hstep as <- <-.
    destruct (profile_loop_inv _ n rounds [] [zero] results Hpol Hzero Hrun)
      as (rs & -> & Hmono & Hfirst).
    exists rs. repeat split; auto. }
  destruct (isU sym) eqn:HU; cbn [negb orb] in *.
  - destruct (transitions (data c) !! s) as [acts |] eqn:Hacts; [| discriminate].
    destruct (getU acts (policy (data c) !! s)) as [act |] eqn:Hact.
    + injection Hstep as <- <-.
      assert (Hnn : Forall (fun o : Outcome => le zero (snd o) /\ le (snd o) one) act).
      { unfold getU in Hact. destruct (policy (data c) !! s) as [a |]; [| discriminate].
        exact (Hpol _ _ Hacts _ _ Hact). }
      assert (Hinv : profile_inv ([] ++ children s one 0 act) [zero]).
      { constructor.
        - exists [], (children s one 0 act). repeat split; [constructor |].
          apply children_depth.
        - simpl. lia.
        - eapply Forall_impl; [apply children_depth |].
          intros it' Hit'. cbn beta in Hit'. lia.
        - apply children_unit;
            [exact le_zero_one | exact (le_refl_r _ _ le_zero_one) | exact Hnn].
        - apply nondecreasing_single.
        - repeat constructor. exact le_zero_zero. }
      destruct (profile_loop_inv _ n rounds _ [zero] results Hpol Hinv Hrun)
        as (rs & -> & Hmono & Hfirst).
      exists rs. repeat split; auto.
    + injection Hstep as <- <-.
      destruct (profile_loop_inv _ n rounds [] [zero] results Hpol Hzero Hrun)
        as (rs & -> & Hmono & Hfirst).
      exists rs. repeat split; auto.
  - injection Hstep as <- <-.
    change (write [Some zero] 0 (Some (addU (read [Some zero] 0) one)))
      with ([Some (add zero one)]) in Hrun.
    rewrite add_zero_one in Hrun.
    pose proof (profile_inv_single one le_zero_one) as Hone.
    destruct (profile_loop_inv _ n rounds [] [one] results Hpol Hone Hrun)
      as (rs & -> & Hmono & Hfirst).
    exists rs. repeat split; auto.
Qed.

(** C2: when the outcome probabilities are probabilities, numbers
    between zero and one, the array energizationProbabilities(n) returns
    has no hole, every entry of it is at least the entry before it, and
    its first entry is exactly 1 when the symbol of node [n] in the
    current state is an energized one (neither "D" nor "U") and exactly 0
    otherwise.  The call does return such an array when the policy
    descends along a rank from the current state.  The carrier is any
    one with the order facts of [NumOrder]: binary64 with its rounding,
    the numbers the program computes with, and the exact rationals. *)
Theorem energizationProbabilities_monotone (c : Cursor) n :
  unit_policy (data c) ->
  (forall rounds results,
     energizationProbabilities c rounds n = Some (Normal results) ->
     exists s sym rs,
       state c = Some s /\
       symbol (data c) s n = Some sym /\
       results = Some <$> rs /\
       nondecreasing rs /\
       rs !! 0 = Some (if isD sym || isU sym then zero else one)) /\
  (forall rank B s,
     state c = Some s ->
     is_Some (lookupZ (states (data c)) s) ->
     descends (data c) n rank B ->
     exists results,
       energizationProbabilities c (S B ^ rank s) n = Some (Normal results)).
Proof.
  intros Hpol. split.
  - intros rounds results. apply profile_of_return. exact Hpol.
  - intros rank B s. apply energizationProbabilities_returns.
Qed.

End ProfileProperties.

(** ** The sweep over all nodes *)

Section SweepProperties.
Context {R : Type} `{Num R}.
Implicit Types (d : Policy.PolicyData (R := R)).

Import Policy.

Lemma map_run_not_normal {A B} (f : A -> Run B) (l : list A) :
  Exists (fun a => forall b, f a <> Some (Normal b)) l ->
  forall bs, map_run f l <> Some (Normal bs).
Proof.
  induction l as [| a l IH]; intros Hex bs Hrun; [inversion Hex |].
  simpl in Hrun.
  destruct (f a) as [[b | e] |] eqn:Hfa; try discriminate.
  apply Exists_cons in Hex as [Hhere | Hlater].
  - exact (Hhere b Hfa).
  - destruct (map_run f l) as [[bs' | e] |] eqn:Hl; try discriminate.
    exact (IH Hlater bs' eq_refl).
Qed.

(** A state whose policy action has several outcomes, one of them leading
    back to the state itself (outcome [[k, p]] being read as state
    [k - 1]), never gets a vector from _allEnergizationProb: the call
    re-enters the same state at every depth. *)
Lemma _allEnergizationProb_reenters d st (acts : gmap Z Action) (act : Action) :
  transitions d !! st = Some acts ->
  getU acts (policy d !! st) = Some act ->
  1 < length act ->
  Exists (fun a : Outcome => (fst a - 1)%Z = st) act ->
  forall depth v, _allEnergizationProb d depth st <> Some (Normal v).
Proof.
  intros Hacts Hact Hlen Hself depth.
  induction depth as [| depth IH]; intros v Hrun; [discriminate |].
  cbn [_allEnergizationProb] in Hrun.
  destruct (lookupZ (states d) st) as [snap |]; [| discriminate].
  rewrite Hacts, Hact in Hrun.
  replace (length act =? 1) with false in Hrun
    by (symmetry; apply Nat.eqb_neq; lia).
  cbn [andb] in Hrun.
  match type of Hrun with
  | match map_run ?f act with _ => _ end = _ =>
    destruct (map_run f act) as [[vs | e] |] eqn:Hmap; try discriminate;
    revert Hmap; apply map_run_not_normal
  end.
  eapply Exists_impl; [exact Hself |].
  intros a Ha b Hb. cbn beta in Ha. rewrite Ha in Hb.
  destruct (_allEnergizationProb d depth st) as [[r | e] |] eqn:Hrec; try discriminate.
  exact (IH r eq_refl).
Qed.

(** When the outcome leading back to the state is the first of several,
    the call does not return at all: every bound on the recursion depth
    is reached. *)
Lemma _allEnergizationProb_diverges d st snap (acts : gmap Z Action)
    (a : Outcome) (rest : Action) :
  lookupZ (states d) st = Some snap ->
  transitions d !! st = Some acts ->
  getU acts (policy d !! st) = Some (a :: rest) ->
  rest <> [] ->
  (fst a - 1)%Z = st ->
  forall depth, _allEnergizationProb d depth st = None.
Proof.
  intros Hsnap Hacts Hact Hrest Hself depth.
  induction depth as [| depth IH]; [reflexivity |].
  cbn [_allEnergizationProb]. rewrite Hsnap, Hacts, Hact.
  replace (length (a :: rest) =? 1) with false
    by (destruct rest; [congruence | reflexivity]).
  cbn [andb map_run]. rewrite Hself, IH. reflexivity.
Qed.

Lemma one_based_action d st :
  transitions (one_based d) !! st
    ≫= (fun acts : gmap Z Action => getU acts (policy (one_based d) !! st)) =
  map (fun o : Outcome => ((fst o - 1)%Z, snd o))
    <$> (transitions d !! st
           ≫= (fun acts : gmap Z Action => getU acts (policy d !! st))).
Proof.
  unfold one_based. cbn [transitions policy]. rewrite lookup_fmap.
  destruct (transitions d !! st) as [acts |]; [| reflexivity].
  cbn. unfold getU. destruct (policy d !! st) as [a |]; [| reflexivity].
  cbn. apply lookup_fmap.
Qed.

Lemma sole_self_loop_one_based (act : list (Outcome (R := R))) st :
  sole_self_loop (map (fun o : Outcome => ((fst o - 1)%Z, snd o)) act) st =
  (length act =? 1) &&
  bool_decide ((fun a : Outcome => (fst a - 1)%Z) <$> act !! 0 = Some st).
Proof.
  destruct act as [| [t p] [| ? ?]]; cbn; try reflexivity.
  destruct (t - 1 =? st)%Z eqn:E.
  - apply Z.eqb_eq in E. rewrite bool_decide_eq_true_2; congruence.
  - apply Z.eqb_neq in E. rewrite bool_decide_eq_false_2; congruence.
Qed.

(** What _energizationProbability computes when it returns: the
    recursion of the specification over the table read one-based. *)
Lemma _energizationProbability_one_based d n depth : forall st x,
  _energizationProbability d st n depth = Normal x ->
  x = P_spec (one_based d) st n depth.
Proof.
  induction depth as [| depth IH]; intros st x Hrun.
  - cbn [_energizationProbability] in Hrun. cbn [P_spec].
    unfold symbol in Hrun. unfold stateAt, one_based. cbn [states mbind option_bind].
    destruct (lookupZ (states d) st) as [snap |]; [| discriminate].
    cbn in Hrun |- *. congruence.
  - cbn [_energizationProbability] in Hrun. cbn [P_spec].
    unfold symbol in Hrun. unfold stateAt. cbn [one_based states mbind option_bind].
    destruct (lookupZ (states d) st) as [snap |]; [| discriminate].
    cbn [fmap option_fmap option_map mbind option_bind] in Hrun |- *.
    destruct (isD (snap !! n)); [congruence |].
    destruct (negb (isU (snap !! n))); [congruence |].
    rewrite one_based_action.
    destruct (transitions d !! st) as [acts |]; [| discriminate].
    cbn [mbind option_bind].
    destruct (getU acts (policy d !! st)) as [act |]; [| cbn; congruence].
    cbn [fmap option_fmap option_map].
    rewrite sole_self_loop_one_based.
    destruct ((length act =? 1) && _); [congruence |].
    match type of Hrun with
    | match map_completion ?f act with _ => _ end = _ =>
      destruct (map_completion f act) as [xs | e] eqn:Hmap; [| discriminate]
    end.
    injection Hrun as <-. unfold sum. f_equal.
    clear -IH Hmap. revert xs Hmap.
    induction act as [| a act IHact]; intros xs Hmap.
    + cbn in Hmap. injection Hmap as <-. reflexivity.
    + cbn [map_completion] in Hmap. cbn [map fst snd].
      destruct (fst a - 1 =? st)%Z.
      * destruct (map_completion _ act) as [ys |]; [| discriminate].
        injection Hmap as <-. f_equal. apply IHact. reflexivity.
      * destruct (_energizationProbability d (fst a - 1) n depth) as [y |] eqn:Hy;
          [| discriminate].
        destruct (map_completion _ act) as [ys |]; [| discriminate].
        injection Hmap as <-. rewrite (IH _ _ Hy). f_equal. apply IHact. reflexivity.
Qed.

End SweepProperties.

(** ** Binary64 numbers

    The order facts of class [NumOrder], proved of the primitive floats
    from their specification: the operations agree with those of
    [SpecFloat] on mantissas and exponents, so each fact is one about
    the rounding there. *)

Section Binary64.
Import SpecFloat FloatOps FloatAxioms.
Local Open Scope Z_scope.

(** The number of binary digits of a mantissa. *)
Lemma digits_bounds m :
  2 ^ (Zpos (digits2_pos m) - 1) <= Zpos m < 2 ^ Zpos (digits2_pos m).
Proof.
  induction m as [p IH | p IH |]; cbn [digits2_pos].
  - rewrite Pos2Z.inj_succ. replace (Z.succ (Zpos (digits2_pos p)) - 1)
      with (Z.succ (Zpos (digits2_pos p) - 1)) by lia.
    rewrite !Z.pow_succ_r by lia. lia.
  - rewrite Pos2Z.inj_succ. replace (Z.succ (Zpos (digits2_pos p)) - 1)
      with (Z.succ (Zpos (digits2_pos p) - 1)) by lia.
    rewrite !Z.pow_succ_r by lia. lia.
  - cbn. lia.
Qed.

Lemma digits_le m d : 0 <= d -> Zpos m < 2 ^ d -> Zpos (digits2_pos m) <= d.
Proof.
  intros Hd Hlt. destruct (digits_bounds m) as [Hlo _].
  destruct (Z_le_gt_dec (Zpos (digits2_pos m)) d) as [Hle | Hgt]; [exact Hle |].
  assert (2 ^ d <= 2 ^ (Zpos (digits2_pos m) - 1)) by (apply Z.pow_le_mono_r; lia).
  lia.
Qed.

Lemma digits_ge m d : 2 ^ (d - 1) <= Zpos m -> d <= Zpos (digits2_pos m).
Proof.
  intros Hge. destruct (digits_bounds m) as [_ Hhi].
  destruct (Z_le_gt_dec d (Zpos (digits2_pos m))) as [Hle | Hgt]; [exact Hle |].
  assert (2 ^ Zpos (digits2_pos m) <= 2 ^ (d - 1)) by (apply Z.pow_le_mono_r; lia).
  lia.
Qed.

(** Shifting a mantissa to the right. *)
Lemma iter_pos_iter {A} (f : A -> A) p : forall x, iter_pos f p x = Pos.iter f x p.
Proof.
  induction p as [p IH | p IH |]; intros x; cbn [iter_pos Pos.iter].
  - rewrite !IH. rewrite <- !Pos.iter_swap. reflexivity.
  - rewrite !IH. reflexivity.
  - reflexivity.
Qed.

Lemma shr_1_m r : 0 <= shr_m r -> shr_m (shr_1 r) = shr_m r / 2.
Proof.
  destruct r as [m b s]. cbn [shr_m shr_1]. intros Hm.
  destruct m as [| [p | p |] | p]; cbn [shr_m]; try lia.
  - reflexivity.
  - rewrite Pos2Z.inj_xI. apply Z.div_unique with 1; lia.
  - rewrite Pos2Z.inj_xO. apply Z.div_unique with 0; lia.
  - reflexivity.
Qed.

Lemma shr_m_iter k : forall r,
  0 <= shr_m r -> shr_m (Pos.iter shr_1 r k) = shr_m r / 2 ^ Zpos k.
Proof.
  induction k as [| k IH] using Pos.peano_ind; intros r Hr.
  - cbn [Pos.iter]. rewrite shr_1_m by exact Hr. reflexivity.
  - rewrite Pos.iter_succ, shr_1_m.
    + rewrite IH by exact Hr. rewrite Pos2Z.inj_succ, Z.pow_succ_r by lia.
      rewrite Z.div_div by lia. f_equal. lia.
    + rewrite IH by exact Hr. apply Z.div_pos; [exact Hr |]. apply Z.pow_pos_nonneg; lia.
Qed.

Lemma fexp_eq e : fexp prec emax e = Z.max (e - 53) (-1074).
Proof. reflexivity. Qed.

Ltac unfexp :=
  repeat match goal with
         | |- context [fexp prec emax ?x] =>
           change (fexp prec emax x) with (Z.max (x - 53) (-1074))
         | H : context [fexp prec emax ?x] |- _ =>
           change (fexp prec emax x) with (Z.max (x - 53) (-1074)) in H
         end.

(** What the shift to the canonical exponent leaves of a mantissa that
    is exact: the exponent is the larger of the given one and the
    canonical one, the mantissa loses the digits in between. *)
Lemma shr_fexp_spec m e :
  0 <= m ->
  snd (shr_fexp prec emax m e loc_Exact) = Z.max e (fexp prec emax (Zdigits2 m + e)) /\
  shr_m (fst (shr_fexp prec emax m e loc_Exact)) =
    m / 2 ^ (Z.max e (fexp prec emax (Zdigits2 m + e)) - e).
Proof.
  intros Hm. unfold shr_fexp, shr. cbn [shr_record_of_loc].
  set (E := fexp prec emax (Zdigits2 m + e)).
  destruct (E - e) as [| k | k] eqn:Hk; cbn [fst snd shr_m].
  - replace (Z.max e E) with e by lia. rewrite Z.sub_diag, Z.div_1_r. auto.
  - replace (Z.max e E) with (e + Zpos k) by lia. split; [reflexivity |].
    rewrite iter_pos_iter, shr_m_iter by exact Hm. cbn [shr_m].
    f_equal. f_equal. lia.
  - replace (Z.max e E) with e by lia. rewrite Z.sub_diag, Z.div_1_r. auto.
Qed.

Lemma round_nearest_even_bounds m l :
  m <= round_nearest_even m l <= m + 1.
Proof.
  unfold round_nearest_even. destruct l as [| []]; try destruct (Z.even m); lia.
Qed.


Lemma binary_round_aux_spec sx m e :
  0 <= m ->
  exists m2,
    let e1 := Z.max e (fexp prec emax (Zdigits2 m + e)) in
    let e3 := Z.max e1 (fexp prec emax (Zdigits2 m2 + e1)) in
    m / 2 ^ (e1 - e) <= m2 <= m / 2 ^ (e1 - e) + 1 /\
    binary_round_aux prec emax sx m e loc_Exact = finish sx (m2 / 2 ^ (e3 - e1)) e3.
Proof.
  intros Hm. unfold binary_round_aux.
  destruct (shr_fexp_spec m e Hm) as [He1 Hm1].
  destruct (shr_fexp prec emax m e loc_Exact) as [r1 e1'] eqn:Hs1. cbn [fst snd] in *.
  set (m2 := round_nearest_even (shr_m r1) (loc_of_shr_record r1)).
  exists m2. cbv zeta.
  pose proof (round_nearest_even_bounds (shr_m r1) (loc_of_shr_record r1)) as Hb.
  fold m2 in Hb. rewrite Hm1 in Hb. split; [exact Hb |].
  assert (Hm2 : 0 <= m2).
  { assert (0 <= m / 2 ^ (Z.max e (fexp prec emax (Zdigits2 m + e)) - e)).
    { apply Z.div_pos; [exact Hm |]. apply Z.pow_pos_nonneg; lia. }
    lia. }
  destruct (shr_fexp_spec m2 e1' Hm2) as [He3 Hm3].
  destruct (shr_fexp prec emax m2 e1' loc_Exact) as [r3 e3'] eqn:Hs3. cbn [fst snd] in *.
  subst e1'. rewrite <- Hm3, <- He3. reflexivity.
Qed.

(** A mantissa and an exponent of a binary64 number. *)
Lemma bounded_spec m e :
  bounded prec emax m e = true ->
  fexp prec emax (Zpos (digits2_pos m) + e) = e /\ e <= 971.
Proof.
  unfold bounded, canonical_mantissa. intros Hb.
  apply andb_true_iff in Hb as [Hc He].
  apply Z.eqb_eq in Hc. apply Z.leb_le in He. split; [exact Hc | exact He].
Qed.

Lemma iter_xO m d : Zpos (Pos.iter xO m d) = Zpos m * 2 ^ Zpos d.
Proof.
  induction d as [| d IH] using Pos.peano_ind.
  - cbn [Pos.iter]. rewrite Pos2Z.inj_xO. lia.
  - rewrite Pos.iter_succ, Pos2Z.inj_xO, IH, Pos2Z.inj_succ, Z.pow_succ_r by lia. lia.
Qed.

Lemma shl_align_spec m e e' :
  Zpos (fst (shl_align m e e')) = Zpos m * 2 ^ (e - Z.min e e') /\
  snd (shl_align m e e') = Z.min e e'.
Proof.
  unfold shl_align. destruct (e' - e) as [| d | d] eqn:Hd; cbn [fst snd].
  - replace (Z.min e e') with e by lia. rewrite Z.sub_diag. split; lia.
  - replace (Z.min e e') with e by lia. rewrite Z.sub_diag. split; lia.
  - replace (Z.min e e') with e' by lia. rewrite iter_xO.
    replace (e - e') with (Zpos d) by lia. auto.
Qed.

Lemma binary_round_no_shift sx m e :
  e <= fexp prec emax (Zpos (digits2_pos m) + e) ->
  binary_round prec emax sx m e = binary_round_aux prec emax sx (Zpos m) e loc_Exact.
Proof.
  intros Hle. unfold binary_round, shl_align.
  destruct (fexp prec emax (Zpos (digits2_pos m) + e) - e) eqn:Hd; try reflexivity. lia.
Qed.

(** The mantissa a shift to the canonical exponent leaves is positive
    when the exponent is not below the least one. *)
Lemma shifted_pos m e :
  0 < m -> -1074 <= e ->
  0 < m / 2 ^ (Z.max e (fexp prec emax (Zdigits2 m + e)) - e).
Proof.
  intros Hm He. destruct m as [| p | p]; try lia. cbn [Zdigits2].
  rewrite fexp_eq. destruct (digits_bounds p) as [Hlo _].
  set (D := Zpos (digits2_pos p)) in *.
  destruct (Z_le_gt_dec (Z.max (D + e - 53) (-1074)) e) as [Hle | Hgt].
  - replace (Z.max e _) with e by lia. rewrite Z.sub_diag, Z.div_1_r. lia.
  - replace (Z.max e (Z.max (D + e - 53) (-1074)) - e) with (D - 53) by lia.
    assert (Hk : 0 < D - 53) by lia.
    apply Z.div_str_pos. split; [apply Z.pow_pos_nonneg; lia |].
    eapply Z.le_trans; [| exact Hlo]. apply Z.pow_le_mono_r; lia.
Qed.

Lemma finish_pos sx m3 e3 :
  0 < m3 ->
  exists p, m3 = Zpos p /\
    finish sx m3 e3 =
      if e3 <=? emax - prec then S754_finite sx p e3 else S754_infinity sx.
Proof. intros Hm. destruct m3 as [| p | p]; try lia. exists p. auto. Qed.

(** Rounding does not go below a binary64 number that is at most the
    value rounded. *)
Lemma round_ge mx ex M e :
  bounded prec emax mx ex = true ->
  -1074 <= e -> e <= ex ->
  Zpos mx * 2 ^ (ex - e) <= Zpos M ->
  SFleb (S754_finite false mx ex)
        (binary_round_aux prec emax false (Zpos M) e loc_Exact) = true.
Proof.
  intros Hb Hemin Hle HM.
  destruct (bounded_spec _ _ Hb) as [Hcan _]. rewrite fexp_eq in Hcan.
  destruct (binary_round_aux_spec false (Zpos M) e ltac:(lia)) as (m2 & Hm2 & ->).
  cbv zeta in *. cbn [Zdigits2] in *.
  destruct (digits_bounds mx) as [Hlo _].
  assert (HD : Zpos (digits2_pos mx) + ex - e <= Zpos (digits2_pos M)).
  { apply digits_ge. eapply Z.le_trans; [| exact HM].
    replace (Zpos (digits2_pos mx) + ex - e - 1)
      with ((Zpos (digits2_pos mx) - 1) + (ex - e)) by lia.
    rewrite Z.pow_add_r by lia. apply Z.mul_le_mono_nonneg_r; [| exact Hlo].
    apply Z.pow_nonneg. lia. }
  pose proof (shifted_pos (Zpos M) e ltac:(lia) Hemin) as Hm1. cbn [Zdigits2] in Hm1.
  unfexp.
  set (E := Z.max (Zpos (digits2_pos M) + e - 53) (-1074)) in *.
  assert (HE : ex <= E) by (unfold E; lia).
  replace (Z.max e E) with E in * by lia.
  assert (Hm2pos : 0 < m2) by lia.
  pose proof (shifted_pos m2 E Hm2pos ltac:(lia)) as Hm3. unfexp.
  set (e3 := Z.max E (Z.max (Zdigits2 m2 + E - 53) (-1074))) in *.
  destruct (finish_pos false _ e3 Hm3) as (p & Hp & ->).
  destruct (e3 <=? emax - prec); [| reflexivity].
  unfold SFleb, SFcompare.
  destruct (Z.compare_spec ex e3) as [Heq | Hlt | Hgt]; [| reflexivity | lia].
  assert (HeE : e3 = E) by lia.
  rewrite HeE, Z.sub_diag, Z.div_1_r in Hp. subst m2.
  assert (Hmx : Zpos mx <= Zpos p).
  { eapply Z.le_trans; [| apply Hm2].
    apply Z.div_le_lower_bound; [apply Z.pow_pos_nonneg; lia |].
    replace E with ex by lia. lia. }
  rewrite Pos.compare_cont_spec. cbn [Pos.switch_Eq].
  destruct (Pos.compare_spec mx p); try reflexivity. lia.
Qed.

Lemma binary_round_ge mx ex M e :
  bounded prec emax mx ex = true ->
  -1074 <= e -> e <= ex ->
  Zpos mx * 2 ^ (ex - e) <= Zpos M ->
  SFleb (S754_finite false mx ex) (binary_round prec emax false M e) = true.
Proof.
  intros Hb Hemin Hle HM. rewrite binary_round_no_shift.
  - apply round_ge; assumption.
  - destruct (bounded_spec _ _ Hb) as [Hcan _]. unfexp.
    destruct (digits_bounds mx) as [Hlo _].
    assert (HD : Zpos (digits2_pos mx) + ex - e <= Zpos (digits2_pos M)).
    { apply digits_ge. eapply Z.le_trans; [| exact HM].
      replace (Zpos (digits2_pos mx) + ex - e - 1)
        with ((Zpos (digits2_pos mx) - 1) + (ex - e)) by lia.
      rewrite Z.pow_add_r by lia. apply Z.mul_le_mono_nonneg_r; [| exact Hlo].
      apply Z.pow_nonneg. lia. }
    lia.
Qed.

(** Adding a binary64 number that is at least zero does not decrease a
    binary64 number that is at least zero. *)
Lemma SFadd_ge mx ex mp ep :
  bounded prec emax mx ex = true ->
  bounded prec emax mp ep = true ->
  SFleb (S754_finite false mx ex)
        (SFadd prec emax (S754_finite false mx ex) (S754_finite false mp ep)) = true.
Proof.
  intros Hx Hp. unfold SFadd. cbn [cond_Zopp].
  destruct (bounded_spec _ _ Hx) as [Hcx _]. destruct (bounded_spec _ _ Hp) as [Hcp _].
  unfexp.
  destruct (shl_align_spec mx ex (Z.min ex ep)) as [Ha _].
  destruct (shl_align_spec mp ep (Z.min ex ep)) as [Hb _].
  set (a := fst (shl_align mx ex (Z.min ex ep))) in *.
  set (b := fst (shl_align mp ep (Z.min ex ep))) in *.
  change (Zpos a + Zpos b) with (Zpos (a + b)). cbn [binary_normalize].
  apply binary_round_ge; [exact Hx | lia | lia |].
  rewrite Pos2Z.inj_add, Ha.
  replace (Z.min ex (Z.min ex ep)) with (Z.min ex ep) by lia. lia.
Qed.


(** A product below one rounds to a number between zero and one. *)
Lemma round_unit M e :
  e <= -53 ->
  Zpos (digits2_pos M) + e <= 0 ->
  SFleb sf_zero (binary_round_aux prec emax false (Zpos M) e loc_Exact) = true /\
  SFleb (binary_round_aux prec emax false (Zpos M) e loc_Exact) sf_one = true.
Proof.
  intros He HD.
  destruct (binary_round_aux_spec false (Zpos M) e ltac:(lia)) as (m2 & Hm2 & ->).
  cbv zeta in *. cbn [Zdigits2] in *. unfexp.
  destruct (digits_bounds M) as [_ Hhi].
  set (D := Zpos (digits2_pos M)) in *.
  set (e1 := Z.max e (Z.max (D + e - 53) (-1074))) in *.
  assert (He1 : e1 <= -53) by (unfold e1; lia).
  assert (He1' : -1074 <= e1) by (unfold e1; lia).
  assert (Hk : 0 <= e1 - e /\ D - 53 <= e1 - e) by (unfold e1; lia).
  assert (Hm1 : 0 <= Zpos M / 2 ^ (e1 - e) < 2 ^ 53).
  { split; [apply Z.div_pos; [lia | apply Z.pow_pos_nonneg; lia] |].
    apply Z.div_lt_upper_bound; [apply Z.pow_pos_nonneg; lia |].
    rewrite <- Z.pow_add_r by lia.
    eapply Z.lt_le_trans; [exact Hhi |]. apply Z.pow_le_mono_r; lia. }
  assert (Hm2' : 0 <= m2 <= 2 ^ 53) by lia.
  set (e3 := Z.max e1 (Z.max (Zdigits2 m2 + e1 - 53) (-1074))) in *.
  assert (Hd2 : Zdigits2 m2 <= 54).
  { destruct m2 as [| p | p]; cbn [Zdigits2]; try lia.
    apply digits_le; [lia |]. change (2 ^ 54) with (2 * 2 ^ 53). lia. }
  assert (He3 : e1 <= e3 <= e1 + 1) by (unfold e3; lia).
  assert (Hm3 : 0 <= m2 / 2 ^ (e3 - e1)).
  { apply Z.div_pos; [lia | apply Z.pow_pos_nonneg; lia]. }
  destruct (m2 / 2 ^ (e3 - e1)) as [| p | p] eqn:Hp; try lia; cbn [finish].
  - split; reflexivity.
  - replace (e3 <=? emax - prec) with true
      by (symmetry; apply Z.leb_le; change (emax - prec) with 971; lia).
    split; [reflexivity |].
    unfold SFleb, sf_one, SFcompare.
    destruct (Z.compare_spec e3 (-52)) as [Heq | Hlt | Hgt]; [| reflexivity | lia].
    (* the carry: the mantissa is 2^53 and loses one digit *)
    assert (He3' : e3 = e1 + 1) by lia.
    assert (Hd54 : Zdigits2 m2 = 54) by (unfold e3 in He3'; lia).
    assert (Hm2eq : m2 = 2 ^ 53).
    { destruct m2 as [| q | q]; cbn [Zdigits2] in Hd54; try lia.
      destruct (digits_bounds q) as [Hlo _]. rewrite Hd54 in Hlo.
      change (2 ^ (54 - 1)) with (2 ^ 53) in Hlo. lia. }
    rewrite Hm2eq, He3' in Hp. replace (e1 + 1 - e1) with 1 in Hp by lia.
    vm_compute in Hp. injection Hp as <-. reflexivity.
Qed.

Lemma le_one_spec m e :
  bounded prec emax m e = true ->
  SFleb (S754_finite false m e) sf_one = true ->
  (m = 4503599627370496%positive /\ e = -52) \/
  (e <= -53 /\ Zpos (digits2_pos m) + e <= 0).
Proof.
  intros Hb Hle. destruct (bounded_spec _ _ Hb) as [Hcan _]. unfexp.
  unfold SFleb, sf_one, SFcompare in Hle.
  destruct (Z.compare_spec e (-52)) as [Heq | Hlt | Hgt]; [| right; lia | discriminate].
  left. split; [| exact Heq].
  rewrite Pos.compare_cont_spec in Hle. cbn [Pos.switch_Eq] in Hle.
  destruct (digits_bounds m) as [Hlo _].
  assert (HD : Zpos (digits2_pos m) = 53) by lia.
  rewrite HD in Hlo. change (2 ^ (53 - 1)) with 4503599627370496 in Hlo.
  assert (Hm : (m <= 4503599627370496)%positive).
  { unfold Pos.le. destruct (m ?= 4503599627370496)%positive; discriminate. }
  clear Hle Hcan Hb HD.
  apply Pos2Z.inj. apply Z.le_antisymm; [apply Pos2Z.pos_le_pos; exact Hm | exact Hlo].
Qed.

Lemma digits_mul a b k :
  0 <= k -> Zpos a < 2 ^ k ->
  Zpos (digits2_pos (a * b)) <= k + Zpos (digits2_pos b).
Proof.
  intros Hk Ha. destruct (digits_bounds b) as [_ Hb].
  apply digits_le; [lia |]. rewrite Pos2Z.inj_mul, Z.pow_add_r by lia.
  apply Z.mul_lt_mono_nonneg; lia.
Qed.

Lemma digits_mul_pow2 b :
  Zpos (digits2_pos (4503599627370496 * b)) <= 52 + Zpos (digits2_pos b).
Proof.
  destruct (digits_bounds b) as [_ Hb].
  apply digits_le; [lia |]. rewrite Pos2Z.inj_mul, Z.pow_add_r by lia.
  change (2 ^ 52) with 4503599627370496. lia.
Qed.

(** The product of two binary64 numbers between zero and one lies
    between zero and one. *)
Lemma SFmul_unit mp ep mq eq :
  bounded prec emax mp ep = true ->
  bounded prec emax mq eq = true ->
  SFleb (S754_finite false mp ep) sf_one = true ->
  SFleb (S754_finite false mq eq) sf_one = true ->
  SFleb sf_zero (SFmul prec emax (S754_finite false mp ep) (S754_finite false mq eq)) = true /\
  SFleb (SFmul prec emax (S754_finite false mp ep) (S754_finite false mq eq)) sf_one = true.
Proof.
  intros Hp Hq Hp1 Hq1. unfold SFmul. cbn [xorb].
  destruct (bounded_spec _ _ Hp) as [Hcp _]. destruct (bounded_spec _ _ Hq) as [Hcq _].
  unfexp.
  destruct (le_one_spec _ _ Hp Hp1) as [[-> ->] | [Hep Hdp]];
    destruct (le_one_spec _ _ Hq Hq1) as [[-> ->] | [Heq Hdq]].
  - split; vm_compute; reflexivity.
  - apply round_unit; [lia |]. pose proof (digits_mul_pow2 mq). lia.
  - apply round_unit; [lia |]. rewrite Pos.mul_comm. pose proof (digits_mul_pow2 mp). lia.
  - apply round_unit; [lia |].
    destruct (digits_bounds mp) as [_ Hmp].
    pose proof (digits_mul mp mq (Zpos (digits2_pos mp)) ltac:(lia) Hmp). lia.
Qed.

(** The order of binary64 numbers. *)
Lemma SFcompare_refl x : x <> S754_nan -> SFcompare x x = Some Eq.
Proof.
  destruct x as [s | s | | s m e]; intros Hx; try congruence; cbn [SFcompare].
  - reflexivity.
  - destruct s; reflexivity.
  - rewrite Z.compare_refl, Pos.compare_cont_spec, Pos.compare_refl.
    destruct s; reflexivity.
Qed.

Lemma SFleb_refl_l x y : SFleb x y = true -> SFleb x x = true.
Proof.
  intros Hle. unfold SFleb. rewrite SFcompare_refl; [reflexivity |].
  intros ->. discriminate.
Qed.

Lemma SFleb_refl_r x y : SFleb x y = true -> SFleb y y = true.
Proof.
  intros Hle. unfold SFleb. rewrite SFcompare_refl; [reflexivity |].
  intros ->. destruct x; discriminate.
Qed.

Ltac order_cases :=
  repeat match goal with
         | H : context [Z.compare ?a ?b] |- _ => destruct (Z.compare_spec a b)
         | |- context [Z.compare ?a ?b] => destruct (Z.compare_spec a b)
         | H : context [Pos.compare ?a ?b] |- _ => destruct (Pos.compare_spec a b)
         | |- context [Pos.compare ?a ?b] => destruct (Pos.compare_spec a b)
         end.

Lemma SFleb_trans x y z : SFleb x y = true -> SFleb y z = true -> SFleb x z = true.
Proof.
  unfold SFleb. intros Hxy Hyz.
  destruct x as [sx | sx | | sx mx ex], y as [sy | sy | | sy my ey],
    z as [sz | sz | | sz mz ez];
    cbn [SFcompare] in *; try discriminate; try reflexivity;
    repeat match goal with s : bool |- _ => destruct s end;
    try discriminate; try reflexivity;
    rewrite ?Pos.compare_cont_spec in *; cbn [Pos.switch_Eq] in *;
    order_cases; cbn [CompOpp] in *; try discriminate; try reflexivity; lia.
Qed.

(** Adding a number between zero and one to a number that is at least
    zero. *)
Lemma SFadd_nonneg_ge x p :
  valid_binary x = true -> valid_binary p = true ->
  SFleb sf_zero x = true ->
  SFleb sf_zero p = true -> SFleb p sf_one = true ->
  SFleb x (SFadd prec emax x p) = true.
Proof.
  intros Hvx Hvp Hx Hp Hp1.
  destruct x as [sx | [|] | | [|] mx ex]; try discriminate;
    destruct p as [sp | [|] | | [|] mp ep]; try discriminate;
    cbn [SFadd].
  - destruct sx, sp; reflexivity.
  - reflexivity.
  - reflexivity.
  - reflexivity.
  - apply (SFleb_refl_r sf_zero). exact Hx.
  - apply SFadd_ge; assumption.
Qed.

(** Multiplying two numbers between zero and one. *)
Lemma SFmul_unit_interval p q :
  valid_binary p = true -> valid_binary q = true ->
  SFleb sf_zero p = true -> SFleb p sf_one = true ->
  SFleb sf_zero q = true -> SFleb q sf_one = true ->
  SFleb sf_zero (SFmul prec emax p q) = true /\
  SFleb (SFmul prec emax p q) sf_one = true.
Proof.
  intros Hvp Hvq Hp Hp1 Hq Hq1.
  destruct p as [sp | [|] | | [|] mp ep]; try discriminate;
    destruct q as [sq | [|] | | [|] mq eq]; try discriminate;
    cbn [SFmul].
  - split; reflexivity.
  - split; reflexivity.
  - split; reflexivity.
  - apply SFmul_unit; assumption.
Qed.

(** The same facts of the primitive floats, through their
    specification. *)

Lemma float_le_spec x y : float_le x y <-> SFleb (Prim2SF x) (Prim2SF y) = true.
Proof. unfold float_le. rewrite leb_spec. reflexivity. Qed.

Lemma Prim2SF_zero : Prim2SF 0%float = sf_zero.
Proof. vm_compute. reflexivity. Qed.

Lemma Prim2SF_one : Prim2SF 1%float = sf_one.
Proof. vm_compute. reflexivity. Qed.

Lemma float_le_refl_l x y : float_le x y -> float_le x x.
Proof. rewrite !float_le_spec. apply SFleb_refl_l. Qed.

Lemma float_le_refl_r x y : float_le x y -> float_le y y.
Proof. rewrite !float_le_spec. apply SFleb_refl_r. Qed.

Lemma float_le_trans x y z : float_le x y -> float_le y z -> float_le x z.
Proof. rewrite !float_le_spec. apply SFleb_trans. Qed.

Lemma float_le_add_r x p :
  float_le 0 x -> float_le 0 p -> float_le p 1 -> float_le x (x + p).
Proof.
  rewrite !float_le_spec, add_spec, Prim2SF_zero, Prim2SF_one.
  apply SFadd_nonneg_ge; apply Prim2SF_valid.
Qed.

Lemma float_le_mul_unit p q :
  float_le 0 p -> float_le p 1 -> float_le 0 q -> float_le q 1 ->
  float_le 0 (p * q) /\ float_le (p * q) 1.
Proof.
  rewrite !float_le_spec, mul_spec, Prim2SF_zero, Prim2SF_one.
  apply SFmul_unit_interval; apply Prim2SF_valid.
Qed.

End Binary64.

(** * The claims at concrete inputs *)

#[global] Instance qnum_NumOrder : NumOrder qnum.
Proof.
  refine {| le := qnum_le |}.
  - intros [a |] [b |]; simpl; try contradiction. intros _. apply Qle_refl.
  - intros [a |] [b |]; simpl; try contradiction. intros _. apply Qle_refl.
  - intros [a |] [b |] [c |]; simpl; try contradiction. apply Qle_trans.
  - simpl. discriminate.
  - intros [a |] [b |]; simpl; try contradiction. intros _ Hb _. lra.
  - intros [a |] [b |]; simpl; try contradiction. intros Ha Ha1 Hb Hb1. split; nra.
  - reflexivity.
Defined.

#[global] Instance float_NumOrder : NumOrder float.
Proof.
  refine {| le := float_le |}.
  - exact float_le_refl_l.
  - exact float_le_refl_r.
  - exact float_le_trans.
  - reflexivity.
  - exact float_le_add_r.
  - exact float_le_mul_unit.
  - reflexivity.
Defined.

(** [graph2] is what setState leaves of an unmarked graph on the history
    U,U / E,U / E,E. *)
Lemma graph2_reached :
  Graph.setState [Some ["U"; "U"]; Some ["E"; "U"]; Some ["E"; "E"]]
    (Graph.mkGraph
       [Graph.mkNode 0 0.5%float; Graph.mkNode 0 0.5%float]
       [Graph.mkBranch (0, 1) 0]) =
  (Normal tt, graph2).
Proof. vm_compute. reflexivity. Qed.

(** The constructions of the concrete cursors reach their redraw: none
    of them throws before it. *)
Lemma cursor_a_built :
  Policy.new_InteractivePolicy policy_a graph1 = (Normal tt, (cursor_a, graph_a)).
Proof. vm_compute. reflexivity. Qed.

Lemma cursor_a_steps_built :
  Policy.getStepsFromPolicy 3 cursor_a = Some (Normal tt, cursor_a_steps) /\
  Policy.steps cursor_a_steps = [0%Z; 1%Z; 1%Z].
Proof. split; vm_compute; reflexivity. Qed.

Lemma cursor_loop_built :
  Policy.new_LinearPolicy 3 policy_loop graph1 =
    Some (Normal tt, (cursor_loop, graph_loop)) /\
  Policy.steps cursor_loop = [0%Z; 0%Z] /\
  Policy.fullHistory cursor_loop = [None] /\
  graph_loop = graph1.
Proof. split; [| split; [| split]]; vm_compute; reflexivity. Qed.

Import Policy.

(** ** Graph.setState *)

(** C9 (amended) on [graph2] and a history whose second snapshot is too
    short. *)
Lemma setState_length_mismatch_witness :
  Forall is_Some [Some ["E"; "U"]; Some ["E"]; Some ["E"; "E"]] /\
  Exists (misfits (length (Graph.nodes graph2)))
    [Some ["E"; "U"]; Some ["E"]; Some ["E"; "E"]] /\
  exists pre bad post last g',
    [Some ["E"; "U"]; Some ["E"]; Some ["E"; "E"]] = pre ++ Some bad :: post /\
    Forall (fits (length (Graph.nodes graph2))) pre /\
    length bad <> length (Graph.nodes graph2) /\
    Graph.replay pre None None (Graph.emptyState graph2) = (Normal last, g') /\
    Graph._setState bad g' =
      (Throw (Error (Graph.length_message (length (Graph.nodes graph2)))), g') /\
    Graph.setState [Some ["E"; "U"]; Some ["E"]; Some ["E"; "E"]] graph2 =
      (Throw (Error (Graph.length_message (length (Graph.nodes graph2)))), g').
Proof.
  assert (H1 : Forall is_Some [Some ["E"; "U"]; Some ["E"]; Some ["E"; "E"]])
    by (repeat constructor; eexists; reflexivity).
  assert (H2 : Exists (misfits (length (Graph.nodes graph2)))
                 [Some ["E"; "U"]; Some ["E"]; Some ["E"; "E"]]).
  { apply Exists_cons_tl, Exists_cons_hd. exists ["E"]. split; [reflexivity |].
    simpl. lia. }
  split; [exact H1 |]. split; [exact H2 |].
  exact (setState_length_mismatch graph2 _ H1 H2).
Defined.

(** C9 as stated fails: on [graph2], whose nodes are energized and whose
    branch is active, a history whose only snapshot has one symbol makes
    setState throw the length error, yet the call has already reset both
    node statuses and the branch flag to 0. *)
Lemma setState_mismatch_mutates :
  Exists (misfits (length (Graph.nodes graph2))) [Some ["U"]] /\
  Graph.setState [Some ["U"]] graph2 =
    (Throw (Error "State length is not equal to nodes.length 2"),
     Graph.mkGraph
       [Graph.mkNode 0 0.5%float; Graph.mkNode 0 0.5%float]
       [Graph.mkBranch (0, 1) 0]) /\
  Graph.status <$> Graph.nodes (snd (Graph.setState [Some ["U"]] graph2))
    <> Graph.status <$> Graph.nodes graph2 /\
  Graph.energized <$> Graph.branches (snd (Graph.setState [Some ["U"]] graph2))
    <> Graph.energized <$> Graph.branches graph2.
Proof.
  split.
  { apply Exists_cons_hd. exists ["U"]. split; [reflexivity | simpl; lia]. }
  split; [vm_compute; reflexivity |].
  split; vm_compute; discriminate.
Qed.

(** C10 (amended) on [graph1] and a history of one snapshot. *)
Lemma setState_short_history_witness :
  length [Some ["U"]] < 2 /\
  (Forall (fits (length (Graph.nodes graph1))) [Some ["U"]] ->
   exists g', Graph.setState [Some ["U"]] graph1 = (Throw TypeError, g')) /\
  (forall g', Graph.setState [Some ["U"]] graph1 <> (Normal tt, g')).
Proof.
  assert (Hlt : length [Some ["U"]] < 2) by (simpl; lia).
  split; [exact Hlt |].
  exact (setState_short_history graph1 [Some ["U"]] Hlt).
Defined.

(** C10 as stated fails: a history of one snapshot of the wrong length
    does not reach the final marking pass; it throws the length error, not
    a TypeError. *)
Lemma short_history_length_error :
  length [Some ([] : Snapshot)] < 2 /\
  fst (Graph.setState [Some []] graph1) =
    Throw (Error "State length is not equal to nodes.length 1") /\
  fst (Graph.setState [Some []] graph1) <> Throw TypeError.
Proof.
  split; [simpl; lia |]. split; [vm_compute; reflexivity |].
  vm_compute. discriminate.
Qed.

(** ** The interactive cursor *)

(** C3 (amended) on the cursor constructed for [policy_a]. *)
Lemma nextState_previousState_witness :
  state (fst (snd (nextState (cursor_a, graph_a)))) = Some 1%Z /\
  previousStates (fst (snd (nextState (cursor_a, graph_a)))) =
    [Some (mkEntry (Some 0%Z) (Some 0%Z) (Some 0))] /\
  fst (snd (previousState (snd (nextState (cursor_a, graph_a))))) = cursor_a.
Proof.
  apply (nextState_previousState cursor_a graph_a 0%Z 0 (1%Z, 0.5%float)
           [(1%Z, 0.5%float); (0%Z, 0.5%float)]).
  - repeat split.
  - reflexivity.
  - reflexivity.
  - reflexivity.
  - reflexivity.
  - reflexivity.
Defined.

(** C3 as stated fails.  The cursor constructed on [policy_try] is
    updated with [policy_stuck], which keeps the table of actions it
    held, and outcome 1 is chosen: the cursor is not ended and stands on
    state 0 with action key 0 and outcome index 1.  nextState goes to
    state 1; previousState comes back to state 0 and action key 0, but
    now reads the table of [policy_stuck], finds the configuration ended
    and selects no outcome: the outcome index is 0, not 1, and the cursor
    is ended.  Neither call throws before its redraw. *)
Lemma update_breaks_round_trip :
  ended (fst world_chosen) = false /\
  state (fst world_chosen) = Some 0%Z /\
  actionNum (fst world_chosen) = Some 0%Z /\
  next (fst world_chosen) = Some 1 /\
  fst (nextState world_chosen) = Normal tt /\
  state (fst (snd (nextState world_chosen))) = Some 1%Z /\
  fst (previousState (snd (nextState world_chosen))) = Normal tt /\
  state (fst (snd (previousState (snd (nextState world_chosen))))) = Some 0%Z /\
  actionNum (fst (snd (previousState (snd (nextState world_chosen))))) = Some 0%Z /\
  next (fst (snd (previousState (snd (nextState world_chosen))))) = Some 0 /\
  next (fst (snd (previousState (snd (nextState world_chosen))))) <>
    next (fst world_chosen) /\
  ended (fst (snd (previousState (snd (nextState world_chosen))))) = true.
Proof.
  repeat (split; [vm_compute; first [reflexivity | discriminate] |]).
  vm_compute. reflexivity.
Qed.

(** C4 on the cursor constructed for [policy_a]. *)
Lemma previousState_empty_history_witness :
  previousStates cursor_a = [] /\
  previousState (cursor_a, graph_a) =
    (Throw (Error "There's no previous state"), (cursor_a, graph_a)).
Proof.
  split; [reflexivity |].
  apply (previousState_empty_history cursor_a graph_a). reflexivity.
Defined.

(** C5 (amended) on [policy_loop], whose state 0 has the sole action
    [[0, 1.0]]. *)
Lemma ended_flag_witness :
  ended (fst (snd (new_InteractivePolicy policy_loop graph1))) = true /\
  nextStateAvailable (fst (snd (new_InteractivePolicy policy_loop graph1))) = false /\
  previousStates (fst (snd (new_InteractivePolicy policy_loop graph1))) = [].
Proof.
  destruct (ended_flag graph1) as (_ & _ & Hnew).
  exact (Hnew policy_loop 0%Z 1%float eq_refl).
Defined.

(** C5 as stated fails.  update(policy_stuck) on the cursor constructed
    for [policy_try] ends with a call of setAction; after it the action
    the transition table gives for the current state and action key is
    the single outcome [[0, 1]] back to state 0, yet the cursor is not
    ended: setAction looked the key up in the table the cursor held.  On
    the cursor constructed for [policy_open], setState on state 1, which
    has no table of actions, throws a TypeError before it writes the
    flag: the transition table has no action for the state, and the
    cursor is not ended. *)
Lemma ended_flag_stale_or_unwritten :
  ends_here
    (getU (transitions (data (fst world_updated))) (state (fst world_updated)) ≫=
       (fun acts => getU acts (actionNum (fst world_updated))))
    (state (fst world_updated)) /\
  ended (fst world_updated) = false /\
  fst (setState (Some 1%Z) (Some 0) world_open) = Throw TypeError /\
  state (fst (snd (setState (Some 1%Z) (Some 0) world_open))) = Some 1%Z /\
  ends_here
    (getU (transitions (data (fst (snd (setState (Some 1%Z) (Some 0) world_open)))))
          (Some 1%Z) ≫=
       (fun acts =>
          getU acts (actionNum (fst (snd (setState (Some 1%Z) (Some 0) world_open))))))
    (Some 1%Z) /\
  ended (fst (snd (setState (Some 1%Z) (Some 0) world_open))) = false.
Proof.
  split.
  { right. exists 0%Z, 1%float. split; vm_compute; reflexivity. }
  split; [vm_compute; reflexivity |].
  split; [vm_compute; reflexivity |].
  split; [vm_compute; reflexivity |].
  split; [left; vm_compute; reflexivity |].
  vm_compute. reflexivity.
Qed.

(** ** The linear cursor *)

(** C7 (amended) at index 2 of the steps [0; 1; 1]. *)
Lemma goTo_sets_witness :
  getStepsFromPolicy 3 cursor_a = Some (Normal tt, cursor_a_steps) /\
  2 < length (steps cursor_a_steps) /\
  index (fst (snd (goTo 2 (cursor_a_steps, graph_a)))) = 2 /\
  state (fst (snd (goTo 2 (cursor_a_steps, graph_a)))) = steps cursor_a_steps !! (2 - 1) /\
  previousStates (fst (snd (goTo 2 (cursor_a_steps, graph_a)))) =
    take (2 - 1) (fullHistory cursor_a_steps) /\
  length (previousStates (fst (snd (goTo 2 (cursor_a_steps, graph_a))))) = 2 - 1 /\
  forall j, j < 2 - 1 ->
    exists sj a,
      steps cursor_a_steps !! j = Some sj /\
      previousStates (fst (snd (goTo 2 (cursor_a_steps, graph_a)))) !! j =
        Some (Some (mkEntry (Some sj) a (Some 0))).
Proof.
  assert (H1 : getStepsFromPolicy 3 cursor_a = Some (Normal tt, cursor_a_steps))
    by (vm_compute; reflexivity).
  assert (H2 : 2 < length (steps cursor_a_steps)) by (vm_compute; lia).
  split; [exact H1 |]. split; [exact H2 |].
  exact (goTo_sets 3 cursor_a cursor_a_steps cursor_a_steps graph_a 2
           H1 eq_refl eq_refl H2).
Defined.

(** C7 as stated fails.  On the steps [0; 1; 1] that getStepsFromPolicy
    computes for [policy_a], goTo(1) makes state 0 the current state, not
    [steps[1]] = 1, and leaves no previous state, not the entry for
    [steps[0]].  On the linear cursor constructed for [policy_loop], whose
    steps are [0; 0], goTo(1) leaves no previous state either. *)
Lemma goTo_one_step_behind :
  steps cursor_a_steps = [0%Z; 1%Z; 1%Z] /\
  state (fst (snd (goTo 1 (cursor_a_steps, graph_a)))) = Some 0%Z /\
  steps cursor_a_steps !! 1 = Some 1%Z /\
  previousStates (fst (snd (goTo 1 (cursor_a_steps, graph_a)))) = [] /\
  steps cursor_loop = [0%Z; 0%Z] /\
  previousStates (fst (snd (goTo 1 (cursor_loop, graph_loop)))) = [].
Proof. repeat (split; [vm_compute; reflexivity |]). vm_compute. reflexivity. Qed.

(** C8 (amended) at step 1 of the steps [0; 1; 1], where the node is
    energized, on a graph in which it is still unknown. *)
Lemma successProbability_product_witness :
  stateAt (data cursor_a_steps) (steps cursor_a_steps !! 1) = Some ["TG1"] /\
  length ["TG1"] <= length (Graph.nodes graph1) /\
  successProbability cursor_a_steps graph1 1 =
    Normal (survival_product graph1 ["TG1"] energized_in_step_unknown_in_graph) /\
  survival_product graph1 ["TG1"] energized_in_step_unknown_in_graph = 0.5%float.
Proof.
  assert (H1 : stateAt (data cursor_a_steps) (steps cursor_a_steps !! 1) = Some ["TG1"])
    by (vm_compute; reflexivity).
  assert (H2 : length ["TG1"] <= length (Graph.nodes graph1)) by (simpl; lia).
  split; [exact H1 |]. split; [exact H2 |].
  split; [exact (successProbability_product cursor_a_steps graph1 1 ["TG1"] H1 H2) |].
  vm_compute. reflexivity.
Defined.

(** C8 as stated fails: at step 0 of the linear cursor on [policy_loop]
    the only node is unknown, with failure probability 1/2; the product
    over the unknown nodes is 1/2, and successProbability(0) is 1. *)
Lemma successProbability_skips_unknown :
  stateAt (data cursor_loop) (steps cursor_loop !! 0) = Some ["U"] /\
  successProbability cursor_loop graph_loop 0 = Normal 1%float /\
  survival_product graph_loop ["U"] unknown_in_step = 0.5%float /\
  successProbability cursor_loop graph_loop 0 <>
    Normal (survival_product graph_loop ["U"] unknown_in_step).
Proof.
  split; [vm_compute; reflexivity |]. split; [vm_compute; reflexivity |].
  split; [vm_compute; reflexivity |].
  intros Heq.
  assert (Hv : successProbability cursor_loop graph_loop 0 = Normal 1%float)
    by (vm_compute; reflexivity).
  assert (Hs : survival_product graph_loop ["U"] unknown_in_step = 0.5%float)
    by (vm_compute; reflexivity).
  rewrite Hv, Hs in Heq.
  apply (f_equal (fun r : completion float =>
                    match r with
                    | Normal x => PrimFloat.eqb x 1%float
                    | Throw _ => false
                    end)) in Heq.
  vm_compute in Heq. clear Hv Hs. discriminate Heq.
Qed.

(** ** The probability queries *)

(** The outcome probabilities of [policy_q] are at least zero. *)
Lemma policy_q_nonneg : nonneg_policy policy_q.
Proof.
  unfold nonneg_policy, policy_q. cbn [transitions].
  apply map_Forall_insert_2; [| apply map_Forall_singleton];
    apply map_Forall_singleton; repeat constructor; simpl; discriminate.
Qed.

(** The outcome probabilities of [policy_one_based] are binary64
    numbers between zero and one, and its table descends from state 0. *)
Lemma policy_one_based_unit : unit_policy policy_one_based.
Proof.
  unfold unit_policy, policy_one_based. cbn [transitions].
  apply map_Forall_insert_2; [| apply map_Forall_singleton];
    apply map_Forall_singleton; repeat constructor.
Qed.

Lemma policy_one_based_descends :
  descends policy_one_based 0 (fun st => if (st =? 0)%Z then 1 else 0) 2.
Proof.
  intros st Hsym.
  assert (Hst : st = 0%Z).
  { unfold symbol, lookupZ in Hsym. destruct (st <? 0)%Z eqn:E; [discriminate |].
    apply Z.ltb_ge in E.
    destruct (Z.to_nat st) as [| [| k]] eqn:Ek; [lia | |]; cbn in Hsym;
      [discriminate |]. destruct k; discriminate. }
  subst st. eexists. split; [reflexivity |].
  intros act Hact. vm_compute in Hact. injection Hact as <-.
  split; [simpl; lia |].
  constructor; [left; reflexivity |].
  constructor; [| constructor].
  right. split; [eexists; reflexivity | simpl; lia].
Qed.

(** C2 on [policy_one_based] from state 0, in binary64. *)
Lemma energizationProbabilities_monotone_witness :
  unit_policy (data cursor_one_based) /\
  (exists rs,
     energizationProbabilities cursor_one_based (3 ^ 1) 0 =
       Some (Normal (Some <$> rs)) /\
     nondecreasing rs /\ rs !! 0 = Some zero).
Proof.
  split; [exact policy_one_based_unit |].
  destruct (energizationProbabilities_monotone cursor_one_based 0 policy_one_based_unit)
    as [Hpartial Hreturns].
  destruct (Hreturns (fun st => if (st =? 0)%Z then 1 else 0) 2 0%Z eq_refl
              (ex_intro _ _ eq_refl) policy_one_based_descends) as [results Hrun].
  destruct (Hpartial _ _ Hrun) as (s & sym & rs & Hs & Hsym & -> & Hmono & Hfirst).
  exists rs. split; [exact Hrun |]. split; [exact Hmono |].
  injection Hs as <-. injection Hsym as <-. exact Hfirst.
Defined.

(** C1, the code against the claim.  On [policy_b], where the one action
    of state 0 leads to state 1 and node 0 is energized there, the
    cursor's nextState goes to state 1 and the specification's recursion
    gives 1 at depth 1; _energizationProbability reads the outcome as
    state 0, takes the action for a lone self-loop and returns 0.  On
    [policy_a] the specification gives 1/2; the code reads the outcome
    [[0, 0.5]] as state -1 and throws. *)
Theorem _energizationProbability_reads_one_based :
  state (fst (snd (new_InteractivePolicy policy_b graph1))) = Some 0%Z /\
  state (fst (snd
    (bind (fun w => new_InteractivePolicy policy_b (snd w))
          (fun _ => nextState) (blank policy_b, graph1)))) = Some 1%Z /\
  P_spec policy_b 0 0 1 = 1%float /\
  _energizationProbability policy_b 0 0 1 = Normal 0%float /\
  P_spec policy_a 0 0 1 = 0.5%float /\
  _energizationProbability policy_a 0 0 1 = Throw TypeError.
Proof. repeat (split; [vm_compute; reflexivity |]). vm_compute. reflexivity. Qed.

(** C6, the code against the claim.  On [policy_one_based] the action of
    state 0 has two outcomes, the first of which leads back to state 0 as
    the queries read it.  The depth-bounded query skips that outcome and
    returns 1/2; _allEnergizationProb drops the result of its guard,
    calls itself on state 0 again and reaches every bound on the recursion
    depth, so cumulativePfs never returns. *)
Theorem _allEnergizationProb_guard_is_dropped :
  _energizationProbability policy_one_based 0 0 2 = Normal 0.5%float /\
  (forall depth, _allEnergizationProb policy_one_based depth 0 = None) /\
  (forall depth,
     cumulativePfs (set_state (Some 0%Z) (blank policy_one_based)) depth = None).
Proof.
  assert (Hdiv : forall depth, _allEnergizationProb policy_one_based depth 0 = None).
  { eapply _allEnergizationProb_diverges with (st := 0%Z);
      [reflexivity | reflexivity | reflexivity | discriminate | reflexivity]. }
  split; [vm_compute; reflexivity |]. split; [exact Hdiv |].
  intros depth. unfold cumulativePfs, allEnergizationProb. cbn [state set_state].
  rewrite Hdiv. reflexivity.
Qed.

(** * Further properties of the code *)

(** ** Graph.setState: statuses, lines and directions *)

Section SetStateInvariants.
Context {R : Type}.
Implicit Types (g : Graph.Graph (R := R)) (hist : list (option Snapshot)).
Implicit Types (J : nat * nat -> Prop).

(** *** Nodes *)

Lemma mark_pf (n : Graph.Node (R := R)) s : Graph.pf (Graph.mark n s) = Graph.pf n.
Proof. unfold Graph.mark. repeat case_match; reflexivity. Qed.

Lemma mark_mark_status (n : Graph.Node (R := R)) sp sc :
  Graph.status (Graph.mark (Graph.mark n sp) sc) = final_status sp sc.
Proof.
  unfold Graph.mark, final_status.
  destruct (bool_decide (sc = "D")); [reflexivity |].
  destruct (bool_decide (sc = "U")); [reflexivity |].
  destruct (bool_decide (sp = "D")); [reflexivity |].
  destruct (bool_decide (sp = "U")); [reflexivity |].
  cbn [orb]. destruct (Graph.status n >? 0)%Z; reflexivity.
Qed.

Lemma zip_with_mark_pf (ns : list (Graph.Node (R := R))) (s : Snapshot) :
  length s = length ns ->
  Graph.pf <$> zip_with Graph.mark ns s = Graph.pf <$> ns.
Proof.
  revert s. induction ns as [| n ns IH]; intros [| x s] Hlen; try discriminate;
    [reflexivity |].
  cbn. rewrite mark_pf. f_equal. apply IH. simpl in Hlen. lia.
Qed.

Lemma zip_with_mark_twice (ns : list (Graph.Node (R := R))) (prev cur : Snapshot) :
  length prev = length ns -> length cur = length ns ->
  Graph.status <$> zip_with Graph.mark (zip_with Graph.mark ns prev) cur =
  zip_with final_status prev cur.
Proof.
  revert prev cur. induction ns as [| n ns IH]; intros [| p prev] [| c cur] H1 H2;
    try discriminate; [reflexivity |].
  cbn. rewrite mark_mark_status. f_equal. apply IH; simpl in *; lia.
Qed.

Lemma _setState_cases g st :
  (length st <> length (Graph.nodes g) /\
   Graph._setState st g =
     (Throw (Error (Graph.length_message (length (Graph.nodes g)))), g)) \/
  (length st = length (Graph.nodes g) /\
   Graph._setState st g =
     (Normal tt, Graph.set_nodes (zip_with Graph.mark (Graph.nodes g) st) g)).
Proof.
  unfold Graph._setState. case_bool_decide as Hne.
  - left. auto.
  - right. split; [| reflexivity].
    destruct (decide (length st = length (Graph.nodes g))); [assumption | contradiction].
Qed.

(** *** Branches *)

Lemma incident_lookup g i :
  Forall (fun kb : nat * Graph.Branch => Graph.branches g !! fst kb = Some (snd kb))
    (Graph.incident g i).
Proof.
  apply List.Forall_forall. intros [k b] Hin. unfold Graph.incident in Hin.
  apply in_flat_map in Hin as ([k' b'] & Hin & Hx).
  apply list_elem_of_In, elem_of_lookup_imap in Hin as (j & y & [= -> ->] & Hj).
  cbn [fst snd] in Hx.
  assert (Heq : (k, b) = (j, y)).
  { destruct (fst (Graph.bnodes y) =? i), (snd (Graph.bnodes y) =? i);
      cbn in Hx; intuition congruence. }
  injection Heq as -> ->. exact Hj.
Qed.

(** What the scan of the branches of [target] does: nothing, or one
    branch pointed from [source] to [target], energized and recorded. *)
Lemma assign_cases bs target source g last :
  Forall (fun kb : nat * Graph.Branch => Graph.branches g !! fst kb = Some (snd kb)) bs ->
  Graph.assign bs target source g last = (g, last) \/
  exists k b src,
    Graph.branches g !! k = Some b /\ source = Some src /\
    (Graph.bnodes b = (src, target) \/ Graph.bnodes b = (target, src)) /\
    Graph.assign bs target source g last =
      (Graph.set_branches
         (<[k := Graph.mkBranch (src, target) 1]> (Graph.branches g)) g,
       last ++ [k]).
Proof.
  induction bs as [| [k b] bs IH]; intros Hall; [left; reflexivity |].
  apply Forall_cons in Hall as [Hk Hall]. cbn [fst snd] in Hk.
  cbn [Graph.assign].
  destruct ((fst (Graph.bnodes b) =? target) &&
            bool_decide (Some (snd (Graph.bnodes b)) = source)) eqn:E1.
  { apply andb_true_iff in E1 as [Ht Hs].
    apply Nat.eqb_eq in Ht. apply bool_decide_eq_true in Hs.
    right. exists k, b, (snd (Graph.bnodes b)).
    split; [exact Hk |]. split; [symmetry; exact Hs |].
    split; [right; rewrite <- Ht; destruct (Graph.bnodes b); reflexivity |].
    unfold Graph.set_energized, Graph.reverse. cbn. rewrite Ht. reflexivity. }
  destruct (bool_decide (Some (fst (Graph.bnodes b)) = source) &&
            (snd (Graph.bnodes b) =? target)) eqn:E2.
  { apply andb_true_iff in E2 as [Hs Ht].
    apply Nat.eqb_eq in Ht. apply bool_decide_eq_true in Hs.
    right. exists k, b, (fst (Graph.bnodes b)).
    split; [exact Hk |]. split; [symmetry; exact Hs |].
    split; [left; rewrite <- Ht; destruct (Graph.bnodes b); reflexivity |].
    unfold Graph.set_energized. cbn. rewrite <- Ht.
    destruct (Graph.bnodes b); reflexivity. }
  exact (IH Hall).
Qed.

(** An invariant of the while loop over [diffs]. *)
Lemma resolve_invariant (P : Graph.Graph (R := R) * list nat -> Prop)
    (ok : Graph.Diff -> Prop) :
  (forall g last d, ok d -> P (g, last) ->
     P (Graph.assign (Graph.incident g (Graph.i d)) (Graph.i d)
          (Graph.potentials d !! 0) g last)) ->
  forall rounds ds g last,
    Forall ok ds -> P (g, last) -> P (Graph.resolve rounds ds g last).
Proof.
  intros Hstep. induction rounds as [| rounds IH]; intros ds g last Hok HP;
    [exact HP |].
  destruct ds as [| d0 rest]; [exact HP |].
  cbn [Graph.resolve]. cbv zeta.
  set (m := Graph.scan_min rest 1 0 (length (Graph.potentials d0))).
  assert (Hd : ok (nth m (d0 :: rest) d0)).
  { destruct (nth_in_or_default m (d0 :: rest) d0) as [Hin | ->].
    - rewrite Forall_forall in Hok. apply Hok, list_elem_of_In. exact Hin.
    - apply Forall_cons in Hok as [H0 _]. exact H0. }
  pose proof (Hstep g last _ Hd HP) as HP'.
  destruct (Graph.assign _ _ _ g last) as [g' last'].
  apply IH; [| exact HP'].
  apply Forall_delete. exact Hok.
Qed.

(** The potentials of an entry of [diffs] justify the direction. *)
Lemma diffs_of_justified g prev cur :
  Forall
    (fun d => forall src, src ∈ Graph.potentials d ->
                justified prev cur src (Graph.i d))
    (Graph.diffs_of g prev cur).
Proof.
  apply List.Forall_forall. intros d Hin. unfold Graph.diffs_of in Hin.
  apply in_flat_map in Hin as (j & Hj & Hd).
  apply in_seq in Hj.
  destruct (bool_decide (prev !! j <> cur !! j) && negb (isD (cur !! j))) eqn:E;
    [| contradiction].
  apply andb_true_iff in E as [Hne HD].
  apply bool_decide_eq_true in Hne. apply negb_true_iff in HD.
  apply bool_decide_eq_false in HD.
  destruct (0 <? length (Graph.potentials_of g prev cur j)); [| contradiction].
  destruct Hd as [<- | []]. cbn [Graph.potentials Graph.i].
  intros src Hsrc. apply list_elem_of_In in Hsrc.
  unfold Graph.potentials_of in Hsrc.
  apply in_flat_map in Hsrc as ([k b] & _ & Hsrc).
  cbn [snd] in Hsrc. case_bool_decide as Heq; [| contradiction].
  destruct Hsrc as [<- | []].
  repeat split; auto. apply lookup_lt_is_Some. lia.
Qed.

(** One round of the for loop over [hist] preserves [P] when _setState
    and the resolution of a pair of snapshots related by [Q] do. *)
Lemma replay_invariant (P : Graph.Graph (R := R) -> Prop)
    (Q : Snapshot -> Snapshot -> Prop) :
  (forall g st, P g -> length st = length (Graph.nodes g) ->
     P (Graph.set_nodes (zip_with Graph.mark (Graph.nodes g) st) g)) ->
  (forall g prev st, P g -> Q prev st ->
     P (fst (Graph.resolve (length (Graph.diffs_of g prev st))
               (Graph.diffs_of g prev st) g []))) ->
  forall hist ls last g,
    chain Q ls hist -> P g -> P (snd (Graph.replay hist ls last g)).
Proof.
  intros Hset Hres. induction hist as [| s hist IH]; intros ls last g Hch HP;
    [exact HP |].
  destruct s as [st |]; [| exact HP].
  destruct Hch as [HQ Hch]. rewrite replay_cons.
  destruct (_setState_cases g st) as [[_ ->] | [Hlen ->]]; [exact HP |].
  pose proof (Hset g st HP Hlen) as HP1.
  destruct ls as [prev |]; apply IH; auto.
Qed.

Lemma replay_none hist (ls : option Snapshot) last g :
  Graph.replay (None :: hist) ls last g = (Throw TypeError, g).
Proof. reflexivity. Qed.

(** The replay of a history in two parts. *)
Lemma replay_app l1 l2 : forall (ls : option Snapshot) last g,
  Graph.replay (l1 ++ l2) ls last g =
  match Graph.replay l1 ls last g with
  | (Normal last1, g1) => Graph.replay l2 (state_after ls l1) last1 g1
  | (Throw e, g1) => (Throw e, g1)
  end.
Proof.
  induction l1 as [| s l1 IH]; intros ls last g; [reflexivity |].
  destruct s as [st |]; [| reflexivity].
  cbn [app]. rewrite !replay_cons.
  destruct (Graph._setState st g) as [[[] | e] g1]; [| reflexivity].
  destruct ls as [prev |]; apply IH.
Qed.

Lemma state_after_snoc (ls : option Snapshot) l s :
  state_after ls (l ++ [Some s]) = Some s.
Proof. unfold state_after. rewrite foldl_app. reflexivity. Qed.

(** A normal return of the replay on a history that ends with [prev] and
    [cur]: the last round, written out. *)
Lemma replay_last_round pre prev cur last0 g0 r g' :
  Graph.replay (pre ++ [Some prev; Some cur]) None last0 g0 = (Normal r, g') ->
  exists last1 g1,
    Graph.replay (pre ++ [Some prev]) None last0 g0 = (Normal last1, g1) /\
    length cur = length (Graph.nodes g1) /\
    let g2 := Graph.set_nodes (zip_with Graph.mark (Graph.nodes g1) cur) g1 in
    let res := Graph.resolve (length (Graph.diffs_of g2 prev cur))
                 (Graph.diffs_of g2 prev cur) g2 [] in
    r = Some (snd res) /\ g' = fst res.
Proof.
  intros Hrun.
  change (pre ++ [Some prev; Some cur]) with (pre ++ [Some prev] ++ [Some cur]) in Hrun.
  rewrite app_assoc, replay_app in Hrun.
  destruct (Graph.replay (pre ++ [Some prev]) None last0 g0) as [[last1 | e] g1];
    [| discriminate].
  exists last1, g1. split; [reflexivity |].
  rewrite state_after_snoc, replay_cons in Hrun.
  destruct (_setState_cases g1 cur) as [[_ Hs] | [Hlen Hs]]; rewrite Hs in Hrun;
    [discriminate |].
  split; [exact Hlen |]. cbv zeta. cbn [Graph.replay] in Hrun. unfold ret in Hrun.
  injection Hrun as <- <-. split; reflexivity.
Qed.

(** setState(hist), by the outcome of the replay. *)
Lemma setState_unfold hist g :
  Graph.setState hist g =
  match Graph.replay hist None None (Graph.emptyState g) with
  | (Normal (Some bs), g1) => (Normal tt, Graph.mark_active bs g1)
  | (Normal None, g1) => (Throw TypeError, g1)
  | (Throw e, g1) => (Throw e, g1)
  end.
Proof.
  unfold Graph.setState, bind, modify.
  destruct (Graph.replay hist None None (Graph.emptyState g)) as [[[bs |] | e] g1];
    reflexivity.
Qed.

Lemma mark_active_lookup bs : forall (l : list Graph.Branch) k,
  foldl (fun acc j => alter (Graph.set_energized 2) j acc) l bs !! k =
  if bool_decide (k ∈ bs) then Graph.set_energized 2 <$> l !! k else l !! k.
Proof.
  induction bs as [| j bs IH]; intros l k; cbn [foldl].
  - rewrite bool_decide_eq_false_2 by (apply not_elem_of_nil). reflexivity.
  - rewrite IH. destruct (decide (j = k)) as [-> | Hne].
    + rewrite list_lookup_alter_eq.
      rewrite (bool_decide_eq_true_2 (k ∈ k :: bs)) by (apply elem_of_cons; auto).
      case_bool_decide; [| reflexivity]. destruct (l !! k); reflexivity.
    + rewrite list_lookup_alter_ne by exact Hne.
      assert (Hiff : k ∈ j :: bs <-> k ∈ bs).
      { rewrite elem_of_cons. intuition congruence. }
      rewrite (bool_decide_ext _ _ Hiff). reflexivity.
Qed.

Lemma mark_active_length bs : forall (l : list Graph.Branch),
  length (foldl (fun acc j => alter (Graph.set_energized 2) j acc) l bs) = length l.
Proof.
  induction bs as [| j bs IH]; intros l; cbn [foldl]; [reflexivity |].
  rewrite IH. apply length_alter.
Qed.

Lemma same_line_refl b : same_line b b.
Proof. left. reflexivity. Qed.

Lemma same_line_trans b1 b2 b3 : same_line b1 b2 -> same_line b2 b3 -> same_line b1 b3.
Proof.
  unfold same_line. destruct (Graph.bnodes b1), (Graph.bnodes b2), (Graph.bnodes b3).
  cbn. intuition congruence.
Qed.

Lemma same_network_refl g : same_network g g.
Proof.
  repeat split. apply Forall2_same_length_lookup. split; [reflexivity |].
  intros k b b' H1 H2. rewrite H1 in H2. injection H2 as <-. apply same_line_refl.
Qed.

Lemma wired_assign g0 g last d :
  wired g0 g ->
  wired g0 (fst (Graph.assign (Graph.incident g (Graph.i d)) (Graph.i d)
                   (Graph.potentials d !! 0) g last)).
Proof.
  intros Hw.
  destruct (assign_cases _ (Graph.i d) (Graph.potentials d !! 0) g last
              (incident_lookup g (Graph.i d)))
    as [-> | (k & b & src & Hk & _ & Hb & ->)]; [exact Hw |].
  destruct Hw as [(Hn & Hpf & Hl) He]. cbn [fst].
  split; [split; [exact Hn | split; [exact Hpf |]] |].
  - cbn [Graph.branches Graph.set_branches].
    destruct (Forall2_lookup_r _ _ _ _ _ Hl Hk) as (b0 & Hk0 & Hb0).
    rewrite <- (list_insert_id (Graph.branches g0) k b0 Hk0).
    apply Forall2_insert; [exact Hl |].
    apply (same_line_trans _ b); [exact Hb0 |].
    unfold same_line. cbn. destruct Hb as [-> | ->]; cbn; auto.
  - cbn [Graph.branches Graph.set_branches].
    apply Forall_insert; [exact He |]. right. reflexivity.
Qed.

Lemma wired_replay g0 hist : forall ls last g,
  wired g0 g -> wired g0 (snd (Graph.replay hist ls last g)).
Proof.
  intros ls last g Hw.
  apply (replay_invariant (wired g0) (fun _ _ => True)); [| | | exact Hw].
  - intros g1 st [(Hn & Hpf & Hl) He] Hlen.
    split; [split; [| split] |]; cbn.
    + rewrite length_zip_with. lia.
    + rewrite zip_with_mark_pf by exact Hlen. exact Hpf.
    + exact Hl.
    + exact He.
  - intros g1 prev st Hw1 _.
    apply (resolve_invariant (fun gl => wired g0 (fst gl)) (fun _ => True));
      [| apply Forall_true; auto | exact Hw1].
    intros g2 last2 d _ H2. apply wired_assign. exact H2.
  - clear. revert ls. induction hist as [| [s |] hist IH]; intros ls; cbn; auto.
    split; [destruct ls; exact I | apply IH].
Qed.

Lemma wired_emptyState g : wired g (Graph.emptyState g).
Proof.
  split; [split; [| split] |]; cbn.
  - apply length_map.
  - rewrite <- list_fmap_compose. reflexivity.
  - apply Forall2_fmap_r, Forall_Forall2_diag, Forall_true.
    intros b. left. reflexivity.
  - apply Forall_fmap, Forall_true. intros b. left. reflexivity.
Qed.

Lemma setState_wired hist g :
  same_network g (snd (Graph.setState hist g)) /\
  Forall (fun b => Graph.energized b = 0%Z \/ Graph.energized b = 1%Z \/
                   Graph.energized b = 2%Z)
    (Graph.branches (snd (Graph.setState hist g))).
Proof.
  rewrite setState_unfold.
  pose proof (wired_replay g hist None None _ (wired_emptyState g)) as Hw.
  destruct (Graph.replay hist None None (Graph.emptyState g)) as [[[bs |] | e] g1];
    cbn [snd] in *.
  - destruct Hw as [(Hn & Hpf & Hl) He].
    split; [split; [exact Hn | split; [exact Hpf |]] |];
      cbn [Graph.mark_active Graph.branches Graph.set_branches].
    + apply Forall2_same_length_lookup. split.
      * rewrite mark_active_length. exact (Forall2_length _ _ _ Hl).
      * intros k b0 b H0 Hk. rewrite mark_active_lookup in Hk.
        destruct (Forall2_lookup_l _ _ _ _ _ Hl H0) as (b1 & H1 & Hb1).
        rewrite H1 in Hk. case_bool_decide; cbn in Hk; injection Hk as <-; exact Hb1.
    + apply Forall_lookup. intros k b Hk. rewrite mark_active_lookup in Hk.
      case_bool_decide.
      * destruct (Graph.branches g1 !! k); [| discriminate].
        injection Hk as <-. right. right. reflexivity.
      * rewrite Forall_lookup in He. destruct (He k b Hk); auto.
  - destruct Hw as [Hs He]. split; [exact Hs |].
    eapply Forall_impl; [exact He |]. intros b; cbn; tauto.
  - destruct Hw as [Hs He]. split; [exact Hs |].
    eapply Forall_impl; [exact He |]. intros b; cbn; tauto.
Qed.

(** *** The statuses setState leaves *)

Lemma foldl_mark_frame (snaps : list Snapshot) : forall ns : list (Graph.Node (R := R)),
  Forall (fun s : Snapshot => length s = length ns) snaps ->
  length (foldl (zip_with Graph.mark) ns snaps) = length ns /\
  Graph.pf <$> foldl (zip_with Graph.mark) ns snaps = Graph.pf <$> ns.
Proof.
  induction snaps as [| s snaps IH]; intros ns Hall; [split; reflexivity |].
  apply Forall_cons in Hall as [Hs Hall]. cbn [foldl].
  assert (Hlen : length (zip_with Graph.mark ns s) = length ns)
    by (rewrite length_zip_with; lia).
  destruct (IH (zip_with Graph.mark ns s)) as [H1 H2].
  { eapply Forall_impl; [exact Hall |]. intros x Hx. cbn beta in *. lia. }
  split; [lia |]. rewrite H2. apply zip_with_mark_pf. exact Hs.
Qed.

(** The nodes a normal return of the replay leaves: every snapshot has
    been applied by _setState in turn. *)
Lemma replay_nodes hist : forall (ls : option Snapshot) last g r g',
  Graph.replay hist ls last g = (Normal r, g') ->
  exists snaps : list Snapshot,
    hist = Some <$> snaps /\
    Forall (fun s : Snapshot => length s = length (Graph.nodes g)) snaps /\
    Graph.nodes g' = foldl (zip_with Graph.mark) (Graph.nodes g) snaps.
Proof.
  induction hist as [| s hist IH]; intros ls last g r g' Hrun.
  - cbn in Hrun. injection Hrun as <- <-. exists []. repeat split. constructor.
  - destruct s as [st |]; [| discriminate]. rewrite replay_cons in Hrun.
    destruct (_setState_cases g st) as [[_ Hs] | [Hlen Hs]]; rewrite Hs in Hrun;
      [discriminate |].
    set (g1 := Graph.set_nodes _ g) in *.
    assert (Hn1 : length (Graph.nodes g1) = length (Graph.nodes g)).
    { cbn. rewrite length_zip_with. lia. }
    assert (Hgo : forall g2, Graph.nodes g2 = Graph.nodes g1 ->
              forall ls2 last2, Graph.replay hist ls2 last2 g2 = (Normal r, g') ->
              exists snaps : list Snapshot,
                Some st :: hist = Some <$> snaps /\
                Forall (fun s : Snapshot => length s = length (Graph.nodes g)) snaps /\
                Graph.nodes g' = foldl (zip_with Graph.mark) (Graph.nodes g) snaps).
    { intros g2 Hg2 ls2 last2 Hrun2.
      destruct (IH _ _ _ _ _ Hrun2) as (snaps & -> & Hall & Hnodes).
      exists (st :: snaps). split; [reflexivity |]. split.
      - constructor; [exact Hlen |]. rewrite Hg2, Hn1 in Hall. exact Hall.
      - rewrite Hnodes, Hg2. reflexivity. }
    destruct ls as [prev |].
    + eapply Hgo; [| exact Hrun]. apply resolve_nodes.
    + eapply Hgo; [| exact Hrun]. reflexivity.
Qed.

Lemma list_last_two {A} (l : list A) :
  2 <= length l -> exists pre a b, l = pre ++ [a; b].
Proof.
  intros Hlen. destruct (rev l) as [| b [| a r]] eqn:E.
  - apply (f_equal (@length A)) in E. rewrite length_rev in E. simpl in E. lia.
  - apply (f_equal (@length A)) in E. rewrite length_rev in E. simpl in E. lia.
  - exists (rev r), a, b. rewrite <- (rev_involutive l), E. cbn.
    rewrite <- app_assoc. reflexivity.
Qed.

(** The replay initialises [lastEnergizedBranches] only on a history
    that ends with two snapshots. *)
Lemma replay_some_two hist g bs g' :
  Graph.replay hist None None g = (Normal (Some bs), g') ->
  exists pre prev cur, hist = pre ++ [Some prev; Some cur].
Proof.
  intros Hrun.
  destruct (replay_nodes _ _ _ _ _ _ Hrun) as (snaps & -> & Hall & _).
  destruct (decide (2 <= length snaps)) as [Hge | Hlt].
  - destruct (list_last_two snaps Hge) as (pre & a & b & ->).
    exists (Some <$> pre), a, b. rewrite fmap_app. reflexivity.
  - assert (Hfit : Forall (fits (length (Graph.nodes g))) (Some <$> snaps)).
    { apply Forall_fmap. eapply Forall_impl; [exact Hall |].
      intros s Hs. exists s. auto. }
    destruct (replay_fits _ None None g Hfit) as (r & g2 & Hrun2 & _ & _ & Hnone & _).
    rewrite Hrun in Hrun2. injection Hrun2 as <- <-.
    rewrite length_fmap in Hnone. discriminate Hnone; [reflexivity | lia].
Qed.

(** *** The directions setState gives *)

Lemma directed_assign J g last d :
  diff_ok J d -> directed J g ->
  directed J (fst (Graph.assign (Graph.incident g (Graph.i d)) (Graph.i d)
                     (Graph.potentials d !! 0) g last)).
Proof.
  intros Hok Hd.
  destruct (assign_cases _ (Graph.i d) (Graph.potentials d !! 0) g last
              (incident_lookup g (Graph.i d)))
    as [-> | (k & b & src & Hk & Hsrc & _ & ->)]; [exact Hd |].
  intros k' b' Hk' He. cbn in Hk'.
  destruct (decide (k = k')) as [<- | Hne].
  - rewrite list_lookup_insert_eq in Hk' by (eapply lookup_lt_Some; exact Hk).
    injection Hk' as <-. cbn. apply Hok. exact Hsrc.
  - rewrite list_lookup_insert_ne in Hk' by exact Hne. exact (Hd k' b' Hk' He).
Qed.

Lemma recorded_assign J g last d :
  diff_ok J d -> recorded J (g, last) ->
  recorded J (Graph.assign (Graph.incident g (Graph.i d)) (Graph.i d)
                (Graph.potentials d !! 0) g last).
Proof.
  intros Hok Hr.
  destruct (assign_cases _ (Graph.i d) (Graph.potentials d !! 0) g last
              (incident_lookup g (Graph.i d)))
    as [-> | (k & b & src & Hk & Hsrc & _ & ->)]; [exact Hr |].
  unfold recorded in *. cbn [fst snd] in *.
  assert (Hnew : forall k' b', <[k := Graph.mkBranch (src, Graph.i d) 1]>
                                 (Graph.branches g) !! k' = Some b' ->
                   k' = k \/ Graph.branches g !! k' = Some b' ->
                   (k' = k -> J (Graph.bnodes b'))).
  { intros k' b' Hk' _ ->.
    rewrite list_lookup_insert_eq in Hk' by (eapply lookup_lt_Some; exact Hk).
    injection Hk' as <-. cbn. apply Hok. exact Hsrc. }
  apply Forall_app. split.
  - eapply Forall_impl; [exact Hr |]. intros k' Hk' b' Hb'. cbn in Hb'.
    destruct (decide (k' = k)) as [-> | Hne].
    + apply (Hnew k b' Hb'); auto.
    + rewrite list_lookup_insert_ne in Hb' by congruence. exact (Hk' b' Hb').
  - constructor; [| constructor]. intros b' Hb'. cbn in Hb'.
    apply (Hnew k b' Hb'); auto.
Qed.

Lemma diffs_ok (J : nat * nat -> Prop) g prev cur :
  (forall src tgt, justified prev cur src tgt -> J (src, tgt)) ->
  Forall (diff_ok J) (Graph.diffs_of g prev cur).
Proof.
  intros HJ. eapply Forall_impl; [apply diffs_of_justified |].
  intros d Hd src Hsrc. apply HJ, Hd.
  eapply list_elem_of_lookup_2. exact Hsrc.
Qed.

Lemma directed_replay J hist : forall ls last g,
  chain (fun p s => forall src tgt, justified p s src tgt -> J (src, tgt)) ls hist ->
  directed J g -> directed J (snd (Graph.replay hist ls last g)).
Proof.
  intros ls last g Hch Hd.
  eapply replay_invariant; [| | exact Hch | exact Hd].
  - intros g1 st H1 _. exact H1.
  - intros g1 prev st H1 HQ.
    apply (resolve_invariant (fun gl => directed J (fst gl)) (diff_ok J));
      [| apply diffs_ok; exact HQ | exact H1].
    intros g2 last2 d Hok H2. apply directed_assign; assumption.
Qed.

Lemma chain_adjacent rest : forall pre (ls : option Snapshot),
  (forall p, ls = Some p -> exists pre', pre = pre' ++ [Some p]) ->
  chain (fun p s => forall src tgt, justified p s src tgt ->
                      justified_in (pre ++ rest) (src, tgt))
    ls rest.
Proof.
  induction rest as [| [s |] rest IH]; intros pre ls Hls; cbn [chain]; auto.
  split.
  - destruct ls as [p |]; [| exact I].
    destruct (Hls p eq_refl) as [pre' ->].
    intros src tgt Hj. exists p, s. split; [| exact Hj].
    exists pre', rest. rewrite <- app_assoc. reflexivity.
  - replace (pre ++ Some s :: rest) with ((pre ++ [Some s]) ++ rest)
      by (rewrite <- app_assoc; reflexivity).
    apply IH. intros p [= <-]. exists pre. reflexivity.
Qed.

(** The lines the final pass marks: recorded in the round of the last
    two snapshots, in a direction those two justify. *)
Lemma replay_recorded hist g bs g' :
  Graph.replay hist None None g = (Normal (Some bs), g') ->
  exists prev cur,
    last_two hist prev cur /\
    recorded (fun st => justified prev cur (fst st) (snd st)) (g', bs).
Proof.
  intros Hrun.
  destruct (replay_some_two _ _ _ _ Hrun) as (pre & prev & cur & ->).
  exists prev, cur. split; [exists pre; reflexivity |].
  destruct (replay_last_round _ _ _ _ _ _ _ Hrun)
    as (last1 & g1 & _ & _ & Hres). cbv zeta in Hres.
  destruct Hres as [[= ->] ->].
  match goal with
  | |- recorded ?J (fst ?res, snd ?res) =>
    replace (fst res, snd res) with res by (destruct res; reflexivity)
  end.
  set (J := fun st : nat * nat => justified prev cur (fst st) (snd st)).
  apply (resolve_invariant (recorded J) (diff_ok J)).
  - intros g2 last2 d Hok H2. apply recorded_assign; assumption.
  - apply diffs_ok. auto.
  - constructor.
Qed.

Lemma last_two_adjacent hist prev cur : last_two hist prev cur -> adjacent hist prev cur.
Proof. intros [l1 ->]. exists l1, []. reflexivity. Qed.

(** The marking pass is reached only when every snapshot of the history
    has one symbol per node. *)
Lemma setState_marks_fits hist g :
  fst (Graph.setState hist g) = Normal tt ->
  Forall (fits (length (Graph.nodes g))) hist.
Proof.
  rewrite setState_unfold.
  destruct (Graph.replay hist None None (Graph.emptyState g))
    as [[[bs |] | e] g1] eqn:Hrun; cbn [fst]; try discriminate.
  intros _. destruct (replay_nodes _ _ _ _ _ _ Hrun) as (snaps & -> & Hall & _).
  rewrite emptyState_length in Hall.
  apply Forall_fmap. eapply Forall_impl; [exact Hall |].
  intros st Hlen. exists st. auto.
Qed.

(** A line setState leaves with flag 2 was recorded in the round of the
    last two snapshots, and the call returned normally. *)
Lemma setState_active hist g k b :
  Graph.branches (snd (Graph.setState hist g)) !! k = Some b ->
  Graph.energized b = 2%Z ->
  fst (Graph.setState hist g) = Normal tt /\
  exists prev cur,
    last_two hist prev cur /\
    justified prev cur (fst (Graph.bnodes b)) (snd (Graph.bnodes b)).
Proof.
  rewrite setState_unfold.
  pose proof (wired_replay g hist None None _ (wired_emptyState g)) as [_ He].
  destruct (Graph.replay hist None None (Graph.emptyState g))
    as [[[bs |] | e] g1] eqn:Hrun; cbn [fst snd] in *.
  - intros Hk H2. split; [reflexivity |].
    destruct (replay_recorded _ _ _ _ Hrun) as (prev & cur & Hlast & Hrec).
    exists prev, cur. split; [exact Hlast |].
    cbn [Graph.mark_active Graph.branches Graph.set_branches] in Hk.
    rewrite mark_active_lookup in Hk. case_bool_decide as Hin.
    + destruct (Graph.branches g1 !! k) as [b1 |] eqn:Hb1; [| discriminate].
      injection Hk as <-. unfold recorded in Hrec. cbn [fst snd] in Hrec.
      rewrite Forall_forall in Hrec. exact (Hrec k Hin b1 Hb1).
    + rewrite Forall_lookup in He. destruct (He k b Hk); lia.
  - intros Hk H2. rewrite Forall_lookup in He. destruct (He k b Hk); lia.
  - intros Hk H2. rewrite Forall_lookup in He. destruct (He k b Hk); lia.
Qed.

(** Every energized line setState leaves points in a direction some pair
    of successive snapshots justifies. *)
Lemma setState_directed hist g :
  directed (justified_in hist) (snd (Graph.setState hist g)).
Proof.
  rewrite setState_unfold.
  assert (Hd : directed (justified_in hist)
                 (snd (Graph.replay hist None None (Graph.emptyState g)))).
  { apply directed_replay.
    - apply (chain_adjacent hist [] None). discriminate.
    - intros k b Hk He. cbn in Hk. rewrite list_lookup_fmap in Hk.
      destruct (Graph.branches g !! k); [| discriminate].
      injection Hk as <-. cbn in He. congruence. }
  destruct (Graph.replay hist None None (Graph.emptyState g))
    as [[[bs |] | e] g1] eqn:Hrun; cbn [fst snd] in *; try exact Hd.
  intros k b Hk He.
  cbn [Graph.mark_active Graph.branches Graph.set_branches] in Hk.
  rewrite mark_active_lookup in Hk. case_bool_decide as Hin.
  - destruct (Graph.branches g1 !! k) as [b1 |] eqn:Hb1; [| discriminate].
    injection Hk as <-.
    destruct (replay_recorded _ _ _ _ Hrun) as (prev & cur & Hlast & Hrec).
    unfold recorded in Hrec. cbn [fst snd] in Hrec. rewrite Forall_forall in Hrec.
    exists prev, cur. split; [apply last_two_adjacent; exact Hlast |].
    exact (Hrec k Hin b1 Hb1).
  - exact (Hd k b Hk He).
Qed.

Lemma last_two_inj hist prev cur a b :
  last_two (hist ++ [a; b]) prev cur -> a = Some prev /\ b = Some cur.
Proof.
  intros [l1 Heq].
  change (hist ++ [a; b]) with (hist ++ [a] ++ [b]) in Heq.
  change (l1 ++ [Some prev; Some cur]) with (l1 ++ [Some prev] ++ [Some cur]) in Heq.
  rewrite !app_assoc in Heq.
  apply app_inj_tail in Heq as [Heq ->]. apply app_inj_tail in Heq as [_ ->].
  split; reflexivity.
Qed.

(** The nodes a normal return of setState leaves, by the last two
    snapshots. *)
Lemma setState_nodes hist g g' prev cur :
  Graph.setState hist g = (Normal tt, g') ->
  last_two hist prev cur ->
  length prev = length (Graph.nodes g) /\ length cur = length (Graph.nodes g) /\
  Graph.pf <$> Graph.nodes g' = Graph.pf <$> Graph.nodes g /\
  Graph.status <$> Graph.nodes g' = zip_with final_status prev cur.
Proof.
  rewrite setState_unfold. intros Hrun [pre ->].
  destruct (Graph.replay _ None None (Graph.emptyState g))
    as [[[bs |] | e] g1] eqn:Hrep; try discriminate.
  injection Hrun as <-. cbn [Graph.mark_active Graph.nodes Graph.set_branches].
  destruct (replay_nodes _ _ _ _ _ _ Hrep) as (snaps & Hsnaps & Hall & ->).
  symmetry in Hsnaps. apply fmap_app_inv in Hsnaps as (l1 & l2 & -> & Hl2 & ->).
  destruct l2 as [| p [| c [| ? ?]]]; try discriminate. injection Hl2 as <- <-.
  apply Forall_app in Hall as [Hall1 Hall2].
  apply Forall_cons in Hall2 as [Hp Hall2]. apply Forall_cons in Hall2 as [Hc _].
  rewrite emptyState_length in Hp, Hc.
  destruct (foldl_mark_frame l1 _ Hall1) as [Hlen Hpf].
  rewrite emptyState_length in Hlen.
  rewrite foldl_app. cbn [foldl].
  split; [exact Hp |]. split; [exact Hc |]. split.
  - rewrite !zip_with_mark_pf, Hpf; [| lia | rewrite length_zip_with; lia].
    cbn. rewrite <- list_fmap_compose. reflexivity.
  - apply zip_with_mark_twice; lia.
Qed.

Lemma final_status_same s : final_status s s <> 2%Z.
Proof.
  unfold final_status.
  destruct (bool_decide (s = "D")); [discriminate |].
  destruct (bool_decide (s = "U")); discriminate.
Qed.

(** A history that ends with the same snapshot twice leaves no node and
    no line marked as changed by the last step. *)
Lemma setState_frozen hs s g g' :
  Graph.setState (hs ++ [s; s]) g = (Normal tt, g') ->
  Forall (fun n => Graph.status n <> 2%Z) (Graph.nodes g') /\
  Forall (fun b => Graph.energized b <> 2%Z) (Graph.branches g').
Proof.
  intros Hrun. split.
  - assert (Hs : is_Some s).
    { rewrite setState_unfold in Hrun.
      destruct (Graph.replay _ None None (Graph.emptyState g))
        as [[[bs |] | e] g1] eqn:Hrep; try discriminate.
      destruct (replay_nodes _ _ _ _ _ _ Hrep) as (snaps & Hsnaps & _).
      assert (Hin : s ∈ hs ++ [s; s]) by (rewrite elem_of_app, !elem_of_cons; auto).
      rewrite Hsnaps in Hin. apply list_elem_of_fmap in Hin as (x & -> & _). eauto. }
    destruct Hs as [st ->].
    destruct (setState_nodes _ _ _ st st Hrun) as (_ & _ & _ & Hst);
      [exists hs; reflexivity |].
    apply Forall_lookup. intros j n Hj H2.
    apply (f_equal (fun l => l !! j)) in Hst.
    rewrite list_lookup_fmap, Hj in Hst. cbn in Hst. symmetry in Hst.
    apply lookup_zip_with_Some in Hst as (x & y & Heq & Hx & Hy).
    rewrite Hx in Hy. injection Hy as <-. rewrite H2 in Heq.
    symmetry in Heq. exact (final_status_same x Heq).
  - apply Forall_lookup. intros k b Hk H2.
    assert (Hk' : Graph.branches (snd (Graph.setState (hs ++ [s; s]) g)) !! k = Some b)
      by (rewrite Hrun; exact Hk).
    destruct (setState_active _ _ _ _ Hk' H2) as (_ & prev & cur & Hlast & Hj).
    apply last_two_inj in Hlast as [-> [= ->]].
    destruct Hj as (_ & _ & Hne & _). congruence.
Qed.

(** *** The scan for the entry to resolve next *)

Lemma scan_min_spec (rest : list Graph.Diff) : forall pre mindiff dm,
  pre !! mindiff = Some dm ->
  Forall (fun d => length (Graph.potentials dm) <= length (Graph.potentials d)) pre ->
  (forall j d, j < mindiff -> pre !! j = Some d ->
     length (Graph.potentials dm) < length (Graph.potentials d)) ->
  exists d,
    (pre ++ rest) !! Graph.scan_min rest (length pre) mindiff
                       (length (Graph.potentials dm)) = Some d /\
    Forall (fun d' => length (Graph.potentials d) <= length (Graph.potentials d'))
      (pre ++ rest) /\
    forall j d', j < Graph.scan_min rest (length pre) mindiff
                       (length (Graph.potentials dm)) ->
      (pre ++ rest) !! j = Some d' ->
      length (Graph.potentials d) < length (Graph.potentials d').
Proof.
  induction rest as [| x rest IH]; intros pre mindiff dm Hm Hmin Hfirst.
  - cbn [Graph.scan_min]. rewrite app_nil_r. exists dm. auto.
  - cbn [Graph.scan_min].
    replace (pre ++ x :: rest) with ((pre ++ [x]) ++ rest)
      by (rewrite <- app_assoc; reflexivity).
    replace (S (length pre)) with (length (pre ++ [x]))
      by (rewrite length_app; simpl; lia).
    destruct (length (Graph.potentials x) <? length (Graph.potentials dm)) eqn:E.
    + apply Nat.ltb_lt in E.
      apply (IH (pre ++ [x]) (length pre) x).
      * rewrite lookup_app_r by lia. rewrite Nat.sub_diag. reflexivity.
      * apply Forall_app. split; [| repeat constructor].
        eapply Forall_impl; [exact Hmin |]. intros d Hd. cbn beta in *. lia.
      * intros j d Hj Hd.
        rewrite lookup_app_l in Hd by lia.
        rewrite Forall_lookup in Hmin. pose proof (Hmin j d Hd). lia.
    + apply Nat.ltb_ge in E. apply IH.
      * rewrite lookup_app_l; [exact Hm |]. eapply lookup_lt_Some. exact Hm.
      * apply Forall_app. split; [exact Hmin |]. repeat constructor. exact E.
      * intros j d Hj Hd. apply (Hfirst j d Hj).
        rewrite lookup_app_l in Hd; [exact Hd |].
        apply lookup_lt_Some in Hm. lia.
Qed.

End SetStateInvariants.

Section SetStateProperties.
Context {R : Type}.
Implicit Types (g : Graph.Graph (R := R)) (hist : list (option Snapshot)).

(** X1: on a history of two or more snapshots, each with one symbol per
    node, setState leaves every failure probability as it was, and the
    status it leaves in every node is determined by the node's symbols in
    the last two snapshots alone: -1 for "D", 0 for "U", 1 for a node
    energized in both, 2 for a node energized in the last one only.  The
    redraw that ends the call writes no status, so this is what the call
    leaves whether the redraw returns or throws. *)
Theorem setState_statuses g pre prev cur :
  Forall (fits (length (Graph.nodes g))) (pre ++ [Some prev; Some cur]) ->
  Graph.pf <$> Graph.nodes (snd (Graph.setState (pre ++ [Some prev; Some cur]) g)) =
    Graph.pf <$> Graph.nodes g /\
  Graph.status <$> Graph.nodes (snd (Graph.setState (pre ++ [Some prev; Some cur]) g)) =
    zip_with final_status prev cur.
Proof.
  intros Hfit.
  destruct (setState_completes g (pre ++ [Some prev; Some cur]))
    as (g' & Hrun & _); [| exact Hfit |].
  { rewrite length_app. simpl. lia. }
  destruct (setState_nodes _ _ _ prev cur Hrun) as (_ & _ & Hpf & Hst);
    [exists pre; reflexivity |].
  rewrite Hrun. cbn [snd]. auto.
Qed.

(** X2: whatever the history, and whether it returns or throws, setState
    keeps the network: the same number of nodes with the same failure
    probabilities, the same number of lines, each between the same two
    nodes as before (possibly turned around), and every line flag is 0, 1
    or 2. *)
Theorem setState_keeps_network g hist :
  same_network g (snd (Graph.setState hist g)) /\
  Forall (fun b => Graph.energized b = 0%Z \/ Graph.energized b = 1%Z \/
                   Graph.energized b = 2%Z)
    (Graph.branches (snd (Graph.setState hist g))).
Proof. apply setState_wired. Qed.

(** X3: a line that setState leaves energized (flag 1 or 2) points from
    a node [src] to a node [tgt] such that, between two successive
    snapshots of the history, [tgt] changed to a symbol other than "D"
    which [src] already had in the earlier of the two.  This holds
    whether setState returns or throws. *)
Theorem setState_directions_justified g hist k b :
  Graph.branches (snd (Graph.setState hist g)) !! k = Some b ->
  Graph.energized b <> 0%Z ->
  exists prev cur,
    adjacent hist prev cur /\
    justified prev cur (fst (Graph.bnodes b)) (snd (Graph.bnodes b)).
Proof. intros Hk He. exact (setState_directed hist g k b Hk He). Qed.

(** X4: a line carries flag 2 after setState only when the replay has
    run through the whole history, that is when every snapshot of the
    history has one symbol per node, and only when the last two snapshots
    of the history justify its direction. *)
Theorem setState_active_by_last_step g hist k b :
  Graph.branches (snd (Graph.setState hist g)) !! k = Some b ->
  Graph.energized b = 2%Z ->
  Forall (fits (length (Graph.nodes g))) hist /\
  exists prev cur,
    last_two hist prev cur /\
    justified prev cur (fst (Graph.bnodes b)) (snd (Graph.bnodes b)).
Proof.
  intros Hk H2. destruct (setState_active hist g k b Hk H2) as [Hrun Hlast].
  split; [| exact Hlast]. apply (setState_marks_fits hist g). exact Hrun.
Qed.

(** X5: the entry of [diffs] that a round of the while loop of setState
    resolves is one with the fewest potentials, and the first such entry
    of the list. *)
Theorem scan_min_first_minimum (d0 : Graph.Diff) rest :
  exists d,
    (d0 :: rest) !! Graph.scan_min rest 1 0 (length (Graph.potentials d0)) = Some d /\
    Forall (fun d' => length (Graph.potentials d) <= length (Graph.potentials d'))
      (d0 :: rest) /\
    forall j d',
      j < Graph.scan_min rest 1 0 (length (Graph.potentials d0)) ->
      (d0 :: rest) !! j = Some d' ->
      length (Graph.potentials d) < length (Graph.potentials d').
Proof.
  apply (scan_min_spec rest [d0] 0 d0); [reflexivity | repeat constructor |].
  intros j d Hj. lia.
Qed.

End SetStateProperties.

Lemma setState_statuses_witness :
  Forall (fits (length (Graph.nodes graph_rev))) ([] ++ hist_rev) /\
  Graph.pf <$> Graph.nodes (snd (Graph.setState hist_rev graph_rev)) =
    [0.25%float; 0.5%float] /\
  Graph.status <$> Graph.nodes (snd (Graph.setState hist_rev graph_rev)) =
    [1%Z; 2%Z].
Proof.
  assert (Hfit : Forall (fits (length (Graph.nodes graph_rev))) ([] ++ hist_rev)).
  { repeat constructor; eexists; split; reflexivity. }
  split; [exact Hfit |].
  exact (setState_statuses graph_rev [] ["TG1"; "U"] ["TG1"; "TG1"] Hfit).
Defined.

Lemma setState_directions_justified_witness :
  Graph.branches (snd (Graph.setState hist_rev graph_rev)) !! 0 =
    Some (Graph.mkBranch (0, 1) 2) /\
  exists prev cur, adjacent hist_rev prev cur /\ justified prev cur 0 1.
Proof.
  assert (Hk : Graph.branches (snd (Graph.setState hist_rev graph_rev)) !! 0 =
               Some (Graph.mkBranch (0, 1) 2)) by (vm_compute; reflexivity).
  split; [exact Hk |].
  apply (setState_directions_justified graph_rev hist_rev 0 _ Hk). discriminate.
Defined.

Lemma setState_active_by_last_step_witness :
  Graph.branches (snd (Graph.setState hist_rev graph_rev)) !! 0 =
    Some (Graph.mkBranch (0, 1) 2) /\
  Forall (fits (length (Graph.nodes graph_rev))) hist_rev /\
  exists prev cur, last_two hist_rev prev cur /\ justified prev cur 0 1.
Proof.
  assert (Hk : Graph.branches (snd (Graph.setState hist_rev graph_rev)) !! 0 =
               Some (Graph.mkBranch (0, 1) 2)) by (vm_compute; reflexivity).
  split; [exact Hk |].
  apply (setState_active_by_last_step graph_rev hist_rev 0 _ Hk). reflexivity.
Defined.

(** ** The interactive cursor: advance, rewind, update *)

Section AdvanceAndRewind.
Context {R : Type} `{Num R}.
Implicit Types (c : Policy.Cursor (R := R)) (g : Graph.Graph (R := R)).
Implicit Types (d : Policy.PolicyData (R := R)).
(** nextState(), step by step. *)
Lemma nextState_eq c g :
  nextState (c, g) =
  let c1 :=
    set_previousStates
      (previousStates c ++ [Some (mkEntry (state c) (actionNum c) (next c))]) c in
  match target_of c (next c) with
  | None => (Throw TypeError, (c1, g))
  | Some t => setState (Some t) (Some 0) (c1, g)
  end.
Proof.
  cbv [nextState bind assign this]. cbn [fst snd].
  change (target_of (set_previousStates _ c) (next (set_previousStates _ c)))
    with (target_of c (next c)).
  destruct (target_of c (next c)); reflexivity.
Qed.

(** A normal return of setState: the state has a table of actions. *)
Lemma setState_normal_actions st nxt c g c' g' :
  setState st nxt (c, g) = (Normal tt, (c', g')) ->
  is_Some (getU (transitions (data c)) st).
Proof.
  rewrite setState_eq. cbv zeta. intros Hrun.
  destruct (getU (transitions (data c)) st) as [acts |] eqn:E; [eauto |].
  rewrite setAction_no_actions in Hrun by reflexivity. discriminate.
Qed.

(** X6: when nextState returns normally, the state it makes current is
    the one that getNextState showed before the call, the history has
    grown by exactly the record of the state, action and outcome that
    were current, the tables of the policy are untouched, the fields of
    the new state are coherent, and unless the new state is ended its
    first outcome is the selected one. *)
Theorem nextState_commits_preview c g c' g' :
  nextState (c, g) = (Normal tt, (c', g')) ->
  getNextState c = Normal (getCurrentState c') /\
  previousStates c' =
    previousStates c ++ [Some (mkEntry (state c) (actionNum c) (next c))] /\
  data c' = data c /\
  coherent c' /\
  (ended c' = false -> next c' = Some 0).
Proof.
  rewrite nextState_eq. cbv zeta. intros Hrun.
  unfold getNextState, getCurrentState.
  destruct (target_of c (next c)) as [t |]; [| discriminate].
  set (c1 := set_previousStates _ c) in Hrun.
  pose proof (setState_cursor (Some t) (Some 0) c1 g) as Hc. cbv zeta in Hc.
  pose proof (setState_normal_actions _ _ _ _ _ _ Hrun) as [acts Hacts].
  pose proof (setState_coherent t (Some 0) c1 g) as Hco.
  assert (Hnext : ended (fst (snd (setState (Some t) (Some 0) (c1, g)))) = false ->
                  next (fst (snd (setState (Some t) (Some 0) (c1, g)))) = Some 0).
  { rewrite setState_eq. cbv zeta.
    set (c2 := set_actions _ _).
    destruct (setAction_cursor (getU (policy (data c1)) (Some t)) (Some 0) c2 g acts Hacts)
      as (_ & _ & _ & _ & _ & _ & Hn).
    intros He. rewrite He in Hn. exact Hn. }
  rewrite Hrun in Hc, Hco, Hnext. cbn [fst snd] in Hc, Hco, Hnext.
  destruct Hc as ((Hd & Hp & _) & Hs & _).
  rewrite Hs, Hd.
  split; [reflexivity |]. split; [exact Hp |]. split; [reflexivity |].
  split; [| exact Hnext].
  apply Hco. exists acts. exact Hacts.
Qed.

(** X7: nextState records the current state in the history before it
    looks at the selected outcome.  When there is none (no action, no
    selected outcome, or an outcome index past the end of the action),
    it throws a TypeError and leaves the history one entry longer; the
    graph is not redrawn. *)
Theorem nextState_pushes_before_it_throws c g :
  target_of c (next c) = None ->
  nextState (c, g) =
    (Throw TypeError,
     (set_previousStates
        (previousStates c ++ [Some (mkEntry (state c) (actionNum c) (next c))]) c,
      g)).
Proof. intros Hnone. rewrite nextState_eq, Hnone. reflexivity. Qed.

(** X8: previousState takes the last record off the history and makes
    its state and action key the current ones, whether or not the redraw
    that follows throws; when that state has a table of actions, the
    action is the one the record names and, unless the state is ended
    with that action, the outcome is the recorded one (0 when the record
    has none). *)
Theorem previousState_restores c g rest e :
  previousStates c = rest ++ [Some e] ->
  let c' := fst (snd (previousState (c, g))) in
  previousStates c' = rest /\
  data c' = data c /\
  state c' = h_state e /\
  actions c' = getU (transitions (data c)) (h_state e) /\
  actionNum c' = h_actionNum e /\
  forall acts, actions c' = Some acts ->
    action c' = getU acts (h_actionNum e) /\
    ended c' = end_of (action c') (state c') /\
    (ended c' = false -> next c' = Some (default 0 (h_next e))).
Proof.
  intros Hp. cbv zeta.
  assert (Heq : previousState (c, g) =
                setStateAndAction (h_state e) (h_actionNum e)
                  (Some (default 0 (h_next e))) (set_previousStates rest c, g)).
  { cbv [previousState bind assign this]. cbn [fst snd].
    rewrite Hp, pop_snoc. reflexivity. }
  rewrite Heq, setStateAndAction_eq. cbv zeta.
  set (c1 := set_actions _ _).
  destruct (actions c1) as [acts1 |] eqn:Hacts.
  - destruct (setAction_cursor (h_actionNum e) (Some (default 0 (h_next e))) c1 g acts1 Hacts)
      as ((Hd & Hpr & _) & Hs & Ha & Hn & Hact & He & Hnx).
    cbv zeta in *. rewrite Hpr, Hd, Hs, Ha, Hn.
    split; [reflexivity |]. split; [reflexivity |]. split; [reflexivity |].
    split; [reflexivity |]. split; [reflexivity |].
    intros acts Heq1. rewrite Hacts in Heq1. injection Heq1 as <-.
    split; [exact Hact |]. split; [rewrite He, Hact; reflexivity |].
    intros Hend. rewrite Hend in Hnx. exact Hnx.
  - rewrite (setAction_no_actions _ _ _ _ Hacts). cbn [fst snd].
    split; [reflexivity |]. split; [reflexivity |]. split; [reflexivity |].
    split; [reflexivity |]. split; [reflexivity |].
    intros acts Habs.
    change (actions (set_actionNum (h_actionNum e) c1)) with (actions c1) in Habs.
    congruence.
Qed.

(** X9: when setAction returns normally on a configuration it finds
    ended, the graph it has drawn marks nothing as the work of the last
    step: no node has status 2 and no line has flag 2. *)
Theorem ended_redraw_marks_nothing a nxt c g c' g' :
  setAction a nxt (c, g) = (Normal tt, (c', g')) ->
  ended c' = true ->
  Forall (fun n => Graph.status n <> 2%Z) (Graph.nodes g') /\
  Forall (fun b => Graph.energized b <> 2%Z) (Graph.branches g').
Proof.
  rewrite setAction_eq. intros Hrun Hend.
  destruct (actions c) as [acts |]; [| discriminate]. cbv zeta in Hrun.
  set (c1 := set_ended _ _) in Hrun.
  assert (Hc' : ended c1 = true /\
                exists hs, Graph.setState
                  (hs ++ [stateAt (data c1) (state c1); stateAt (data c1) (state c1)]) g =
                  (Normal tt, g')).
  { destruct (ended c1) eqn:E.
    - split; [reflexivity |].
      assert (Hgo : match history_snapshots c1 with
                    | Some hist =>
                      graph_setState
                        (hist ++ [stateAt (data c1) (state c1)] ++
                           [stateAt (data c1) (state c1)]) (c1, g)
                    | None => (Throw TypeError, (c1, g))
                    end = (Normal tt, (c', g'))).
      { destruct nxt; exact Hrun. }
      destruct (history_snapshots c1) as [hs |]; [| discriminate].
      exists hs. unfold graph_setState in Hgo. cbn [fst snd] in Hgo.
      destruct (Graph.setState _ g) as [r g2]. injection Hgo as -> _ ->. reflexivity.
    - exfalso. destruct nxt as [i |].
      + pose proof (setNext_cursor i c1 g) as Hc. rewrite Hrun in Hc.
        cbn [fst snd] in Hc. rewrite Hc in Hend.
        change (ended c1 = true) in Hend. congruence.
      + destruct (history_snapshots c1) as [hs |]; [| discriminate].
        pose proof (graph_setState_cursor
                      (hs ++ [stateAt (data c1) (state c1)] ++ []) c1 g) as Hc.
        rewrite Hrun in Hc. cbn [fst snd] in Hc. congruence. }
  destruct Hc' as [_ [hs Hg]]. exact (setState_frozen _ _ _ _ Hg).
Qed.

(** X10: update copies the tables of the new policy onto the cursor and
    selects the action the new policy recommends for the current state,
    but it looks that action up in the table of actions the cursor
    already held: [this.actions] is not read again from the new
    transitions. *)
Theorem update_keeps_actions d nxt c g acts :
  actions c = Some acts ->
  let c' := fst (snd (update d nxt (c, g))) in
  data c' = d /\
  state c' = state c /\
  previousStates c' = previousStates c /\
  actions c' = Some acts /\
  actionNum c' = getU (policy d) (state c) /\
  action c' = getU acts (getU (policy d) (state c)).
Proof.
  intros Hacts. cbv zeta.
  assert (Heq : update d nxt (c, g) =
                setAction (getU (policy d) (state c)) nxt (set_data d c, g))
    by reflexivity.
  rewrite Heq.
  destruct (setAction_cursor (getU (policy d) (state c)) nxt (set_data d c) g acts Hacts)
    as ((Hd & Hp & _) & Hs & Ha & Hn & Hact & _).
  cbv zeta in *. rewrite Hd, Hp, Hs, Ha, Hn, Hact. repeat split; auto.
Qed.

(** X11: a node whose symbol in the current state is not "U" has the
    same answer from every probability query at every depth: 0 when the
    symbol is "D", 1 otherwise (an index past the end of the state
    counts as energized), in agreement with isEnergized. *)
Theorem known_status_is_absorbing c n s sym :
  state c = Some s ->
  symbol (data c) s n = Some sym ->
  isU sym = false ->
  isEnergized c n = Normal (negb (isD sym)) /\
  (forall depth,
     energizationProbability c n depth = Normal (if isD sym then zero else one)) /\
  (forall rounds,
     energizationProbabilities c (S rounds) n =
       Some (Normal [Some (if isD sym then zero else add zero one)])).
Proof.
  intros Hs Hsym HU. split; [| split].
  - unfold isEnergized. rewrite Hs. cbn. rewrite Hsym, HU.
    rewrite andb_true_r. reflexivity.
  - intros depth. unfold energizationProbability. rewrite Hs.
    destruct depth; cbn [_energizationProbability]; rewrite Hsym, HU.
    + rewrite orb_false_r. reflexivity.
    + destruct (isD sym); reflexivity.
  - intros rounds. unfold energizationProbabilities, _energizationProbabilities.
    rewrite Hs. cbn [profile_loop]. unfold profile_step. cbn [q_state q_depth q_p].
    rewrite Hsym, HU. change (seed [Some zero] 0) with [Some zero].
    destruct (isD sym); cbn [negb]; destruct rounds; reflexivity.
Qed.

End AdvanceAndRewind.

(** X6 on the cursor constructed for [policy_a]: the preview shows the
    state in which the node is energized, and nextState goes there. *)
Lemma nextState_commits_preview_witness :
  nextState (cursor_a, graph_a) = (Normal tt, (cursor_a_next, graph_a_next)) /\
  getNextState cursor_a = Normal (Some ["TG1"]) /\
  getNextState cursor_a = Normal (getCurrentState cursor_a_next) /\
  previousStates cursor_a_next =
    previousStates cursor_a ++
      [Some (mkEntry (state cursor_a) (actionNum cursor_a) (next cursor_a))] /\
  data cursor_a_next = data cursor_a /\
  coherent cursor_a_next /\
  (ended cursor_a_next = false -> next cursor_a_next = Some 0).
Proof.
  assert (Hrun : nextState (cursor_a, graph_a) =
                 (Normal tt, (cursor_a_next, graph_a_next)))
    by (vm_compute; reflexivity).
  split; [exact Hrun |]. split; [vm_compute; reflexivity |].
  exact (nextState_commits_preview cursor_a graph_a cursor_a_next graph_a_next Hrun).
Defined.

(** X7 on the cursor constructed for [policy_none], which is ended for
    want of an action: nextState throws, and the history has an entry. *)
Lemma nextState_pushes_before_it_throws_witness :
  ended cursor_none = true /\
  previousStates cursor_none = [] /\
  target_of cursor_none (next cursor_none) = None /\
  nextState (cursor_none, graph_none) =
    (Throw TypeError,
     (set_previousStates
        ([] ++ [Some (mkEntry (Some 0%Z) None None)]) cursor_none,
      graph_none)).
Proof.
  split; [vm_compute; reflexivity |]. split; [vm_compute; reflexivity |].
  assert (Hnone : target_of cursor_none (next cursor_none) = None)
    by (vm_compute; reflexivity).
  split; [exact Hnone |].
  exact (nextState_pushes_before_it_throws cursor_none graph_none Hnone).
Defined.

(** X8 on [cursor_a] after nextState. *)
Lemma previousState_restores_witness :
  previousStates cursor_a_next =
    [] ++ [Some (mkEntry (Some 0%Z) (Some 0%Z) (Some 0))] /\
  state (fst (snd (previousState (cursor_a_next, graph_a_next)))) = Some 0%Z /\
  previousStates (fst (snd (previousState (cursor_a_next, graph_a_next)))) = [] /\
  next (fst (snd (previousState (cursor_a_next, graph_a_next)))) = Some 0.
Proof.
  assert (Hp : previousStates cursor_a_next =
               [] ++ [Some (mkEntry (Some 0%Z) (Some 0%Z) (Some 0))])
    by (vm_compute; reflexivity).
  split; [exact Hp |].
  destruct (previousState_restores cursor_a_next graph_a_next [] _ Hp)
    as (H1 & _ & H3 & H4 & _ & H6).
  split; [exact H3 |]. split; [exact H1 |].
  destruct (H6 _ H4) as (_ & _ & Hn). apply Hn. vm_compute. reflexivity.
Defined.

(** X9 on the construction of the cursor for [policy_loop], which is
    ended at once. *)
Lemma ended_redraw_marks_nothing_witness :
  new_InteractivePolicy policy_loop graph1 =
    (Normal tt, (fst (snd (new_InteractivePolicy policy_loop graph1)),
                 snd (snd (new_InteractivePolicy policy_loop graph1)))) /\
  ended (fst (snd (new_InteractivePolicy policy_loop graph1))) = true /\
  Forall (fun n => Graph.status n <> 2%Z)
    (Graph.nodes (snd (snd (new_InteractivePolicy policy_loop graph1)))) /\
  Forall (fun b => Graph.energized b <> 2%Z)
    (Graph.branches (snd (snd (new_InteractivePolicy policy_loop graph1)))).
Proof.
  assert (Hrun : new_InteractivePolicy policy_loop graph1 =
                 (Normal tt, (fst (snd (new_InteractivePolicy policy_loop graph1)),
                              snd (snd (new_InteractivePolicy policy_loop graph1)))))
    by (vm_compute; reflexivity).
  assert (Hend : ended (fst (snd (new_InteractivePolicy policy_loop graph1))) = true)
    by (vm_compute; reflexivity).
  split; [exact Hrun |]. split; [exact Hend |].
  exact (ended_redraw_marks_nothing (Some 0%Z) (Some 0)
           (set_actions (transitions policy_loop !! 0%Z)
              (set_state (Some 0%Z) (blank policy_loop)))
           graph1 _ _ Hrun Hend).
Defined.

(** X10: [cursor_a] updated with [policy_b] keeps the action of
    [policy_a]. *)
Lemma update_keeps_actions_witness :
  actions cursor_a = Some {[ 0%Z := [(1%Z, 0.5%float); (0%Z, 0.5%float)] ]} /\
  transitions policy_b !! 0%Z = Some {[ 0%Z := [(1%Z, 1%float)] ]} /\
  data (fst (snd (update policy_b (Some 0) (cursor_a, graph_a)))) = policy_b /\
  action (fst (snd (update policy_b (Some 0) (cursor_a, graph_a)))) =
    Some [(1%Z, 0.5%float); (0%Z, 0.5%float)].
Proof.
  assert (Hacts : actions cursor_a =
                  Some {[ 0%Z := [(1%Z, 0.5%float); (0%Z, 0.5%float)] ]})
    by (vm_compute; reflexivity).
  split; [exact Hacts |]. split; [vm_compute; reflexivity |].
  destruct (update_keeps_actions policy_b (Some 0) cursor_a graph_a _ Hacts)
    as (Hd & _ & _ & _ & _ & Hact).
  split; [exact Hd |]. rewrite Hact. vm_compute. reflexivity.
Defined.

(** X11 on [cursor_a] after nextState, where the node is energized. *)
Lemma known_status_is_absorbing_witness :
  state cursor_a_next = Some 1%Z /\
  isEnergized cursor_a_next 0 = Normal true /\
  (forall depth, energizationProbability cursor_a_next 0 depth = Normal 1%float) /\
  (forall rounds,
     energizationProbabilities cursor_a_next (S rounds) 0 =
       Some (Normal [Some (0 + 1)%float])).
Proof.
  assert (Hs : state cursor_a_next = Some 1%Z) by (vm_compute; reflexivity).
  split; [exact Hs |].
  exact (known_status_is_absorbing cursor_a_next 0 1%Z (Some "TG1") Hs
           eq_refl eq_refl).
Defined.

(** ** The linear cursor: steps, activation list, goTo *)

Section BestCasePath.
Context {R : Type} `{Num R}.
Implicit Types (c : Policy.Cursor (R := R)) (g : Graph.Graph (R := R)).
Implicit Types (d : Policy.PolicyData (R := R)).
(** One round of the while loop of getStepsFromPolicy. *)
Lemma steps_loop_unfold rounds current c :
  steps_loop rounds current c =
  if negb (current <? Z.of_nat (length (states (data c))))%Z
  then Some (Normal current, c)
  else
    match rounds with
    | 0 => None
    | S rounds' =>
      match first_outcome (data c) current with
      | None => Some (Throw TypeError, c)
      | Some o =>
        if (fst o =? current)%Z then Some (Normal current, c)
        else
          let c1 :=
            set_fullHistory
              (fullHistory c ++
                 [Some (mkEntry (Some current) (policy (data c) !! current) (Some 0))]) c in
          match lookupZ (states (data c)) (fst o) with
          | None => Some (Normal current, c1)
          | Some _ => steps_loop rounds' (fst o) (set_steps (steps c1 ++ [fst o]) c1)
          end
      end
    end.
Proof.
  unfold first_outcome, ACTION_OFFSET.
  destruct rounds as [| rounds]; cbn [steps_loop]; [reflexivity |].
  destruct (negb _); [reflexivity |].
  destruct (transitions (data c) !! current) as [acts |]; [| reflexivity].
  cbn [mbind option_bind].
  destruct (getU acts (policy (data c) !! current) ≫= _) as [o |] eqn:E.
  - unfold ACTION_OFFSET. rewrite !Z.add_0_r. reflexivity.
  - reflexivity.
Qed.

Lemma lookupZ_Some_lt {A} (l : list A) i x :
  lookupZ l i = Some x -> (0 <= i < Z.of_nat (length l))%Z.
Proof.
  unfold lookupZ. destruct (i <? 0)%Z eqn:E; [discriminate |].
  apply Z.ltb_ge in E. intros Hx. apply lookup_lt_Some in Hx. lia.
Qed.

(** What the loop has done when it stops. *)
Lemma steps_loop_path rounds : forall current c r c',
  steps_loop rounds current c = Some (r, c') ->
  data c' = data c /\
  exists l fin,
    steps c' = steps c ++ l /\
    last (current :: l) = Some fin /\
    best_case (data c) current l /\
    match r with
    | Normal x => x = fin /\ path_stop (data c) fin
    | Throw e =>
      e = TypeError /\ (fin < Z.of_nat (length (states (data c))))%Z /\
      first_outcome (data c) fin = None
    end.
Proof.
  induction rounds as [| rounds IH]; intros current c r c' Hrun;
    rewrite steps_loop_unfold in Hrun.
  - destruct (negb _) eqn:E; [| discriminate].
    injection Hrun as <- <-. split; [reflexivity |].
    exists [], current. rewrite app_nil_r. repeat split.
    left. apply negb_true_iff, Z.ltb_ge in E. lia.
  - destruct (negb _) eqn:E.
    { injection Hrun as <- <-. split; [reflexivity |].
      exists [], current. rewrite app_nil_r. repeat split.
      left. apply negb_true_iff, Z.ltb_ge in E. lia. }
    apply negb_false_iff, Z.ltb_lt in E.
    destruct (first_outcome (data c) current) as [o |] eqn:Ho.
    2: { injection Hrun as <- <-. split; [reflexivity |].
         exists [], current. rewrite app_nil_r. repeat split; auto. }
    destruct (fst o =? current)%Z eqn:Eself.
    { injection Hrun as <- <-. split; [reflexivity |].
      exists [], current. rewrite app_nil_r. repeat split.
      right. exists o. split; [exact Ho |]. left. apply Z.eqb_eq. exact Eself. }
    apply Z.eqb_neq in Eself. cbv zeta in Hrun.
    destruct (lookupZ (states (data c)) (fst o)) as [snap |] eqn:Hsnap.
    + apply IH in Hrun as (Hd & l & fin & Hsteps & Hlast & Hbest & Hr).
      cbn in Hd, Hsteps, Hbest, Hr. split; [exact Hd |].
      exists (fst o :: l), fin. split; [rewrite Hsteps, <- app_assoc; reflexivity |].
      split; [exact Hlast |]. split; [| exact Hr].
      cbn [best_case]. split; [exact E |]. split; [eauto |]. split; [exact Eself |].
      split; [rewrite Hsnap; eauto | exact Hbest].
    + injection Hrun as <- <-. split; [reflexivity |].
      exists [], current. rewrite app_nil_r. repeat split.
      right. exists o. split; [exact Ho |]. right. exact Hsnap.
Qed.

(** The steps getStepsFromPolicy leaves on a normal return. *)
Lemma getStepsFromPolicy_shape rounds c c' :
  getStepsFromPolicy rounds c = Some (Normal tt, c') ->
  data c' = data c /\
  exists l fin,
    steps c' = 0%Z :: l ++ [fin] /\
    last (0%Z :: l) = Some fin /\
    best_case (data c) 0 l /\
    path_stop (data c) fin.
Proof.
  unfold getStepsFromPolicy. intros Hrun.
  destruct (steps_loop rounds 0 _) as [[[current | e] c1] |] eqn:Hloop;
    try discriminate.
  injection Hrun as <-.
  apply steps_loop_path in Hloop as (Hd & l & fin & Hsteps & Hlast & Hbest & -> & Hstop).
  cbn in Hd, Hsteps, Hbest, Hstop. split; [exact Hd |].
  exists l, fin. cbn. rewrite Hsteps. auto.
Qed.

(** X12: when getStepsFromPolicy returns normally, [steps] is the path
    from state 0 along the first outcome of the recommended action of
    each state, every state on it after the first an existing state other
    than its predecessor, followed by the final state of the path once
    more; the final state is past the end of the states, or its first
    outcome leads back to it or to no state.  The tables of the policy
    are untouched. *)
Theorem getStepsFromPolicy_path rounds c c' :
  getStepsFromPolicy rounds c = Some (Normal tt, c') ->
  data c' = data c /\
  exists l fin,
    steps c' = 0%Z :: l ++ [fin] /\
    last (0%Z :: l) = Some fin /\
    best_case (data c) 0 l /\
    path_stop (data c) fin.
Proof. apply getStepsFromPolicy_shape. Qed.

(** X13: when every existing state has a first outcome that leads to
    another existing state, getStepsFromPolicy does not return: the loop
    reaches every bound on its rounds. *)
Theorem getStepsFromPolicy_cycles rounds c :
  states (data c) <> [] ->
  (forall s, is_Some (lookupZ (states (data c)) s) ->
     exists o, first_outcome (data c) s = Some o /\ fst o <> s /\
               is_Some (lookupZ (states (data c)) (fst o))) ->
  getStepsFromPolicy rounds c = None.
Proof.
  intros Hne Hcyc.
  assert (Hloop : forall rounds current c1,
            data c1 = data c ->
            is_Some (lookupZ (states (data c)) current) ->
            steps_loop rounds current c1 = None).
  { clear rounds. induction rounds as [| rounds IH]; intros current c1 Hd Hcur;
      rewrite steps_loop_unfold, Hd.
    - destruct Hcur as [x Hx]. apply lookupZ_Some_lt in Hx.
      replace (current <? _)%Z with true by (symmetry; apply Z.ltb_lt; lia).
      reflexivity.
    - destruct (Hcyc current Hcur) as (o & Ho & Hneq & Hex).
      destruct Hcur as [x Hx]. apply lookupZ_Some_lt in Hx.
      replace (current <? _)%Z with true by (symmetry; apply Z.ltb_lt; lia).
      cbn [negb]. rewrite Ho.
      replace (fst o =? current)%Z with false by (symmetry; apply Z.eqb_neq; exact Hneq).
      cbv zeta. destruct Hex as [y Hy]. rewrite Hy.
      apply IH; [exact Hd | eauto]. }
  unfold getStepsFromPolicy. rewrite Hloop; [reflexivity | reflexivity |].
  unfold lookupZ. cbn. destruct (states (data c)); [contradiction | eauto].
Qed.

(** getStepsFromPolicy throws in its first round when the policy
    recommends none of the actions of state 0. *)
Lemma getStepsFromPolicy_no_action rounds c (acts : gmap Z Action) :
  is_Some (lookupZ (states (data c)) 0) ->
  transitions (data c) !! 0%Z = Some acts ->
  getU acts (policy (data c) !! 0%Z) = None ->
  exists c', getStepsFromPolicy (S rounds) c = Some (Throw TypeError, c').
Proof.
  intros [st Hst] Hacts Hnone. unfold getStepsFromPolicy.
  rewrite steps_loop_unfold. cbn [data set_fullHistory set_steps].
  apply lookupZ_Some_lt in Hst.
  replace (0 <? _)%Z with true by (symmetry; apply Z.ltb_lt; lia).
  cbn [negb]. unfold first_outcome. rewrite Hacts. cbn [mbind option_bind].
  rewrite Hnone. cbn [mbind option_bind]. eauto.
Qed.

(** X14: a state 0 that has a table of actions, none of them
    recommended by the policy, ends the interactive cursor at once: when
    the constructor of InteractivePolicy has run, whatever its redraw
    does, the cursor is ended and nextStateAvailable() is false.
    getStepsFromPolicy, which the constructor of LinearPolicy runs on
    that cursor next, throws a TypeError, so the construction of a
    linear cursor on the same policy never returns normally. *)
Theorem missing_action_ends_or_throws d g (acts : gmap Z Action) rounds :
  is_Some (lookupZ (states d) 0) ->
  transitions d !! 0%Z = Some acts ->
  getU acts (policy d !! 0%Z) = None ->
  ended (fst (snd (new_InteractivePolicy d g))) = true /\
  nextStateAvailable (fst (snd (new_InteractivePolicy d g))) = false /\
  (exists c', getStepsFromPolicy (S rounds) (fst (snd (new_InteractivePolicy d g))) =
                Some (Throw TypeError, c')) /\
  forall w, new_LinearPolicy (S rounds) d g <> Some (Normal tt, w).
Proof.
  intros Hst Hacts Hnone.
  set (c1 := set_actions (getU (transitions d) (Some 0%Z))
               (set_state (Some 0%Z) (blank d))).
  assert (Hc1 : actions c1 = Some acts) by exact Hacts.
  assert (Hnew : new_InteractivePolicy d g =
                 setAction (getU (policy d) (Some 0%Z)) (Some 0) (c1, g))
    by reflexivity.
  destruct (setAction_cursor (getU (policy d) (Some 0%Z)) (Some 0) c1 g acts Hc1)
    as ((Hd & _) & _ & _ & _ & _ & He & _).
  rewrite <- Hnew in Hd, He.
  change (state c1) with (Some 0%Z) in He.
  change (getU (policy d) (Some 0%Z)) with (policy d !! 0%Z) in He.
  rewrite Hnone in He. change (data c1) with d in Hd.
  assert (Hthrow : forall c, data c = d ->
            exists c', getStepsFromPolicy (S rounds) c = Some (Throw TypeError, c')).
  { intros c Hc. apply (getStepsFromPolicy_no_action rounds c acts); rewrite Hc; assumption. }
  split; [exact He |].
  split; [unfold nextStateAvailable; rewrite He; reflexivity |].
  split; [apply Hthrow; exact Hd |].
  intros w. unfold new_LinearPolicy.
  destruct (new_InteractivePolicy d g) as [[[] | e] [c g1]]; [| discriminate].
  cbn [fst snd] in Hd. destruct (Hthrow c Hd) as [c' ->]. discriminate.
Qed.

(** *** getActivationList *)

Lemma flat_map_nil {A B} (f : A -> list B) (l : list A) :
  (forall x, f x = []) -> flat_map f l = [].
Proof. intros Hf. induction l as [| x l IH]; cbn; [reflexivity |]. rewrite Hf, IH. reflexivity. Qed.

Lemma energizedNodes_same g (p : Snapshot) : energizedNodes g (Some p) p = Normal [].
Proof.
  unfold energizedNodes. f_equal. apply flat_map_nil. intros j.
  destruct (bool_decide (p !! j = Some "U")); reflexivity.
Qed.

Lemma energizedNodes_elem g (ls : option Snapshot) (step : Snapshot) ns j n :
  energizedNodes g ls step = Normal ns ->
  Some (j, n) ∈ ns <->
  Graph.nodes g !! j = Some n /\ j < length step /\
  ls ≫= (fun p : Snapshot => p !! j) = Some "U" /\ step !! j <> Some "U".
Proof.
  unfold energizedNodes. destruct ls as [p |].
  - intros [= <-]. rewrite list_elem_of_In, in_flat_map. split.
    + intros (i & Hi & Hin). apply in_seq in Hi.
      destruct (bool_decide (p !! i = Some "U")) eqn:E1; [| contradiction].
      destruct (bool_decide (step !! i = Some "U")) eqn:E2; [contradiction |].
      cbn in Hin. destruct Hin as [Heq | []].
      apply bool_decide_eq_true in E1. apply bool_decide_eq_false in E2.
      destruct (Graph.nodes g !! i) as [n' |] eqn:Hn; [| discriminate].
      injection Heq as -> ->. cbn. repeat split; auto. lia.
    + intros (Hn & Hj & Hp & Hs). cbn in Hp. exists j. split; [apply in_seq; lia |].
      rewrite (bool_decide_eq_true_2 _ Hp), (bool_decide_eq_false_2 _ Hs).
      cbn. rewrite Hn. left. reflexivity.
  - destruct step; [| discriminate]. intros [= <-]. split.
    + intros Hin. inversion Hin.
    + intros (_ & Hj & _). simpl in Hj. lia.
Qed.

(** The entries the outer loop produces. *)
Lemma activation_loop_entries d g rest : forall s0 out,
  activation_loop d g (lookupZ (states d) s0) rest = Normal out ->
  length out = length rest /\
  forall i ns, out !! i = Some (Some ns) ->
    exists t step,
      (s0 :: rest) !! S i = Some t /\ lookupZ (states d) t = Some step /\
      forall j n,
        Some (j, n) ∈ ns <->
        Graph.nodes g !! j = Some n /\ j < length step /\
        stateAt d ((s0 :: rest) !! i) ≫= (fun p : Snapshot => p !! j) = Some "U" /\
        step !! j <> Some "U".
Proof.
  induction rest as [| t rest IH]; intros s0 out Hrun.
  - cbn in Hrun. injection Hrun as <-. split; [reflexivity |].
    intros i ns Hi. destruct i; discriminate.
  - cbn [activation_loop] in Hrun.
    destruct (lookupZ (states d) t) as [step |] eqn:Ht; [| discriminate].
    destruct (energizedNodes g (lookupZ (states d) s0) step) as [ns0 |] eqn:Hns;
      [| discriminate].
    rewrite <- Ht in Hrun.
    destruct (activation_loop d g (lookupZ (states d) t) rest) as [out' |] eqn:Hrec;
      [| discriminate].
    injection Hrun as <-. destruct (IH t out' Hrec) as [Hlen Hent].
    split; [simpl; lia |].
    intros [| i] ns Hi.
    + cbn in Hi. injection Hi as <-. exists t, step. split; [reflexivity |].
      split; [exact Ht |]. intros j n. cbn [lookup list_lookup].
      exact (energizedNodes_elem g _ step ns0 j n Hns).
    + cbn in Hi. destruct (Hent i ns Hi) as (t' & step' & H1 & H2 & H3).
      exists t', step'. split; [exact H1 |]. split; [exact H2 |]. exact H3.
Qed.

(** On a path whose states exist the outer loop returns, and the entry
    for the repeated final state is empty. *)
Lemma activation_loop_path d g l : forall s prev fin,
  lookupZ (states d) s = Some prev ->
  best_case d s l ->
  last (s :: l) = Some fin ->
  exists out,
    activation_loop d g (Some prev) (l ++ [fin]) = Normal out /\
    last out = Some (Some []).
Proof.
  induction l as [| t l IH]; intros s prev fin Hs Hbest Hlast.
  - cbn in Hlast. injection Hlast as <-. cbn [app activation_loop].
    rewrite Hs, energizedNodes_same. eexists. split; reflexivity.
  - destruct Hbest as (_ & _ & _ & [step Ht] & Hbest).
    cbn [app activation_loop]. rewrite Ht.
    assert (Hns : exists ns, energizedNodes g (Some prev) step = Normal ns)
      by (eexists; reflexivity).
    destruct Hns as [ns ->].
    destruct (IH t step fin Ht Hbest) as (out & -> & Hout).
    { cbn [last] in Hlast |- *. destruct l; exact Hlast. }
    eexists. split; [reflexivity |].
    destruct out; [discriminate | exact Hout].
Qed.

(** X15: on the steps that getStepsFromPolicy computed for a policy
    with a state 0, getActivationList returns one entry per step, the
    first of them [null] and the last one an empty list. *)
Theorem getActivationList_of_path rounds c0 cs c g :
  getStepsFromPolicy rounds c0 = Some (Normal tt, cs) ->
  is_Some (lookupZ (states (data c0)) 0) ->
  data c = data cs ->
  steps c = steps cs ->
  exists out,
    getActivationList c g = Normal out /\
    length out = length (steps c) /\
    out !! 0 = Some None /\
    last out = Some (Some []).
Proof.
  intros Hsteps [snap0 H0] Hd Hst.
  destruct (getStepsFromPolicy_shape _ _ _ Hsteps) as (Hd' & l & fin & Hl & Hlast & Hbest & _).
  rewrite <- Hd' in H0, Hbest. rewrite <- Hd in H0, Hbest. rewrite <- Hst in Hl.
  unfold getActivationList. rewrite Hl. cbn [lookup list_lookup drop].
  change (stateAt (data c) (Some 0%Z)) with (lookupZ (states (data c)) 0). rewrite H0.
  destruct (activation_loop_path (data c) g l 0%Z snap0 fin H0 Hbest Hlast)
    as (out & Hout & Hlastout).
  rewrite drop_0, Hout. exists (None :: out). split; [reflexivity |].
  rewrite <- H0 in Hout. apply activation_loop_entries in Hout as [Hlen _].
  split; [simpl; rewrite Hlen; reflexivity |]. split; [reflexivity |].
  destruct out; [discriminate | exact Hlastout].
Qed.

(** X16: every entry of the list getActivationList returns, after the
    first, holds exactly the nodes of the graph whose symbol is "U" in
    the state of the step before and is no longer "U" in the state of the
    entry's own step, the nodes found damaged ("D") among them. *)
Theorem getActivationList_entries c g out i ns :
  getActivationList c g = Normal out ->
  out !! S i = Some (Some ns) ->
  exists t step,
    steps c !! S i = Some t /\ lookupZ (states (data c)) t = Some step /\
    forall j n,
      Some (j, n) ∈ ns <->
      Graph.nodes g !! j = Some n /\ j < length step /\
      stateAt (data c) (steps c !! i) ≫= (fun p : Snapshot => p !! j) = Some "U" /\
      step !! j <> Some "U".
Proof.
  unfold getActivationList. intros Hrun Hi.
  destruct (activation_loop _ g _ _) as [out' |] eqn:Hloop; [| discriminate].
  injection Hrun as <-. cbn in Hi.
  destruct (steps c) as [| s0 rest] eqn:Hsteps.
  - cbn in Hloop. injection Hloop as <-. destruct i; discriminate.
  - cbn [lookup list_lookup drop] in Hloop.
    change (stateAt (data c) (Some s0)) with (lookupZ (states (data c)) s0) in Hloop.
    apply activation_loop_entries in Hloop as [_ Hent].
    exact (Hent i ns Hi).
Qed.

(** *** goTo *)

Lemma setState_after st nxt c g :
  fst (snd (setState st nxt (c, g))) = after_setState st nxt c.
Proof.
  rewrite setState_eq. cbv zeta. unfold after_setState.
  destruct (getU (transitions (data c)) st) as [acts |] eqn:E.
  - rewrite (setAction_cursor_eq _ nxt _ g acts) by reflexivity. reflexivity.
  - rewrite setAction_no_actions by reflexivity. reflexivity.
Qed.

(** X17: goTo(i) twice leaves the cursor exactly as goTo(i) once does,
    whatever the index and whether or not the calls throw. *)
Theorem goTo_idempotent i c g :
  fst (snd (goTo i (snd (goTo i (c, g))))) = fst (snd (goTo i (c, g))).
Proof.
  assert (Hgo : forall c g,
            fst (snd (goTo i (c, g))) =
            match i with
            | 0 => after_setState (steps c !! 0) None
                     (set_previousStates [] (set_index 0 c))
            | S k => after_setState (steps c !! k) (Some 0)
                       (set_previousStates (take k (fullHistory c)) (set_index (S k) c))
            end).
  { intros c1 g1. destruct i as [| k]; cbv [goTo bind assign this]; cbn [fst snd];
      apply setState_after. }
  destruct (goTo i (c, g)) as [r [c1 g1]] eqn:Hrun. cbn [fst snd].
  rewrite Hgo. pose proof (Hgo c g) as Hc1. rewrite Hrun in Hc1. cbn [fst snd] in Hc1.
  subst c1. unfold after_setState.
  destruct i as [| k]; cbn [data steps set_previousStates set_index];
    match goal with
    | |- context [getU (transitions (data c)) ?st] =>
      destruct (getU (transitions (data c)) st) as [acts |] eqn:E
    end; cbn; rewrite ?E; cbn;
    try match goal with
    | |- context [end_of ?a ?b] => destruct (end_of a b) eqn:Eend
    end; cbn; rewrite ?E; cbn; rewrite ?Eend; reflexivity.
Qed.

Lemma best_case_lookup d l : forall s0 j s t,
  best_case d s0 l ->
  (s0 :: l) !! j = Some s -> (s0 :: l) !! S j = Some t ->
  exists o, first_outcome d s = Some o /\ fst o = t /\ t <> s /\
            is_Some (lookupZ (states d) t).
Proof.
  induction l as [| x l IH]; intros s0 j s t Hbest Hs Ht.
  - destruct j; discriminate.
  - destruct Hbest as (_ & (o & Ho & Hx) & Hne & Hex & Hbest).
    destruct j as [| j].
    + cbn in Hs, Ht. injection Hs as <-. injection Ht as <-. eauto.
    + exact (IH x j s t Hbest Hs Ht).
Qed.

(** X18: on the steps that getStepsFromPolicy computed, after goTo(i)
    for an index [i] other than the first and the last,
    currentSuccessProbability returns the probability of the first
    outcome of the recommended action of [steps[i-1]], the outcome that
    leads to [steps[i]]. *)
Theorem currentSuccessProbability_after_goTo rounds c0 cs c g i :
  getStepsFromPolicy rounds c0 = Some (Normal tt, cs) ->
  data c = data cs ->
  steps c = steps cs ->
  0 < i -> i + 1 < length (steps c) ->
  exists s o,
    steps c !! (i - 1) = Some s /\
    first_outcome (data c) s = Some o /\
    steps c !! i = Some (fst o) /\
    currentSuccessProbability (fst (snd (goTo i (c, g)))) = Normal (Some (snd o)).
Proof.
  intros Hsteps Hd Hst Hpos Hlt.
  destruct (getStepsFromPolicy_shape _ _ _ Hsteps) as (Hd' & l & fin & Hl & _ & Hbest & _).
  rewrite <- Hd', <- Hd in Hbest. rewrite <- Hst in Hl.
  destruct i as [| k]; [lia |]. replace (S k - 1) with k by lia.
  assert (Hlen : length (steps c) = S (length l) + 1).
  { rewrite Hl. cbn. rewrite length_app. simpl. lia. }
  assert (Hk : exists s, (0%Z :: l) !! k = Some s).
  { apply lookup_lt_is_Some. simpl. lia. }
  assert (Hk1 : exists t, (0%Z :: l) !! S k = Some t).
  { apply lookup_lt_is_Some. simpl. lia. }
  destruct Hk as [s Hs]. destruct Hk1 as [t Ht].
  destruct (best_case_lookup _ _ _ _ _ _ Hbest Hs Ht) as (o & Ho & <- & _ & _).
  assert (Hsk : steps c !! k = Some s).
  { rewrite Hl. change (0%Z :: l ++ [fin]) with ((0%Z :: l) ++ [fin]).
    rewrite lookup_app_l; [exact Hs |]. eapply lookup_lt_Some. exact Hs. }
  assert (Hsk1 : steps c !! S k = Some (fst o)).
  { rewrite Hl. change (0%Z :: l ++ [fin]) with ((0%Z :: l) ++ [fin]).
    rewrite lookup_app_l; [exact Ht |]. eapply lookup_lt_Some. exact Ht. }
  exists s, o. split; [exact Hsk |]. split; [exact Ho |]. split; [exact Hsk1 |].
  cbv [goTo bind assign this]. cbn [fst snd].
  change (steps (set_previousStates _ (set_index (S k) c))) with (steps c).
  rewrite Hsk, setState_after. unfold after_setState.
  cbn [data set_previousStates set_index].
  unfold first_outcome in Ho.
  change (getU (transitions (data c)) (Some s)) with (transitions (data c) !! s).
  change (getU (policy (data c)) (Some s)) with (policy (data c) !! s).
  destruct (transitions (data c) !! s) as [acts |]; [| discriminate].
  cbn [mbind option_bind] in Ho.
  destruct (getU acts (policy (data c) !! s)) as [act |] eqn:Hact; [| discriminate].
  cbn [mbind option_bind] in Ho. cbv zeta.
  assert (Hcur : forall c2 : Cursor,
            index c2 = S k -> steps c2 = steps c -> action c2 = Some act ->
            currentSuccessProbability c2 = Normal (Some (snd o))).
  { intros c2 Hi Hs2 Ha2. unfold currentSuccessProbability.
    rewrite Hi, Hs2.
    replace (Z.of_nat (S k) =? Z.of_nat (length (steps c)) - 1)%Z with false
      by (symmetry; apply Z.eqb_neq; lia).
    cbn [Nat.eqb orb].
    match goal with
    | |- match ?x with Some _ => _ | None => _ end = _ =>
      replace x with (Some o) by (rewrite Ha2; symmetry; exact Ho)
    end.
    reflexivity. }
  destruct (ended _); apply Hcur; reflexivity.
Qed.

End BestCasePath.

(** X12 on the cursor constructed for [policy_a]. *)
Lemma getStepsFromPolicy_path_witness :
  getStepsFromPolicy 3 cursor_a = Some (Normal tt, cursor_a_steps) /\
  steps cursor_a_steps = [0%Z; 1%Z; 1%Z] /\
  data cursor_a_steps = data cursor_a /\
  exists l fin,
    steps cursor_a_steps = 0%Z :: l ++ [fin] /\
    last (0%Z :: l) = Some fin /\
    best_case (data cursor_a) 0 l /\
    path_stop (data cursor_a) fin.
Proof.
  destruct cursor_a_steps_built as [Hrun Hst].
  split; [exact Hrun |]. split; [exact Hst |].
  exact (getStepsFromPolicy_path 3 cursor_a cursor_a_steps Hrun).
Defined.

(** X13 on [policy_cycle]. *)
Lemma getStepsFromPolicy_cycles_witness :
  states (data (blank policy_cycle)) <> [] /\
  getStepsFromPolicy 1000 (blank policy_cycle) = None.
Proof.
  assert (Hne : states (data (blank policy_cycle)) <> []) by discriminate.
  split; [exact Hne |].
  apply (getStepsFromPolicy_cycles 1000 (blank policy_cycle) Hne).
  intros s [snap Hs].
  assert (Hcases : s = 0%Z \/ s = 1%Z).
  { pose proof (lookupZ_Some_lt _ _ _ Hs) as Hlt. cbn in Hlt. lia. }
  destruct Hcases as [-> | ->]; eexists; (split; [reflexivity |]);
    (split; [discriminate | eexists; reflexivity]).
Defined.

(** X14 on [policy_none]. *)
Lemma missing_action_ends_or_throws_witness :
  ended (fst (snd (new_InteractivePolicy policy_none graph1))) = true /\
  nextStateAvailable (fst (snd (new_InteractivePolicy policy_none graph1))) = false /\
  (exists c', getStepsFromPolicy 3 (fst (snd (new_InteractivePolicy policy_none graph1))) =
                Some (Throw TypeError, c')) /\
  forall w, new_LinearPolicy 3 policy_none graph1 <> Some (Normal tt, w).
Proof.
  apply (missing_action_ends_or_throws policy_none graph1
           {[ 0%Z := [(0%Z, 1%float)] ]} 2).
  - eexists. reflexivity.
  - reflexivity.
  - reflexivity.
Defined.

(** X15 on the steps [0; 1; 1] of [policy_a]. *)
Lemma getActivationList_of_path_witness :
  getStepsFromPolicy 3 cursor_a = Some (Normal tt, cursor_a_steps) /\
  exists out,
    getActivationList cursor_a_steps graph1 = Normal out /\
    length out = length (steps cursor_a_steps) /\
    out !! 0 = Some None /\
    last out = Some (Some []).
Proof.
  destruct cursor_a_steps_built as [Hrun _].
  split; [exact Hrun |].
  apply (getActivationList_of_path 3 cursor_a cursor_a_steps cursor_a_steps graph1 Hrun);
    [eexists; reflexivity | reflexivity | reflexivity].
Defined.

(** X16 on [policy_d]: the node that turns out damaged is in the entry
    of step 1. *)
Lemma getActivationList_entries_witness :
  getActivationList cursor_d graph1 =
    Normal [None; Some [Some (0, Graph.mkNode 0%Z 0.5%float)]; Some []] /\
  exists t step,
    steps cursor_d !! 1 = Some t /\ lookupZ (states (data cursor_d)) t = Some step /\
    step = ["D"] /\
    forall j n,
      Some (j, n) ∈ [Some (0, Graph.mkNode 0%Z 0.5%float)] <->
      Graph.nodes graph1 !! j = Some n /\ j < length step /\
      stateAt (data cursor_d) (steps cursor_d !! 0)
        ≫= (fun p : Snapshot => p !! j) = Some "U" /\
      step !! j <> Some "U".
Proof.
  assert (Hrun : getActivationList cursor_d graph1 =
                 Normal [None; Some [Some (0, Graph.mkNode 0%Z 0.5%float)]; Some []])
    by (vm_compute; reflexivity).
  split; [exact Hrun |].
  destruct (getActivationList_entries cursor_d graph1 _ 0 _ Hrun eq_refl)
    as (t & step & Ht & Hstep & Hiff).
  exists t, step. split; [exact Ht |]. split; [exact Hstep |]. split; [| exact Hiff].
  vm_compute in Ht. injection Ht as <-. vm_compute in Hstep. congruence.
Defined.

(** X18 at index 1 of the steps [0; 1; 1] of [policy_a]. *)
Lemma currentSuccessProbability_after_goTo_witness :
  getStepsFromPolicy 3 cursor_a = Some (Normal tt, cursor_a_steps) /\
  currentSuccessProbability (fst (snd (goTo 1 (cursor_a_steps, graph_a)))) =
    Normal (Some 0.5%float) /\
  exists s o,
    steps cursor_a_steps !! (1 - 1) = Some s /\
    first_outcome (data cursor_a_steps) s = Some o /\
    steps cursor_a_steps !! 1 = Some (fst o) /\
    currentSuccessProbability (fst (snd (goTo 1 (cursor_a_steps, graph_a)))) =
      Normal (Some (snd o)).
Proof.
  destruct cursor_a_steps_built as [Hrun Hst].
  split; [exact Hrun |]. split; [vm_compute; reflexivity |].
  apply (currentSuccessProbability_after_goTo 3 cursor_a cursor_a_steps
           cursor_a_steps graph_a 1 Hrun eq_refl eq_refl); [lia |].
  rewrite Hst. simpl. lia.
Defined.

Section LinearReturns.
Context {R : Type} `{Num R}.
Implicit Types (c : Policy.Cursor (R := R)) (g : Graph.Graph (R := R)).
Implicit Types (d : Policy.PolicyData (R := R)).
(** The loop of getStepsFromPolicy returns when a rank decreases along
    the first outcomes. *)
Lemma steps_loop_returns (rank : Z -> nat) rounds : forall current c,
  (forall s, is_Some (lookupZ (states (data c)) s) ->
     exists o, first_outcome (data c) s = Some o /\
               (fst o = s \/ lookupZ (states (data c)) (fst o) = None \/
                rank (fst o) < rank s)) ->
  (0 <= current)%Z ->
  rank current < rounds ->
  exists fin c', steps_loop rounds current c = Some (Normal fin, c').
Proof.
  induction rounds as [| rounds IH]; intros current c Hdesc Hpos Hrank; [lia |].
  rewrite steps_loop_unfold.
  destruct (negb (current <? _)%Z) eqn:E; [eauto |].
  apply negb_false_iff, Z.ltb_lt in E.
  assert (Hex : is_Some (lookupZ (states (data c)) current)).
  { unfold lookupZ. replace (current <? 0)%Z with false by (symmetry; apply Z.ltb_ge; lia).
    apply lookup_lt_is_Some. lia. }
  destruct (Hdesc current Hex) as (o & -> & Ho).
  destruct (fst o =? current)%Z eqn:Eself; [eauto |].
  apply Z.eqb_neq in Eself. cbv zeta.
  destruct (lookupZ (states (data c)) (fst o)) as [snap |] eqn:Hsnap; [| eauto].
  destruct Ho as [Ho | [Ho | Ho]]; [contradiction | discriminate |].
  apply IH; [exact Hdesc | | lia].
  apply lookupZ_Some_lt in Hsnap. lia.
Qed.

(** X27: when every existing state has a first outcome, and a rank
    decreases along every first outcome that leads to another existing
    state, getStepsFromPolicy returns normally within as many rounds as
    the rank of state 0 plus one. *)
Theorem getStepsFromPolicy_returns (rank : Z -> nat) c :
  (forall s, is_Some (lookupZ (states (data c)) s) ->
     exists o, first_outcome (data c) s = Some o /\
               (fst o = s \/ lookupZ (states (data c)) (fst o) = None \/
                rank (fst o) < rank s)) ->
  exists c', getStepsFromPolicy (S (rank 0%Z)) c = Some (Normal tt, c').
Proof.
  intros Hdesc. unfold getStepsFromPolicy.
  destruct (steps_loop_returns rank (S (rank 0%Z)) 0
              (set_fullHistory [] (set_steps [0%Z] c)) Hdesc) as (fin & c' & ->);
    [lia | lia |].
  eauto.
Qed.

(** setState on a history of one snapshot of the right length. *)
Lemma setState_one_snapshot g (s : option Snapshot) :
  fits (length (Graph.nodes g)) s ->
  exists g', Graph.setState [s] g = (Throw TypeError, g').
Proof.
  intros Hfit. rewrite setState_unfold.
  assert (Hall : Forall (fits (length (Graph.nodes (Graph.emptyState g)))) [s]).
  { rewrite emptyState_length. repeat constructor. exact Hfit. }
  destruct (replay_fits [s] None None _ Hall) as (last' & g' & -> & _ & _ & Hnone & _).
  rewrite (Hnone eq_refl) by (simpl; lia). eauto.
Qed.

(** X28: goTo(0) redraws the graph from a history that holds the first
    step alone, unless that state is ended.  When the first step is a
    state with one symbol per node and a table of actions, and the action
    the policy recommends there does not end it, goTo(0) throws a
    TypeError.  (updateSteps(), and with it the constructor of
    LinearPolicy, ends with this call.) *)
Theorem goTo_zero_throws c g s (acts : gmap Z Action) :
  steps c !! 0 = Some s ->
  fits (length (Graph.nodes g)) (stateAt (data c) (Some s)) ->
  transitions (data c) !! s = Some acts ->
  end_of (getU acts (policy (data c) !! s)) (Some s) = false ->
  exists w, goTo 0 (c, g) = (Throw TypeError, w).
Proof.
  intros Hs Hfit Hacts Hend.
  cbv [goTo bind assign this]. cbn [fst snd].
  change (steps (set_previousStates [] (set_index 0 c))) with (steps c).
  rewrite Hs, setState_eq. cbv zeta. rewrite setAction_eq.
  cbn [actions set_actions set_state data set_previousStates set_index].
  change (getU (transitions (data c)) (Some s)) with (transitions (data c) !! s).
  rewrite Hacts. cbv zeta.
  change (getU (policy (data c)) (Some s)) with (policy (data c) !! s).
  cbn [ended set_ended state set_action set_actionNum set_actions set_state].
  rewrite Hend.
  destruct (setState_one_snapshot g _ Hfit) as [g' Hg].
  unfold history_snapshots. cbn [previousStates set_ended set_action set_actionNum
    set_actions set_state set_previousStates set_index mapM].
  cbn [mret option_ret app]. unfold graph_setState. cbn [fst snd].
  cbn [data state set_ended set_action set_actionNum set_actions set_state
    set_previousStates set_index app].
  rewrite Hg. eauto.
Qed.

End LinearReturns.

(** X27 on the cursor constructed for [policy_a], with the rank that
    counts the states still ahead. *)
Lemma getStepsFromPolicy_returns_witness :
  exists c', getStepsFromPolicy 2 cursor_a = Some (Normal tt, c').
Proof.
  apply (getStepsFromPolicy_returns (fun s => if (s =? 0)%Z then 1 else 0) cursor_a).
  assert (Hst : states (data cursor_a) = [["U"]; ["TG1"]]) by (vm_compute; reflexivity).
  intros s [snap Hs].
  assert (Hcases : s = 0%Z \/ s = 1%Z).
  { rewrite Hst in Hs. pose proof (lookupZ_Some_lt _ _ _ Hs) as Hlt. cbn in Hlt. lia. }
  destruct Hcases as [-> | ->]; eexists; (split; [reflexivity |]).
  - right. right. cbn. lia.
  - left. reflexivity.
Defined.

(** X28 on [cursor_a_steps]: state 0 of [policy_a] is not ended. *)
Lemma goTo_zero_throws_witness :
  steps cursor_a_steps !! 0 = Some 0%Z /\
  exists w, goTo 0 (cursor_a_steps, graph_a) = (Throw TypeError, w).
Proof.
  split; [reflexivity |].
  apply (goTo_zero_throws cursor_a_steps graph_a 0%Z
           {[ 0%Z := [(1%Z, 0.5%float); (0%Z, 0.5%float)] ]}).
  - reflexivity.
  - eexists. split; reflexivity.
  - reflexivity.
  - reflexivity.
Defined.

(** ** Bounds on the recursive probability query *)

Section RecursiveBounds.
Context {R : Type} `{NumOrderMono R}.
Implicit Types (d : Policy.PolicyData (R := R)).
Lemma le_one_one : le one one.
Proof using Type*. exact (le_refl_r _ _ le_zero_one). Qed.

Lemma le_zero_add (a b : R) : le zero a -> le zero b -> le zero (add a b).
Proof using Type*.
  intros Ha Hb. eapply le_trans; [exact Ha |].
  apply le_add_nonneg; [exact (le_refl_r _ _ Ha) | exact Hb].
Qed.

Lemma foldl_add_mono (xs ys : list R) : forall a b,
  le a b -> Forall2 le xs ys -> le (foldl add a xs) (foldl add b ys).
Proof using Type*.
  intros a b Hab Hall. revert a b Hab.
  induction Hall as [| x y xs ys Hxy Hall IH]; intros a b Hab; [exact Hab |].
  cbn [foldl]. apply IH. apply le_add_mono; assumption.
Qed.

Lemma sum_mono (xs ys : list R) : Forall2 le xs ys -> le (sum xs) (sum ys).
Proof using Type*. apply foldl_add_mono. exact le_zero_zero. Qed.

Lemma foldl_add_nonneg (xs : list R) : forall a,
  le zero a -> Forall (le zero) xs -> le zero (foldl add a xs).
Proof using Type*.
  intros a Ha Hall. revert a Ha.
  induction Hall as [| x xs Hx Hall IH]; intros a Ha; [exact Ha |].
  cbn [foldl]. apply IH. apply le_zero_add; assumption.
Qed.

Lemma sum_nonneg (xs : list R) : Forall (le zero) xs -> le zero (sum xs).
Proof using Type*. apply foldl_add_nonneg. exact le_zero_zero. Qed.

(** The action the recursive query follows from an unknown state. *)
Lemma policy_action_nonneg d st (acts : gmap Z Action) (act : Action) :
  nonneg_policy d ->
  transitions d !! st = Some acts ->
  getU acts (policy d !! st) = Some act ->
  Forall (fun o : Outcome => le zero (snd o)) act.
Proof using Type*.
  intros Hpol Hacts Hact. unfold getU in Hact.
  destruct (policy d !! st) as [a |]; [| discriminate].
  exact (Hpol _ _ Hacts _ _ Hact).
Qed.

Lemma map_completion_Forall2 {A B} (f : A -> completion B) (P : A -> B -> Prop) l ys :
  map_completion f l = Normal ys ->
  Forall (fun a => forall y, f a = Normal y -> P a y) l ->
  Forall2 P l ys.
Proof using Type*.
  revert ys. induction l as [| a l IH]; intros ys Hmap Hall.
  - cbn in Hmap. injection Hmap as <-. constructor.
  - cbn in Hmap. apply Forall_cons in Hall as [Ha Hall].
    destruct (f a) as [y |] eqn:Hy; [| discriminate].
    destruct (map_completion f l) as [ys' |]; [| discriminate].
    injection Hmap as <-. constructor; [apply Ha; reflexivity | apply IH; auto].
Qed.

(** The recursive query never returns less than zero. *)
Lemma _energizationProbability_nonneg d n depth : forall st y,
  nonneg_policy d ->
  _energizationProbability d st n depth = Normal y -> le zero y.
Proof using Type*.
  induction depth as [| depth IH]; intros st y Hpol Hrun;
    cbn [_energizationProbability] in Hrun;
    destruct (symbol d st n) as [s |]; try discriminate.
  - injection Hrun as <-. destruct (isD s || isU s);
      [exact le_zero_zero | exact le_zero_one].
  - destruct (isD s); [injection Hrun as <-; exact le_zero_zero |].
    destruct (negb (isU s)); [injection Hrun as <-; exact le_zero_one |].
    destruct (transitions d !! st) as [acts |] eqn:Hacts; [| discriminate].
    destruct (getU acts (policy d !! st)) as [act |] eqn:Hact;
      [| injection Hrun as <-; exact le_zero_zero].
    destruct ((length act =? 1) && _); [injection Hrun as <-; exact le_zero_zero |].
    match type of Hrun with
    | match map_completion ?f act with _ => _ end = _ =>
      destruct (map_completion f act) as [xs |] eqn:Hmap; [| discriminate]
    end.
    injection Hrun as <-. apply sum_nonneg.
    pose proof (policy_action_nonneg _ _ _ _ Hpol Hacts Hact) as Hnn.
    apply (map_completion_Forall2 _ (fun _ x => le zero x)) in Hmap.
    + clear -Hmap. induction Hmap; constructor; auto.
    + eapply Forall_impl; [exact Hnn |]. intros a Ha x Hx. cbn beta in *.
      destruct (fst a - 1 =? st)%Z; [injection Hx as <-; exact le_zero_zero |].
      destruct (_energizationProbability d (fst a - 1) n depth) as [v |] eqn:Hv;
        [| discriminate].
      injection Hx as <-. apply le_mul_nonneg; [exact Ha |]. exact (IH _ _ Hpol Hv).
Qed.

Lemma map_completion_mono {A} (f f' : A -> completion R) l : forall ys,
  Forall (fun a => forall y, f' a = Normal y ->
                     exists x, f a = Normal x /\ le x y) l ->
  map_completion f' l = Normal ys ->
  exists xs, map_completion f l = Normal xs /\ Forall2 le xs ys.
Proof using Type*.
  induction l as [| a l IH]; intros ys Hall Hmap.
  - cbn in Hmap. injection Hmap as <-. exists []. split; [reflexivity | constructor].
  - cbn in Hmap. apply Forall_cons in Hall as [Ha Hall].
    destruct (f' a) as [y |] eqn:Hy; [| discriminate].
    destruct (map_completion f' l) as [ys' |]; [| discriminate].
    injection Hmap as <-.
    destruct (Ha y eq_refl) as (x & Hx & Hxy).
    destruct (IH ys' Hall eq_refl) as (xs & Hxs & Hall2).
    exists (x :: xs). cbn. rewrite Hx, Hxs. split; [reflexivity |].
    constructor; assumption.
Qed.

(** One level of the recursion. *)
Lemma _energizationProbability_S d st n depth :
  _energizationProbability d st n (S depth) =
  match symbol d st n with
  | None => Throw TypeError
  | Some s =>
    if isD s then Normal zero
    else if negb (isU s) then Normal one
    else
      match transitions d !! st with
      | None => Throw TypeError
      | Some acts =>
        match getU acts (policy d !! st) with
        | None => Normal zero
        | Some act =>
          if (length act =? 1) &&
             bool_decide ((fun a : Outcome => (fst a - 1)%Z) <$> act !! 0 = Some st)
          then Normal zero
          else
            match
              map_completion
                (fun a : Outcome =>
                   if (fst a - 1 =? st)%Z then Normal zero
                   else
                     match _energizationProbability d (fst a - 1)%Z n depth with
                     | Normal x => Normal (mul (snd a) x)
                     | Throw e => Throw e
                     end)
                act
            with
            | Normal xs => Normal (sum xs)
            | Throw e => Throw e
            end
        end
      end
  end.
Proof. reflexivity. Qed.

(** One level less of recursion returns, too, and returns no more. *)
Lemma _energizationProbability_step d n depth : forall st y,
  nonneg_policy d ->
  _energizationProbability d st n (S depth) = Normal y ->
  exists x, _energizationProbability d st n depth = Normal x /\ le x y.
Proof using Type*.
  induction depth as [| depth IH]; intros st y Hpol Hrun.
  - pose proof (_energizationProbability_nonneg _ _ _ _ _ Hpol Hrun) as Hy.
    cbn [_energizationProbability] in Hrun |- *.
    destruct (symbol d st n) as [s |]; [| discriminate].
    destruct (isD s); [injection Hrun as <-; eexists; split; [reflexivity | exact Hy] |].
    destruct (isU s); cbn [negb orb] in *.
    + eexists. split; [reflexivity | exact Hy].
    + injection Hrun as <-. eexists. split; [reflexivity | exact le_one_one].
  - rewrite _energizationProbability_S in Hrun |- *.
    destruct (symbol d st n) as [s |]; [| discriminate].
    destruct (isD s); [injection Hrun as <-; eexists; split; [reflexivity | exact le_zero_zero] |].
    destruct (negb (isU s)); [injection Hrun as <-; eexists; split; [reflexivity | exact le_one_one] |].
    destruct (transitions d !! st) as [acts |] eqn:Hacts; [| discriminate].
    destruct (getU acts (policy d !! st)) as [act |] eqn:Hact;
      [| injection Hrun as <-; eexists; split; [reflexivity | exact le_zero_zero]].
    destruct ((length act =? 1) && _);
      [injection Hrun as <-; eexists; split; [reflexivity | exact le_zero_zero] |].
    match type of Hrun with
    | match map_completion ?f act with _ => _ end = _ =>
      destruct (map_completion f act) as [ys |] eqn:Hmap; [| discriminate]
    end.
    injection Hrun as <-.
    pose proof (policy_action_nonneg _ _ _ _ Hpol Hacts Hact) as Hnn.
    match goal with
    | |- context [map_completion ?f act] =>
      match type of Hmap with
      | map_completion ?f' act = _ =>
        assert (HF : Forall (fun a => forall y, f' a = Normal y ->
                                exists x, f a = Normal x /\ le x y) act)
      end
    end.
    { eapply Forall_impl; [exact Hnn |]. intros a Ha y Hy. cbn beta in *.
      destruct (fst a - 1 =? st)%Z;
        [injection Hy as <-; eexists; split; [reflexivity | exact le_zero_zero] |].
      destruct (_energizationProbability d (fst a - 1) n (S depth)) as [v |] eqn:Hv;
        [| discriminate].
      injection Hy as <-. destruct (IH _ _ Hpol Hv) as (x & -> & Hxv).
      eexists. split; [reflexivity |]. apply le_mul_mono_l; assumption. }
    destruct (map_completion_mono _ _ act ys HF Hmap) as (xs & -> & Hall).
    eexists. split; [reflexivity |]. apply sum_mono. exact Hall.
Qed.

(** The recursive query never returns more than one. *)
Lemma _energizationProbability_le_one d n depth : forall st y,
  nonneg_policy d -> substochastic d ->
  _energizationProbability d st n depth = Normal y -> le y one.
Proof using Type*.
  induction depth as [| depth IH]; intros st y Hpol Hsub Hrun;
    cbn [_energizationProbability] in Hrun;
    destruct (symbol d st n) as [s |]; try discriminate.
  - injection Hrun as <-. destruct (isD s || isU s);
      [exact le_zero_one | exact le_one_one].
  - destruct (isD s); [injection Hrun as <-; exact le_zero_one |].
    destruct (negb (isU s)); [injection Hrun as <-; exact le_one_one |].
    destruct (transitions d !! st) as [acts |] eqn:Hacts; [| discriminate].
    destruct (getU acts (policy d !! st)) as [act |] eqn:Hact;
      [| injection Hrun as <-; exact le_zero_one].
    destruct ((length act =? 1) && _); [injection Hrun as <-; exact le_zero_one |].
    match type of Hrun with
    | match map_completion ?f act with _ => _ end = _ =>
      destruct (map_completion f act) as [xs |] eqn:Hmap; [| discriminate]
    end.
    injection Hrun as <-.
    pose proof (policy_action_nonneg _ _ _ _ Hpol Hacts Hact) as Hnn.
    assert (Hsum : le (sum (map snd act)) one).
    { unfold getU in Hact. destruct (policy d !! st) as [a |]; [| discriminate].
      exact (Hsub _ _ Hacts _ _ Hact). }
    eapply le_trans; [| exact Hsum]. apply sum_mono.
    apply (map_completion_Forall2 _ (fun (a : Outcome) x => le x (snd a))) in Hmap.
    + clear -Hmap. induction Hmap; constructor; auto.
    + eapply Forall_impl; [exact Hnn |]. intros a Ha x Hx. cbn beta in *.
      destruct (fst a - 1 =? st)%Z; [injection Hx as <-; exact Ha |].
      destruct (_energizationProbability d (fst a - 1) n depth) as [v |] eqn:Hv;
        [| discriminate].
      injection Hx as <-.
      eapply le_trans; [apply le_mul_mono_l; [exact Ha | exact (IH _ _ Hpol Hsub Hv)] |].
      apply le_mul_one_r. exact (le_refl_r _ _ Ha).
Qed.

(** X19: in exact arithmetic, with outcome probabilities that are at
    least zero, a normal return of the recursive query at depth [d + 1]
    means a normal return at depth [d] as well, with a value that is at
    least zero and at most the one at depth [d + 1]: the answer never
    decreases with the depth.  (The carrier is any ordered one whose
    addition and multiplication are monotone, as the rationals are;
    rounded binary64 arithmetic is not covered.) *)
Theorem recursive_query_monotone_in_depth d n depth st y :
  nonneg_policy d ->
  _energizationProbability d st n (S depth) = Normal y ->
  exists x, _energizationProbability d st n depth = Normal x /\
            le zero x /\ le x y.
Proof using Type*.
  intros Hpol Hrun.
  destruct (_energizationProbability_step _ _ _ _ _ Hpol Hrun) as (x & Hx & Hxy).
  exists x. split; [exact Hx |]. split; [| exact Hxy].
  exact (_energizationProbability_nonneg _ _ _ _ _ Hpol Hx).
Qed.

(** X20: in exact arithmetic, with outcome probabilities that are at
    least zero and add up to at most one in every action, whatever the
    recursive query returns lies between zero and one.  (The carrier is
    any ordered one whose addition and multiplication are monotone, as
    the rationals are; rounded binary64 arithmetic is not covered.) *)
Theorem recursive_query_in_unit_interval d n depth st y :
  nonneg_policy d ->
  substochastic d ->
  _energizationProbability d st n depth = Normal y ->
  le zero y /\ le y one.
Proof using Type*.
  intros Hpol Hsub Hrun. split.
  - exact (_energizationProbability_nonneg _ _ _ _ _ Hpol Hrun).
  - exact (_energizationProbability_le_one _ _ _ _ _ Hpol Hsub Hrun).
Qed.

End RecursiveBounds.

#[global] Instance qnum_NumOrderMono : NumOrderMono qnum.
Proof.
  constructor.
  - intros [a |] [b |]; simpl; try contradiction. intros _ Hb. lra.
  - intros [a |] [b |]; simpl; try contradiction. apply Qmult_le_0_compat.
  - intros [a |] [b |] [c |] [d |]; simpl; try contradiction. intros. lra.
  - intros [p |] [x |] [y |]; simpl; try contradiction. intros Hp Hxy. nra.
  - intros [p |]; simpl; try contradiction. intros _. lra.
Defined.

Lemma policy_q_substochastic : substochastic policy_q.
Proof.
  unfold substochastic, policy_q. cbn [transitions].
  apply map_Forall_insert_2; [| apply map_Forall_singleton];
    apply map_Forall_singleton; vm_compute; discriminate.
Qed.

(** X19 on [policy_q] from state 0, depth 1 against depth 2. *)
Lemma recursive_query_monotone_in_depth_witness :
  _energizationProbability policy_q 0 0 2 = Normal (QFin (1 # 2)) /\
  exists x, _energizationProbability policy_q 0 0 1 = Normal x /\
            le zero x /\ le x (QFin (1 # 2)).
Proof.
  assert (Hrun : _energizationProbability policy_q 0 0 2 = Normal (QFin (1 # 2)))
    by (vm_compute; reflexivity).
  split; [exact Hrun |].
  exact (recursive_query_monotone_in_depth policy_q 0 1 0%Z _ policy_q_nonneg Hrun).
Defined.

(** X20 on [policy_q] from state 0 at depth 2. *)
Lemma recursive_query_in_unit_interval_witness :
  _energizationProbability policy_q 0 0 2 = Normal (QFin (1 # 2)) /\
  le zero (QFin (1 # 2)) /\ le (QFin (1 # 2)) one.
Proof.
  assert (Hrun : _energizationProbability policy_q 0 0 2 = Normal (QFin (1 # 2)))
    by (vm_compute; reflexivity).
  split; [exact Hrun |].
  exact (recursive_query_in_unit_interval policy_q 0 2 0%Z _
           policy_q_nonneg policy_q_substochastic Hrun).
Defined.

(** ** The baseline policy *)

Section TrivialProperties.
Context {R : Type}.
Implicit Types (g : Graph.Graph (R := R)) (tp : Trivial.TrivialPolicy).

Lemma foldl_alter_lookup {A} (f : A -> A) (ks : list nat) :
  (forall x, f (f x) = f x) ->
  forall (l : list A) k,
    foldl (fun acc j => alter f j acc) l ks !! k =
    if bool_decide (k ∈ ks) then f <$> l !! k else l !! k.
Proof.
  intros Hf. induction ks as [| j ks IH]; intros l k; cbn [foldl].
  - rewrite bool_decide_eq_false_2 by (apply not_elem_of_nil). reflexivity.
  - rewrite IH. destruct (decide (j = k)) as [-> | Hne].
    + rewrite list_lookup_alter_eq.
      rewrite (bool_decide_eq_true_2 (k ∈ k :: ks)) by (apply elem_of_cons; auto).
      case_bool_decide; [| reflexivity].
      destruct (l !! k); cbn; [rewrite Hf |]; reflexivity.
    + rewrite list_lookup_alter_ne by exact Hne.
      assert (Hiff : k ∈ j :: ks <-> k ∈ ks).
      { rewrite elem_of_cons. intuition congruence. }
      rewrite (bool_decide_ext _ _ Hiff). reflexivity.
Qed.

Lemma elem_of_concat {A} (x : A) (ls : list (list A)) :
  x ∈ concat ls <-> exists l, x ∈ l /\ l ∈ ls.
Proof.
  induction ls as [| l0 ls IH]; cbn [concat].
  - split; [intros Hx; inversion Hx | intros (l & _ & Hl); inversion Hl].
  - rewrite elem_of_app, IH. split.
    + intros [Hx | (l & Hx & Hl)].
      * exists l0. split; [exact Hx | apply elem_of_cons; auto].
      * exists l. split; [exact Hx | apply elem_of_cons; auto].
    + intros (l & Hx & Hl). apply elem_of_cons in Hl as [-> | Hl]; eauto.
Qed.

Lemma set_all_lookup v ns g j :
  Graph.nodes (Trivial.set_all v ns g) !! j =
  if bool_decide (j ∈ ns) then Graph.set_status v <$> Graph.nodes g !! j
  else Graph.nodes g !! j.
Proof. unfold Trivial.set_all. cbn. apply foldl_alter_lookup. reflexivity. Qed.

Lemma unknown_elem g j :
  j ∈ Trivial.unknown g <->
  exists n, Graph.nodes g !! j = Some n /\ Graph.status n = 0%Z.
Proof.
  unfold Trivial.unknown. rewrite list_elem_of_filter, elem_of_seq. split.
  - intros [Hst _]. destruct (Graph.nodes g !! j) as [n |]; [| discriminate].
    exists n. split; [reflexivity |]. cbn in Hst. congruence.
  - intros (n & Hn & Hst). split; [rewrite Hn; cbn; congruence |].
    apply lookup_lt_Some in Hn. lia.
Qed.

Lemma unknown_NoDup g : NoDup (Trivial.unknown g).
Proof. unfold Trivial.unknown. apply NoDup_filter, NoDup_seq. Qed.

Lemma chunks_concat rolls : forall todo cs,
  Trivial.chunks rolls todo = Some cs -> concat cs = todo.
Proof.
  induction rolls as [| r rolls IH]; intros todo cs Hrun.
  - destruct todo; [| discriminate]. injection Hrun as <-. reflexivity.
  - destruct todo as [| x todo]; [injection Hrun as <-; reflexivity |].
    cbn [Trivial.chunks] in Hrun. cbv zeta in Hrun.
    destruct (Trivial.chunks rolls _) as [cs' |] eqn:Hrec; [| discriminate].
    injection Hrun as <-. cbn [concat]. rewrite (IH _ _ Hrec). apply take_drop.
Qed.

(** What the loop of goTo does on steps that share no node. *)
Lemma goTo_loop_spec idx cs : forall i g,
  NoDup (concat cs) ->
  exists g',
    Trivial.goTo_loop idx i (Some <$> cs) g = (Normal tt, g') /\
    Graph.branches g' = Graph.branches g /\
    (forall j, j ∉ concat cs -> Graph.nodes g' !! j = Graph.nodes g !! j) /\
    (forall p ns j, cs !! p = Some ns -> j ∈ ns ->
       Graph.nodes g' !! j =
       Graph.set_status (if i + p <=? idx then 1%Z else 0%Z) <$> Graph.nodes g !! j).
Proof.
  induction cs as [| ns0 cs IH]; intros i g Hnd.
  - exists g. split; [reflexivity |]. split; [reflexivity |]. split; [auto |].
    intros p ns j Hp. discriminate.
  - cbn [concat] in Hnd. apply NoDup_app in Hnd as (Hnd0 & Hdisj & Hnd).
    cbn [fmap list_fmap Trivial.goTo_loop].
    destruct (IH (S i) (Trivial.set_all (if i <=? idx then 1%Z else 0%Z) ns0 g) Hnd)
      as (g' & Hrun & Hbr & Hout & Hin).
    exists g'. split; [exact Hrun |]. split; [exact Hbr |]. split.
    + intros j Hj. cbn [concat] in Hj. rewrite elem_of_app in Hj.
      rewrite Hout by tauto. rewrite set_all_lookup.
      rewrite bool_decide_eq_false_2 by tauto. reflexivity.
    + intros [| p] ns j Hp Hj.
      * cbn in Hp. injection Hp as <-. rewrite Hout by (apply Hdisj; exact Hj).
        rewrite set_all_lookup, bool_decide_eq_true_2 by exact Hj.
        rewrite Nat.add_0_r. reflexivity.
      * cbn in Hp. rewrite (Hin p ns j Hp Hj), set_all_lookup.
        assert (Hnot : j ∉ ns0).
        { intros Hj0. apply (Hdisj j Hj0). apply elem_of_concat.
          exists ns. split; [exact Hj |]. eapply list_elem_of_lookup_2. exact Hp. }
        rewrite bool_decide_eq_false_2 by exact Hnot.
        replace (S i + p) with (i + S p) by lia. reflexivity.
Qed.

(** The steps trivialPolicy builds. *)
Lemma trivialPolicy_steps rolls g tp :
  Trivial.trivialPolicy rolls g = Some tp ->
  exists cs,
    tp = Trivial.mkTrivial (None :: (Some <$> cs)) 0 /\
    concat cs = Trivial.unknown g.
Proof.
  unfold Trivial.trivialPolicy. intros Hrun.
  destruct (Trivial.chunks rolls (Trivial.unknown g)) as [cs |] eqn:Hcs; [| discriminate].
  injection Hrun as <-. exists cs. split; [reflexivity |].
  exact (chunks_concat _ _ _ Hcs).
Qed.

(** X21: trivialPolicy puts the unknown nodes of the graph, in their
    order, into the steps after the first, which is [null]: every node
    with status 0 is in exactly one step, and no other node is in any. *)
Theorem trivialPolicy_partitions rolls g tp :
  Trivial.trivialPolicy rolls g = Some tp ->
  Trivial.index tp = 0 /\
  exists cs,
    Trivial.steps tp = None :: (Some <$> cs) /\
    concat cs = Trivial.unknown g /\
    NoDup (concat cs) /\
    forall j, j ∈ concat cs <->
              exists n, Graph.nodes g !! j = Some n /\ Graph.status n = 0%Z.
Proof.
  intros Hrun. destruct (trivialPolicy_steps _ _ _ Hrun) as (cs & -> & Hcs).
  split; [reflexivity |]. exists cs. split; [reflexivity |]. split; [exact Hcs |].
  rewrite Hcs. split; [apply unknown_NoDup |]. intros j. apply unknown_elem.
Qed.

(** X22: on the policy trivialPolicy built for the graph, goTo(k)
    returns normally and sets the index; it gives status 1 to the nodes
    of the steps up to [k] and status 0 to the nodes of the later steps,
    and leaves every other node, every failure probability and every line
    as they were. *)
Theorem trivial_goTo_statuses rolls g tp k :
  Trivial.trivialPolicy rolls g = Some tp ->
  exists g',
    Trivial.goTo k (tp, g) = (Normal tt, (Trivial.mkTrivial (Trivial.steps tp) k, g')) /\
    Graph.branches g' = Graph.branches g /\
    (forall i ns j, Trivial.steps tp !! i = Some (Some ns) -> j ∈ ns ->
       exists n, Graph.nodes g !! j = Some n /\
                 Graph.nodes g' !! j =
                   Some (Graph.mkNode (if i <=? k then 1%Z else 0%Z) (Graph.pf n))) /\
    (forall j n, Graph.nodes g !! j = Some n -> Graph.status n <> 0%Z ->
       Graph.nodes g' !! j = Some n).
Proof.
  intros Hrun. destruct (trivialPolicy_steps _ _ _ Hrun) as (cs & -> & Hcs).
  assert (Hnd : NoDup (concat cs)) by (rewrite Hcs; apply unknown_NoDup).
  destruct (goTo_loop_spec k cs 1 g Hnd) as (g' & Hloop & Hbr & Hout & Hin).
  exists g'. split.
  { unfold Trivial.goTo. cbn [fst snd Trivial.steps drop]. rewrite drop_0, Hloop. reflexivity. }
  split; [exact Hbr |]. split.
  - intros [| i] ns j Hi Hj; [discriminate |].
    change ((Some <$> cs) !! i = Some (Some ns)) in Hi.
    rewrite list_lookup_fmap in Hi.
    destruct (cs !! i) as [ns' |] eqn:Hns; [| discriminate].
    injection Hi as ->.
    assert (Hju : j ∈ Trivial.unknown g).
    { rewrite <- Hcs. apply elem_of_concat. exists ns. split; [exact Hj |].
      eapply list_elem_of_lookup_2. exact Hns. }
    apply unknown_elem in Hju as (n & Hn & _). exists n. split; [exact Hn |].
    rewrite (Hin i ns j Hns Hj), Hn. reflexivity.
  - intros j n Hn Hst. rewrite Hout; [exact Hn |].
    rewrite Hcs. intros Hju. apply unknown_elem in Hju as (n' & Hn' & Hst').
    congruence.
Qed.

(** X23: on the policy trivialPolicy built for the graph, goTo(0) after
    goTo(k) gives back the graph the policy was built for. *)
Theorem trivial_goTo_zero_restores rolls g tp k :
  Trivial.trivialPolicy rolls g = Some tp ->
  Trivial.goTo 0 (snd (Trivial.goTo k (tp, g))) = (Normal tt, (tp, g)).
Proof.
  intros Hrun. destruct (trivialPolicy_steps _ _ _ Hrun) as (cs & -> & Hcs).
  assert (Hnd : NoDup (concat cs)) by (rewrite Hcs; apply unknown_NoDup).
  destruct (goTo_loop_spec k cs 1 g Hnd) as (g1 & Hloop1 & Hbr1 & Hout1 & Hin1).
  destruct (goTo_loop_spec 0 cs 1 g1 Hnd) as (g2 & Hloop2 & Hbr2 & Hout2 & Hin2).
  unfold Trivial.goTo. cbn [fst snd Trivial.steps drop]. rewrite drop_0, Hloop1.
  cbn [fst snd Trivial.steps drop]. rewrite drop_0, Hloop2.
  assert (Hnodes : Graph.nodes g2 = Graph.nodes g).
  { apply list_eq. intros j.
    destruct (decide (j ∈ concat cs)) as [Hj | Hj].
    - assert (Hju : j ∈ Trivial.unknown g) by (rewrite <- Hcs; exact Hj).
      apply elem_of_concat in Hj as (c0 & Hj & Hc0).
      apply list_elem_of_lookup in Hc0 as [p Hp].
      rewrite (Hin2 p c0 j Hp Hj), (Hin1 p c0 j Hp Hj).
      apply unknown_elem in Hju as (n & Hn & Hst). rewrite Hn. cbn.
      destruct n as [s pf]. cbn in Hst. subst s. reflexivity.
    - rewrite (Hout2 j Hj). exact (Hout1 j Hj). }
  f_equal. f_equal. destruct g, g2. cbn in *. congruence.
Qed.

End TrivialProperties.

(** X21 on [graph3] with the rolls 1 and 3. *)
Lemma trivialPolicy_partitions_witness :
  Trivial.trivialPolicy [1; 3] graph3 =
    Some (Trivial.mkTrivial [None; Some [0]; Some [2]] 0) /\
  exists cs,
    [None; Some [0]; Some [2]] = None :: (Some <$> cs) /\
    concat cs = Trivial.unknown graph3 /\
    NoDup (concat cs) /\
    forall j, j ∈ concat cs <->
              exists n, Graph.nodes graph3 !! j = Some n /\ Graph.status n = 0%Z.
Proof.
  assert (Hrun : Trivial.trivialPolicy [1; 3] graph3 =
                 Some (Trivial.mkTrivial [None; Some [0]; Some [2]] 0))
    by (vm_compute; reflexivity).
  split; [exact Hrun |].
  destruct (trivialPolicy_partitions [1; 3] graph3 _ Hrun) as [_ Hcs]. exact Hcs.
Defined.

(** X22 on the same policy, at index 1. *)
Lemma trivial_goTo_statuses_witness :
  Trivial.trivialPolicy [1; 3] graph3 =
    Some (Trivial.mkTrivial [None; Some [0]; Some [2]] 0) /\
  Graph.status <$>
    Graph.nodes (snd (snd (Trivial.goTo 1
      (Trivial.mkTrivial [None; Some [0]; Some [2]] 0, graph3)))) =
    [1%Z; (-1)%Z; 0%Z] /\
  exists g',
    Trivial.goTo 1 (Trivial.mkTrivial [None; Some [0]; Some [2]] 0, graph3) =
      (Normal tt, (Trivial.mkTrivial [None; Some [0]; Some [2]] 1, g')).
Proof.
  assert (Hrun : Trivial.trivialPolicy [1; 3] graph3 =
                 Some (Trivial.mkTrivial [None; Some [0]; Some [2]] 0))
    by (vm_compute; reflexivity).
  split; [exact Hrun |]. split; [vm_compute; reflexivity |].
  destruct (trivial_goTo_statuses [1; 3] graph3 _ 1 Hrun) as (g' & Hgo & _).
  exists g'. exact Hgo.
Defined.

(** X23 on the same policy, from index 2. *)
Lemma trivial_goTo_zero_restores_witness :
  Trivial.trivialPolicy [1; 3] graph3 =
    Some (Trivial.mkTrivial [None; Some [0]; Some [2]] 0) /\
  Trivial.goTo 0
    (snd (Trivial.goTo 2 (Trivial.mkTrivial [None; Some [0]; Some [2]] 0, graph3))) =
    (Normal tt, (Trivial.mkTrivial [None; Some [0]; Some [2]] 0, graph3)).
Proof.
  assert (Hrun : Trivial.trivialPolicy [1; 3] graph3 =
                 Some (Trivial.mkTrivial [None; Some [0]; Some [2]] 0))
    by (vm_compute; reflexivity).
  split; [exact Hrun |].
  exact (trivial_goTo_zero_restores [1; 3] graph3 _ 2 Hrun).
Defined.

(** ** Editing the network *)

Section EditorProperties.
Context {N S : Type}.
Implicit Types (g : Editor.Graph (N := N) (S := S)).

Lemma splice1_valid {A} (l : list A) (i : nat) :
  i <= length l -> Editor.splice1 (Z.of_nat i) l = delete i l.
Proof.
  intros Hle. unfold Editor.splice1. cbv zeta.
  replace (Z.of_nat i <? 0)%Z with false by (symmetry; apply Z.ltb_ge; lia).
  rewrite Z.min_l by lia. rewrite Nat2Z.id. reflexivity.
Qed.

Lemma lookup_delete_shift {A} (l : list A) (i : nat) (n : Z) :
  n <> Z.of_nat i ->
  lookupZ (delete i l) (Editor.shift (Z.of_nat i) n) = lookupZ l n.
Proof.
  intros Hne. unfold Editor.shift, lookupZ.
  destruct (n >? Z.of_nat i)%Z eqn:E.
  - apply Z.gtb_lt in E.
    replace (n - 1 <? 0)%Z with false by (symmetry; apply Z.ltb_ge; lia).
    replace (n <? 0)%Z with false by (symmetry; apply Z.ltb_ge; lia).
    rewrite list_lookup_delete_ge by lia. f_equal. lia.
  - assert (n < Z.of_nat i)%Z by (destruct (Z.gtb_spec n (Z.of_nat i)); [discriminate | lia]).
    destruct (n <? 0)%Z eqn:E0; [reflexivity |].
    apply Z.ltb_ge in E0. rewrite list_lookup_delete_lt by lia. reflexivity.
Qed.

(** X24: removing the node at a position [i] of a graph whose branches
    all have their ends at nodes leaves such a graph again, with one node
    fewer; the branches left are those that did not touch node [i], in
    their order, each between the same two node objects as before; and
    the external branches left are those of the other nodes, each at the
    same node object as before. *)
Theorem removeElement_node_keeps_endpoints g (i : nat) :
  i < length (Editor.nodes g) ->
  endpoints_ok g ->
  let g' := snd (Editor.removeElement (Editor.node_at (Z.of_nat i)) g) in
  fst (Editor.removeElement (Editor.node_at (Z.of_nat i)) g) = true /\
  Editor.nodes g' = delete i (Editor.nodes g) /\
  length (Editor.nodes g') + 1 = length (Editor.nodes g) /\
  endpoints_ok g' /\
  Forall2
    (fun b b' =>
       node_obj g' (fst (Editor.bnodes b')) = node_obj g (fst (Editor.bnodes b)) /\
       node_obj g' (snd (Editor.bnodes b')) = node_obj g (snd (Editor.bnodes b)) /\
       Editor.status b' = Editor.status b)
    (List.filter
       (fun b => negb ((fst (Editor.bnodes b) =? Z.of_nat i)%Z ||
                       (snd (Editor.bnodes b) =? Z.of_nat i)%Z))
       (Editor.branches g))
    (Editor.branches g') /\
  Forall2
    (fun b b' =>
       node_obj g' (Editor.node b') = node_obj g (Editor.node b) /\
       Editor.source b' = Editor.source b /\ Editor.xstatus b' = Editor.xstatus b)
    (List.filter (fun b => negb (Editor.node b =? Z.of_nat i)%Z)
       (Editor.externalBranches g))
    (Editor.externalBranches g').
Proof.
  intros Hi [Hbr Hex]. cbv zeta. cbn [Editor.removeElement fst snd].
  cbn [Editor.nodes Editor.branches Editor.externalBranches].
  rewrite splice1_valid by lia.
  assert (Hlen : length (delete i (Editor.nodes g)) + 1 = length (Editor.nodes g)).
  { rewrite length_delete by (apply lookup_lt_is_Some; exact Hi). lia. }
  split; [reflexivity |]. split; [reflexivity |]. split; [exact Hlen |].
  unfold node_obj, endpoints_ok.
  cbn [Editor.nodes Editor.branches Editor.externalBranches].
  split; [split |]; [| | split].
  - apply Forall_map. apply List.Forall_forall. intros b Hb.
    apply filter_In in Hb as [Hb Hne]. apply list_elem_of_In in Hb.
    rewrite Forall_forall in Hbr. destruct (Hbr b Hb) as [H1 H2].
    apply negb_true_iff, orb_false_iff in Hne as [Hn1 Hn2].
    apply Z.eqb_neq in Hn1, Hn2. cbn [Editor.bnodes fst snd]. unfold Editor.shift.
    destruct (Z.gtb_spec (fst (Editor.bnodes b)) (Z.of_nat i));
      destruct (Z.gtb_spec (snd (Editor.bnodes b)) (Z.of_nat i)); lia.
  - apply Forall_map. apply List.Forall_forall. intros b Hb.
    apply filter_In in Hb as [Hb Hne]. apply list_elem_of_In in Hb.
    rewrite Forall_forall in Hex. pose proof (Hex b Hb) as H1.
    apply negb_true_iff, Z.eqb_neq in Hne.
    destruct (Z.gtb_spec (Editor.node b) (Z.of_nat i)); cbn [Editor.node]; lia.
  - apply Forall2_fmap_r, Forall_Forall2_diag, List.Forall_forall. intros b Hb.
    apply filter_In in Hb as [_ Hne].
    apply negb_true_iff, orb_false_iff in Hne as [Hn1 Hn2].
    apply Z.eqb_neq in Hn1, Hn2. unfold compose.
    cbn [Editor.bnodes Editor.status fst snd].
    rewrite !lookup_delete_shift by assumption. auto.
  - apply Forall2_fmap_r, Forall_Forall2_diag, List.Forall_forall. intros b Hb.
    apply filter_In in Hb as [_ Hne]. apply negb_true_iff, Z.eqb_neq in Hne.
    pose proof (lookup_delete_shift (Editor.nodes g) i (Editor.node b) Hne) as Hs.
    unfold Editor.shift in Hs. unfold compose.
    destruct (Editor.node b >? Z.of_nat i)%Z; cbn [Editor.node Editor.source Editor.xstatus];
      auto.
Qed.

Lemma splice1_last {A} (l : list A) :
  Editor.splice1 (-1) l = take (length l - 1) l.
Proof.
  unfold Editor.splice1. cbv zeta. cbn [Z.ltb Z.compare].
  destruct l as [| x l] using rev_ind; [reflexivity |].
  rewrite length_app. cbn [length].
  rewrite Z.max_l by lia.
  replace (Z.to_nat (Z.of_nat (length l + 1) + -1)) with (length l) by lia.
  replace (length l + 1 - 1) with (length l) by lia.
  rewrite take_app_length. clear IHl.
  induction l as [| y l IH]; [reflexivity |]. cbn. f_equal. exact IH.
Qed.

(** X25: removeElement on a node that is not in the graph (indexOf
    gives -1) still returns true.  On a graph whose branches all have
    their ends at nodes it removes the last node, keeps every branch and
    moves every branch end one position down, an end at position 0 to
    the position -1. *)
Theorem removeElement_absent_node g :
  endpoints_ok g ->
  Editor.removeElement (Editor.node_at (-1)) g =
  (true,
   Editor.mkGraph
     (take (length (Editor.nodes g) - 1) (Editor.nodes g))
     (Editor.resources g)
     (map (fun b => Editor.mkBranch
                      ((fst (Editor.bnodes b) - 1)%Z, (snd (Editor.bnodes b) - 1)%Z)
                      (Editor.status b))
        (Editor.branches g))
     (map (fun b => Editor.mkExternal (Editor.source b) (Editor.node b - 1)%Z
                      (Editor.xstatus b))
        (Editor.externalBranches g))).
Proof.
  intros [Hbr Hex]. cbn [Editor.removeElement]. rewrite splice1_last.
  f_equal. f_equal.
  - induction Hbr as [| b bs [H1 H2] Hbr IH]; [reflexivity |].
    cbn [List.filter map].
    replace (fst (Editor.bnodes b) =? -1)%Z with false by (symmetry; apply Z.eqb_neq; lia).
    replace (snd (Editor.bnodes b) =? -1)%Z with false by (symmetry; apply Z.eqb_neq; lia).
    cbn [orb negb map]. rewrite IH. unfold Editor.shift.
    replace (fst (Editor.bnodes b) >? -1)%Z with true by (symmetry; apply Z.gtb_lt; lia).
    replace (snd (Editor.bnodes b) >? -1)%Z with true by (symmetry; apply Z.gtb_lt; lia).
    reflexivity.
  - induction Hex as [| b bs H1 Hex IH]; [reflexivity |].
    cbn [List.filter map].
    replace (Editor.node b =? -1)%Z with false by (symmetry; apply Z.eqb_neq; lia).
    cbn [negb map]. rewrite IH.
    replace (Editor.node b >? -1)%Z with true by (symmetry; apply Z.gtb_lt; lia).
    reflexivity.
Qed.

End EditorProperties.

Lemma editor3_ok : endpoints_ok editor3.
Proof. split; repeat constructor; cbn; lia. Qed.

(** X24 on [editor3], removing the node in the middle: no branch is
    left. *)
Lemma removeElement_node_keeps_endpoints_witness :
  1 < length (Editor.nodes editor3) /\
  endpoints_ok editor3 /\
  snd (Editor.removeElement (Editor.node_at 1) editor3) =
    Editor.mkGraph ["a"; "c"] [] [] [] /\
  endpoints_ok (snd (Editor.removeElement (Editor.node_at 1) editor3)).
Proof.
  assert (Hi : 1 < length (Editor.nodes editor3)) by (cbn; lia).
  split; [exact Hi |]. split; [exact editor3_ok |]. split; [reflexivity |].
  destruct (removeElement_node_keeps_endpoints editor3 1 Hi editor3_ok)
    as (_ & _ & _ & Hok & _).
  exact Hok.
Defined.

(** X25 on [editor3]: the branch from node 0 to node 1 ends up between
    the positions -1 and 0. *)
Lemma removeElement_absent_node_witness :
  endpoints_ok editor3 /\
  Editor.removeElement (Editor.node_at (-1)) editor3 =
    (true,
     Editor.mkGraph ["a"; "b"] []
       [Editor.mkBranch (-1, 0)%Z 0; Editor.mkBranch (0, 1)%Z 0] []).
Proof.
  split; [exact editor3_ok |].
  exact (removeElement_absent_node editor3 editor3_ok).
Defined.

(** ** Agreement of the two probability queries *)

Section Agreement.
Context {R : Type} `{NumExact R}.
Implicit Types (d : Policy.PolicyData (R := R)) (rs : list R).
Implicit Types (queue : list (Policy.Item (R := R))).
Lemma num_add_zero_l (x : R) : add zero x = x.
Proof using Type*. rewrite num_add_comm. apply num_add_zero_r. Qed.

Lemma foldl_add_foldr (xs : list R) : forall a,
  foldl add a xs = add a (foldr add zero xs).
Proof using Type*.
  induction xs as [| x xs IH]; intros a; cbn [foldl foldr].
  - symmetry. apply num_add_zero_r.
  - rewrite IH, num_add_assoc. reflexivity.
Qed.

Lemma sum_foldr (xs : list R) : sum xs = foldr add zero xs.
Proof using Type*. unfold sum. rewrite foldl_add_foldr. apply num_add_zero_l. Qed.

Lemma pending_app d n k queue1 queue2 :
  pending d n k (queue1 ++ queue2) = add (pending d n k queue1) (pending d n k queue2).
Proof using Type*.
  unfold pending. induction queue1 as [| it q IH]; cbn [app foldr].
  - symmetry. apply num_add_zero_l.
  - rewrite IH. apply num_add_assoc.
Qed.

(** *** The results *)

Lemma entry_snoc rs x k :
  last rs = Some x -> entry (rs ++ [x]) k = entry rs k.
Proof.
  intros Hlast. unfold entry. rewrite length_app. cbn [length].
  assert (Hlen : 1 <= length rs).
  { destruct rs; [discriminate | simpl; lia]. }
  rewrite last_lookup in Hlast.
  replace (length rs + 1 - 1) with (length rs) by lia.
  destruct (decide (k < length rs)) as [Hlt | Hge].
  - rewrite !Nat.min_l by lia. rewrite lookup_app_l by lia. reflexivity.
  - rewrite Nat.min_r by lia. rewrite Nat.min_r by lia.
    rewrite lookup_app_r by lia. rewrite Nat.sub_diag. cbn.
    replace (length rs - 1) with (pred (length rs)) by lia.
    rewrite Hlast. reflexivity.
Qed.

Lemma entry_raise_last rs dd x y k :
  S dd = length rs -> rs !! dd = Some x ->
  entry (<[dd := y]> rs) k = if k <? dd then entry rs k else y.
Proof.
  intros Hlen Hx. unfold entry. rewrite length_insert.
  replace (length rs - 1) with dd by lia.
  destruct (k <? dd) eqn:E.
  - apply Nat.ltb_lt in E. rewrite !Nat.min_l by lia.
    rewrite list_lookup_insert_ne by lia. reflexivity.
  - apply Nat.ltb_ge in E. rewrite Nat.min_r by lia.
    rewrite list_lookup_insert_eq by lia. reflexivity.
Qed.

Lemma entry_last rs dd x k :
  S dd = length rs -> rs !! dd = Some x -> dd <= k -> entry rs k = x.
Proof.
  intros Hlen Hx Hk. unfold entry. replace (length rs - 1) with dd by lia.
  rewrite Nat.min_r by lia. rewrite Hx. reflexivity.
Qed.

(** What seeding [results[depth]] does on the levels. *)
Lemma seed_levels (it : Item (R := R)) queue rs :
  levels (it :: queue) rs ->
  exists rs1 x,
    seed (Some <$> rs) (q_depth it) = Some <$> rs1 /\
    S (q_depth it) = length rs1 /\
    rs1 !! q_depth it = Some x /\
    (forall k, entry rs1 k = entry rs k) /\
    exists qa qb, queue = qa ++ qb /\
      Forall (fun it' => S (q_depth it') = length rs1) qa /\
      Forall (fun it' => q_depth it' = length rs1) qb.
Proof.
  intros [(q1 & q2 & Hq & H1 & H2) [Hlen _]].
  destruct q1 as [| it1 q1'].
  - simpl in Hq. destruct q2 as [| it2 q2']; [discriminate |].
    injection Hq as <- <-. apply Forall_cons in H2 as [Hit H2].
    destruct (last rs) as [x |] eqn:Hlast.
    2: { apply last_None in Hlast. subst rs. simpl in Hlen. lia. }
    exists (rs ++ [x]), x. split.
    { unfold seed. rewrite read_fmap, Hit.
      rewrite (lookup_ge_None_2 rs (length rs)) by lia.
      destruct (length rs) as [| k] eqn:Ek; [lia |].
      rewrite read_fmap. rewrite last_lookup, Ek in Hlast. simpl in Hlast.
      rewrite Hlast, <- Ek. apply write_fmap_end. }
    split; [rewrite length_app; simpl; lia |].
    split; [rewrite Hit, lookup_app_r, Nat.sub_diag by lia; reflexivity |].
    split; [intros k; apply entry_snoc; exact Hlast |].
    exists queue, []. split; [rewrite app_nil_r; reflexivity |].
    split; [| constructor].
    eapply Forall_impl; [exact H2 |]. intros it' Hit'. cbn beta in Hit'.
    rewrite length_app. simpl. lia.
  - injection Hq as <- ->. apply Forall_cons in H1 as [Hit H1].
    destruct (rs !! q_depth it) as [x |] eqn:Hx.
    2: { apply lookup_ge_None in Hx. lia. }
    exists rs, x. split; [unfold seed; rewrite read_fmap, Hx; reflexivity |].
    split; [exact Hit |]. split; [exact Hx |]. split; [reflexivity |].
    exists q1', q2. auto.
Qed.

(** *** One round of the loop *)

Lemma profile_step_cases d n (it : Item (R := R)) queue rs queue' results' :
  levels (it :: queue) rs ->
  profile_step d n it queue (Some <$> rs) = Normal (queue', results') ->
  exists rs1 x s,
    S (q_depth it) = length rs1 /\
    rs1 !! q_depth it = Some x /\
    (forall k, entry rs1 k = entry rs k) /\
    (exists qa qb, queue = qa ++ qb /\
       Forall (fun it' => S (q_depth it') = length rs1) qa /\
       Forall (fun it' => q_depth it' = length rs1) qb) /\
    symbol d (q_state it) n = Some s /\
    ((isD s = true /\ queue' = queue /\ results' = Some <$> rs1) \/
     (isD s = false /\ isU s = false /\ queue' = queue /\
      results' = Some <$> <[q_depth it := add x (q_p it)]> rs1) \/
     (isD s = false /\ isU s = true /\
      exists acts : gmap Z Action,
        transitions d !! q_state it = Some acts /\
        ((getU acts (policy d !! q_state it) = None /\
          queue' = queue /\ results' = Some <$> rs1) \/
         (exists act : Action,
            getU acts (policy d !! q_state it) = Some act /\
            queue' = queue ++ children (q_state it) (q_p it) (q_depth it) act /\
            results' = Some <$> rs1)))).
Proof.
  intros Hlev Hstep.
  destruct (seed_levels it queue rs Hlev)
    as (rs1 & x & Hseed & Hlen & Hx & Hent & Hsplit).
  unfold profile_step in Hstep. rewrite Hseed in Hstep.
  destruct (symbol d (q_state it) n) as [s |]; [| discriminate].
  exists rs1, x, s. split; [exact Hlen |]. split; [exact Hx |].
  split; [exact Hent |]. split; [exact Hsplit |]. split; [reflexivity |].
  destruct (isD s).
  { injection Hstep as <- <-. left. auto. }
  destruct (isU s); cbn [negb] in Hstep.
  - right. right. split; [reflexivity |]. split; [reflexivity |].
    destruct (transitions d !! q_state it) as [acts |]; [| discriminate].
    exists acts. split; [reflexivity |].
    destruct (getU acts (policy d !! q_state it)) as [act |].
    + injection Hstep as <- <-. right. exists act. auto.
    + injection Hstep as <- <-. left. auto.
  - injection Hstep as <- <-. right. left.
    rewrite read_fmap, Hx. cbn [addU]. rewrite write_fmap_lt by lia. auto.
Qed.

(** *** The recursive query on a state of the queue *)

Lemma returns_damaged d n (it : Item (R := R)) s :
  symbol d (q_state it) n = Some s -> isD s = true ->
  forall k, _energizationProbability d (q_state it) n k = Normal zero.
Proof.
  intros Hs HD [| k]; cbn [_energizationProbability]; rewrite Hs, HD; reflexivity.
Qed.

Lemma returns_energized d n (it : Item (R := R)) s :
  symbol d (q_state it) n = Some s -> isD s = false -> isU s = false ->
  forall k, _energizationProbability d (q_state it) n k = Normal one.
Proof.
  intros Hs HD HU [| k]; cbn [_energizationProbability]; rewrite Hs, HD, HU; reflexivity.
Qed.

Lemma returns_no_action d n (it : Item (R := R)) s (acts : gmap Z Action) :
  symbol d (q_state it) n = Some s -> isD s = false -> isU s = true ->
  transitions d !! q_state it = Some acts ->
  getU acts (policy d !! q_state it) = None ->
  forall k, _energizationProbability d (q_state it) n k = Normal zero.
Proof.
  intros Hs HD HU Hacts Hact [| k]; cbn [_energizationProbability];
    rewrite Hs, HD, HU; [reflexivity |].
  cbn [negb]. rewrite Hacts, Hact. reflexivity.
Qed.

Lemma children_returns d n st p dd (act : Action) :
  Forall (returns d n) (children st p dd act) ->
  Forall (fun a : Outcome =>
            (fst a - 1 =? st)%Z = false ->
            forall k, exists x, _energizationProbability d (fst a - 1) n k = Normal x)
    act.
Proof.
  unfold children. induction act as [| a act IH]; intros Hall; [constructor |].
  cbn [flat_map] in Hall. destruct (fst a - 1 =? st)%Z eqn:E.
  - constructor; [intros Hf; cbn beta in Hf; congruence | exact (IH Hall)].
  - apply Forall_app in Hall as [Ha Hall]. apply Forall_cons in Ha as [Ha _].
    constructor; [intros _; exact Ha | exact (IH Hall)].
Qed.

Lemma map_completion_summands d n st j (act : Action) :
  Forall (fun a : Outcome =>
            (fst a - 1 =? st)%Z = false ->
            forall k, exists x, _energizationProbability d (fst a - 1) n k = Normal x)
    act ->
  map_completion
    (fun a : Outcome =>
       if (fst a - 1 =? st)%Z then Normal zero
       else
         match _energizationProbability d (fst a - 1)%Z n j with
         | Normal x => Normal (mul (snd a) x)
         | Throw e => Throw e
         end)
    act = Normal (map (summand d n st j) act).
Proof.
  induction 1 as [| a act Ha Hall IH]; [reflexivity |].
  cbn [map_completion map]. rewrite IH.
  assert (Hhead :
    (if (fst a - 1 =? st)%Z then Normal zero
     else
       match _energizationProbability d (fst a - 1)%Z n j with
       | Normal x => Normal (mul (snd a) x)
       | Throw e => Throw e
       end) = Normal (summand d n st j a)).
  { unfold summand, value_at. destruct (fst a - 1 =? st)%Z eqn:E; [reflexivity |].
    destruct (Ha eq_refl j) as [x ->]. reflexivity. }
  rewrite Hhead. reflexivity.
Qed.

Lemma returns_action d n (it : Item (R := R)) s (acts : gmap Z Action) (act : Action) :
  symbol d (q_state it) n = Some s -> isD s = false -> isU s = true ->
  transitions d !! q_state it = Some acts ->
  getU acts (policy d !! q_state it) = Some act ->
  Forall (returns d n) (children (q_state it) (q_p it) (q_depth it) act) ->
  _energizationProbability d (q_state it) n 0 = Normal zero /\
  forall j, _energizationProbability d (q_state it) n (S j) =
            Normal (sum (map (summand d n (q_state it) j) act)).
Proof using Type*.
  intros Hs HD HU Hacts Hact Hret. split.
  - cbn [_energizationProbability]. rewrite Hs, HD, HU. reflexivity.
  - intros j. rewrite _energizationProbability_S, Hs, HD, HU. cbn [negb].
    rewrite Hacts, Hact.
    apply children_returns in Hret.
    rewrite (map_completion_summands d n _ j act Hret).
    destruct ((length act =? 1) && _) eqn:E; [| reflexivity].
    apply andb_true_iff in E as [Hlen Hself].
    apply Nat.eqb_eq in Hlen. apply bool_decide_eq_true in Hself.
    destruct act as [| a [| ? ?]]; try discriminate.
    cbn in Hself. injection Hself as Hself.
    cbn [map]. unfold summand. rewrite (proj2 (Z.eqb_eq _ _) Hself).
    unfold sum. cbn [foldl]. rewrite num_add_zero_r. reflexivity.
Qed.

(** *** What the children of an item stand for *)

Lemma pending_children_early d n k st p dd (act : Action) :
  k < S dd -> pending d n k (children st p dd act) = zero.
Proof using Type*.
  intros Hk. unfold pending, children.
  induction act as [| a act IH]; [reflexivity |].
  cbn [flat_map]. destruct (fst a - 1 =? st)%Z; [exact IH |].
  cbn [app foldr]. rewrite IH. unfold term. cbn [q_depth].
  replace (S dd <=? k) with false by (symmetry; apply Nat.leb_gt; lia).
  apply num_add_zero_r.
Qed.

Lemma pending_children_late d n k st p dd (act : Action) :
  number p -> S dd <= k ->
  pending d n k (children st p dd act) =
  mul p (foldr add zero (map (summand d n st (k - S dd)) act)).
Proof using Type*.
  intros Hp Hk. unfold pending, children.
  induction act as [| a act IH]; cbn [flat_map map foldr].
  - symmetry. apply num_mul_zero_r. exact Hp.
  - rewrite num_mul_add_distr_l. unfold summand at 1.
    destruct (fst a - 1 =? st)%Z.
    + rewrite num_mul_zero_r by exact Hp. rewrite num_add_zero_l. exact IH.
    + cbn [app foldr]. rewrite IH. f_equal. unfold term. cbn [q_depth q_p q_state].
      replace (S dd <=? k) with true by (symmetry; apply Nat.leb_le; lia).
      apply num_mul_assoc.
Qed.

Lemma children_numbers st p dd (act : Action) :
  number p -> Forall (fun o : Outcome => number (snd o)) act ->
  Forall (fun it : Item => number (q_p it)) (children st p dd act).
Proof using Type*.
  intros Hp Hact. unfold children.
  induction Hact as [| a act Ha Hact IH]; cbn [flat_map]; [constructor |].
  destruct (fst a - 1 =? st)%Z; [exact IH |].
  constructor; [apply number_mul; assumption | exact IH].
Qed.

Lemma finite_policy_action d st (acts : gmap Z Action) (act : Action) :
  finite_policy d ->
  transitions d !! st = Some acts ->
  getU acts (policy d !! st) = Some act ->
  Forall (fun o : Outcome => number (snd o)) act.
Proof.
  intros Hpol Hacts Hact. unfold getU in Hact.
  destruct (policy d !! st) as [a |]; [| discriminate].
  exact (Hpol _ _ Hacts _ _ Hact).
Qed.

(** *** The loop *)

Lemma term_zero d n k (it : Item (R := R)) :
  number (q_p it) ->
  (forall j, _energizationProbability d (q_state it) n j = Normal zero) ->
  term d n k it = zero.
Proof using Type*.
  intros Hp Hz. unfold term, value_at. destruct (q_depth it <=? k); [| reflexivity].
  rewrite Hz. apply num_mul_zero_r. exact Hp.
Qed.

Lemma profile_loop_agrees d n rounds : forall queue rs results,
  finite_policy d ->
  levels queue rs ->
  profile_loop d n rounds queue (Some <$> rs) = Some (Normal results) ->
  Forall (returns d n) queue /\
  exists rs', results = Some <$> rs' /\ 1 <= length rs' /\
    forall k, entry rs' k = add (entry rs k) (pending d n k queue).
Proof using Type*.
  assert (Hdone : forall rs results,
            levels [] rs -> Some (Normal (Some <$> rs)) = Some (Normal results) ->
            Forall (returns d n) [] /\
            exists rs', results = Some <$> rs' /\ 1 <= length rs' /\
              forall k, entry rs' k = add (entry rs k) (pending d n k [])).
  { intros rs results Hlev [= <-]. split; [constructor |].
    exists rs. split; [reflexivity |]. split; [apply Hlev |].
    intros k. symmetry. apply num_add_zero_r. }
  induction rounds as [| rounds IH]; intros queue rs results Hpol Hlev Hrun.
  { destruct queue; [| discriminate]. exact (Hdone rs results Hlev Hrun). }
  destruct queue as [| it queue]; [exact (Hdone rs results Hlev Hrun) |].
  cbn [profile_loop] in Hrun.
  destruct (profile_step d n it queue (Some <$> rs)) as [[queue1 results1] | e] eqn:Hstep;
    [| discriminate].
  destruct (profile_step_cases _ _ _ _ _ _ _ Hlev Hstep)
    as (rs1 & x & s & Hlen & Hx & Hent & (qa & qb & Hq & Ha & Hb) & Hs & Hcases).
  destruct Hlev as (_ & _ & Hnum). apply Forall_cons in Hnum as [Hp Hnum].
  assert (Hlev1 : levels queue rs1).
  { split; [exists qa, qb; auto |]. split; [lia | exact Hnum]. }
  assert (Hpend : forall k, pending d n k (it :: queue) =
                            add (term d n k it) (pending d n k queue)) by reflexivity.
  destruct Hcases as [(HD & -> & ->) | [(HD & HU & -> & ->) | (HD & HU & acts & Hacts & Hact)]].
  - (* damaged *)
    destruct (IH _ _ _ Hpol Hlev1 Hrun) as (Hret & rs' & -> & Hlen' & Hval).
    pose proof (returns_damaged d n it s Hs HD) as Hz.
    split; [constructor; [intros k; eexists; apply Hz | exact Hret] |].
    exists rs'. split; [reflexivity |]. split; [exact Hlen' |].
    intros k. rewrite Hval, Hent, Hpend, (term_zero d n k it Hp Hz), num_add_zero_l.
    reflexivity.
  - (* energized *)
    assert (Hlev2 : levels queue (<[q_depth it := add x (q_p it)]> rs1)).
    { split; [exists qa, qb; rewrite length_insert; auto |].
      split; [rewrite length_insert; lia | exact Hnum]. }
    destruct (IH _ _ _ Hpol Hlev2 Hrun) as (Hret & rs' & -> & Hlen' & Hval).
    pose proof (returns_energized d n it s Hs HD HU) as Hone.
    split; [constructor; [intros k; eexists; apply Hone | exact Hret] |].
    exists rs'. split; [reflexivity |]. split; [exact Hlen' |].
    intros k. rewrite Hval, (entry_raise_last rs1 _ x _ k Hlen Hx), Hpend.
    unfold term, value_at. rewrite Hone, num_mul_one_r.
    destruct (k <? q_depth it) eqn:E.
    + apply Nat.ltb_lt in E.
      replace (q_depth it <=? k) with false by (symmetry; apply Nat.leb_gt; lia).
      rewrite num_add_zero_l, Hent. reflexivity.
    + apply Nat.ltb_ge in E.
      replace (q_depth it <=? k) with true by (symmetry; apply Nat.leb_le; lia).
      rewrite <- Hent, (entry_last rs1 _ x k Hlen Hx E). symmetry. apply num_add_assoc.
  - destruct Hact as [(Hact & -> & ->) | (act & Hact & -> & ->)].
    + (* unknown, no action *)
      destruct (IH _ _ _ Hpol Hlev1 Hrun) as (Hret & rs' & -> & Hlen' & Hval).
      pose proof (returns_no_action d n it s acts Hs HD HU Hacts Hact) as Hz.
      split; [constructor; [intros k; eexists; apply Hz | exact Hret] |].
      exists rs'. split; [reflexivity |]. split; [exact Hlen' |].
      intros k. rewrite Hval, Hent, Hpend, (term_zero d n k it Hp Hz), num_add_zero_l.
      reflexivity.
    + (* unknown, with an action *)
      pose proof (finite_policy_action _ _ _ _ Hpol Hacts Hact) as Hfin.
      assert (Hlev2 : levels (queue ++ children (q_state it) (q_p it) (q_depth it) act) rs1).
      { split; [| split; [lia |]].
        - exists qa, (qb ++ children (q_state it) (q_p it) (q_depth it) act).
          split; [rewrite Hq, app_assoc; reflexivity |]. split; [exact Ha |].
          apply Forall_app. split; [exact Hb |].
          rewrite <- Hlen. apply children_depth.
        - apply Forall_app. split; [exact Hnum |].
          apply children_numbers; assumption. }
      destruct (IH _ _ _ Hpol Hlev2 Hrun) as (Hret & rs' & -> & Hlen' & Hval).
      apply Forall_app in Hret as [Hretq Hretc].
      destruct (returns_action d n it s acts act Hs HD HU Hacts Hact Hretc) as [H0v HSv].
      split.
      { constructor; [| exact Hretq]. intros [| j]; eexists; [apply H0v | apply HSv]. }
      exists rs'. split; [reflexivity |]. split; [exact Hlen' |].
      intros k. rewrite Hval, Hent, Hpend, pending_app.
      rewrite (num_add_comm (term d n k it)). f_equal. f_equal.
      unfold term, value_at.
      destruct (decide (k < S (q_depth it))) as [Hk | Hk].
      * rewrite pending_children_early by exact Hk.
        destruct (q_depth it <=? k) eqn:E; [| reflexivity].
        apply Nat.leb_le in E. replace (k - q_depth it) with 0 by lia.
        rewrite H0v. symmetry. apply num_mul_zero_r. exact Hp.
      * rewrite pending_children_late by (first [exact Hp | lia]).
        replace (q_depth it <=? k) with true by (symmetry; apply Nat.leb_le; lia).
        replace (k - q_depth it) with (S (k - S (q_depth it))) by lia.
        rewrite HSv, sum_foldr. reflexivity.
Qed.

(** X26: in exact arithmetic, on a policy whose outcome probabilities
    are numbers, the two probability queries agree: when
    energizationProbabilities(n) returns an array, the recursive
    energizationProbability(n, k) returns for every depth [k], and what it
    returns is entry [k] of the array, the last entry when [k] is past
    the end. *)
Theorem energization_queries_agree (c : Cursor) n rounds results :
  finite_policy (data c) ->
  energizationProbabilities c rounds n = Some (Normal results) ->
  exists rs,
    results = Some <$> rs /\ 1 <= length rs /\
    forall k, energizationProbability c n k = Normal (entry rs k).
Proof using Type*.
  intros Hpol Hrun. unfold energizationProbabilities in Hrun.
  unfold energizationProbability.
  destruct (state c) as [s |]; [| discriminate].
  unfold _energizationProbabilities in Hrun.
  assert (Hlev : levels [mkItem s one 0] [zero]).
  { split; [| split; [simpl; lia |]].
    - exists [mkItem s one 0], []. repeat split; repeat constructor.
    - repeat constructor. exact number_one. }
  destruct (profile_loop_agrees _ n rounds _ [zero] results Hpol Hlev Hrun)
    as (Hret & rs & -> & Hlen & Hval).
  exists rs. split; [reflexivity |]. split; [exact Hlen |].
  intros k. apply Forall_cons in Hret as [Hret _].
  destruct (Hret k) as [x Hx]. cbn [q_state] in Hx. rewrite Hx. f_equal.
  rewrite Hval. unfold entry at 1. cbn [length]. rewrite Nat.min_0_r. cbn.
  unfold term, value_at. cbn [q_depth q_p q_state].
  rewrite Nat.sub_0_r, Hx, num_mul_one_l, num_add_zero_r, num_add_zero_l.
  reflexivity.
Qed.

End Agreement.

#[global] Instance qcnum_NumExact : NumExact qcnum.
Proof.
  refine {| number := fun x => match x with QcFin _ => True | QcNaN => False end |}.
  - exact I.
  - intros [a |] [b |]; simpl; auto.
  - intros [a |] [b |]; simpl; try reflexivity. f_equal. apply Qcplus_comm.
  - intros [a |] [b |] [c |]; simpl; try reflexivity. f_equal. apply Qcplus_assoc.
  - intros [a |]; simpl; try reflexivity. f_equal. apply Qcplus_0_r.
  - intros [a |]; simpl; try contradiction. intros _. f_equal. apply Qcmult_0_r.
  - intros [a |]; simpl; try reflexivity. f_equal. apply Qcmult_1_r.
  - intros [a |]; simpl; try reflexivity. f_equal. apply Qcmult_1_l.
  - intros [a |] [b |] [c |]; simpl; try reflexivity. f_equal.
    symmetry. apply Qcmult_assoc.
  - intros [a |] [b |] [c |]; simpl; try reflexivity. f_equal.
    apply Qcmult_plus_distr_r.
Defined.

Lemma policy_qc_finite : finite_policy policy_qc.
Proof.
  unfold finite_policy, policy_qc. cbn [transitions].
  apply map_Forall_insert_2; [| apply map_Forall_singleton];
    apply map_Forall_singleton; repeat constructor.
Qed.

(** X26 on [policy_qc] from state 0. *)
Lemma energization_queries_agree_witness :
  finite_policy (data cursor_qc) /\
  exists rs,
    energizationProbabilities cursor_qc 9 0 = Some (Normal (Some <$> rs)) /\
    length rs = 2 /\
    forall k, energizationProbability cursor_qc 0 k = Normal (entry rs k).
Proof.
  split; [exact policy_qc_finite |].
  assert (Hrun : exists results,
            energizationProbabilities cursor_qc 9 0 = Some (Normal results) /\
            length results = 2).
  { eexists. split; vm_compute; reflexivity. }
  destruct Hrun as (results & Hrun & Hlen).
  destruct (energization_queries_agree cursor_qc 0 9 results policy_qc_finite Hrun)
    as (rs & -> & _ & Hagree).
  exists rs. split; [exact Hrun |]. split; [| exact Hagree].
  rewrite length_fmap in Hlen. exact Hlen.
Defined.
